(** * liaison: the distributed experience pipeline

    A shallow embedding of the parts of [liaison/distributed] and
    [liaison/replay] that the specification talks about:

    - [exp_collector.py]: [ExperienceCollectorServer._retrieve_storage] and
      the server loop [ExperienceCollectorServer.run];
    - [shell.py]: [SyncEveryNSteps], [Shell._sync_variables] and
      [Shell.restore_from_checkpoint];
    - [actor_full_episode.py]: [Actor.run_loop];
    - the replay buffer driven by [replay_test.py].

    Python objects are modelled by the inductive type [pyval]; exceptions by
    the type [exn] and the error monad [result]; Python dictionaries whose
    iteration order matters by association lists, the others by [gmap]. *)

From Stdlib Require Import ZArith Ascii String List Bool Lia.
From Stdlib Require Import DecimalString DecimalZ DecimalPos.
From stdpp Require Import base option list gmap strings sorting.
Import ListNotations.

Local Open Scope string_scope.
Local Open Scope list_scope.
Local Open Scope Z_scope.

(** ** Exceptions and results *)

Inductive exn : Type :=
  | KeyError (key : string)
  | TypeError (msg : string)
  | ZeroDivisionError
  | AssertionError
  | RecursionError
  | Exception_ (msg : string).

Inductive result (A : Type) : Type :=
  | Ok (a : A)
  | Raise (e : exn).

Arguments Ok {A} a.
Arguments Raise {A} e.

Definition rbind {A B} (m : result A) (k : A -> result B) : result B :=
  match m with
  | Ok a => k a
  | Raise e => Raise e
  end.

(** Computations that consume fuel: [None] means that the fuel ran out. *)
Definition fbind {A B} (m : option (result A)) (k : A -> option (result B))
  : option (result B) :=
  match m with
  | None => None
  | Some (Raise e) => Some (Raise e)
  | Some (Ok a) => k a
  end.

Definition fret {A} (a : A) : option (result A) := Some (Ok a).
Definition fraise {A} (e : exn) : option (result A) := Some (Raise e).

Notation "'let*' p ':=' m 'in' k" := (fbind m (fun p => k))
  (at level 10, p pattern, m at level 100, k at level 200).

(** Python's [a % b] on integers: the result has the sign of [b]. *)
Definition py_mod (a b : Z) : result Z :=
  if b =? 0 then Raise ZeroDivisionError else Ok (a mod b).

(** ** Python strings *)

Module PyStr.

(** [s.endswith(suffix)] *)
Definition endswith (s suffix : string) : bool :=
  let n := String.length s in
  let m := String.length suffix in
  (m <=? n)%nat && String.eqb (substring (n - m) m s) suffix.

(** [s[:-m]] for [m > 0] *)
Definition drop_last (m : nat) (s : string) : string :=
  substring 0 (String.length s - m) s.

(** [s.split(sep)] for a one-character separator: never empty. *)
Fixpoint split (sep : ascii) (s : string) : list string :=
  match s with
  | EmptyString => [EmptyString]
  | String c s' =>
      if Ascii.eqb c sep then EmptyString :: split sep s'
      else match split sep s' with
           | [] => [String c EmptyString]
           | w :: ws => String c w :: ws
           end
  end.

(** [sep.join(l)] *)
Fixpoint join (sep : string) (l : list string) : string :=
  match l with
  | [] => EmptyString
  | [w] => w
  | w :: ws => w +:+ sep +:+ join sep ws
  end.

Definition lower_ascii (c : ascii) : ascii :=
  let n := nat_of_ascii c in
  if ((65 <=? n) && (n <=? 90))%nat then ascii_of_nat (n + 32) else c.

(** [s.lower()], on the ASCII range. *)
Fixpoint lower (s : string) : string :=
  match s with
  | EmptyString => EmptyString
  | String c s' => String (lower_ascii c) (lower s')
  end.

(** [sub in s] *)
Fixpoint contains (sub s : string) : bool :=
  String.prefix sub s ||
  match s with
  | EmptyString => false
  | String _ s' => contains sub s'
  end.

(** [sorted(l)] on strings, by insertion. *)
Fixpoint insert_sorted (x : string) (l : list string) : list string :=
  match l with
  | [] => [x]
  | y :: l' => if String.leb x y then x :: l else y :: insert_sorted x l'
  end.

Definition sorted (l : list string) : list string :=
  fold_right insert_sorted [] l.

End PyStr.

(** ** Python values carried by experience records

    An [ndarray] is a heap object (a numpy array) whose identity is its
    address [addr]: arrays are the only values here that support weak
    references.  Lists and dictionaries of a freshly deserialised message form
    a tree, so in-place mutation is modelled by returning the new tree. *)

Record ndarray : Type := NdArray {
  addr : nat;
  data : list Z
}.

#[warnings="-register-all"]
Inductive pyval : Type :=
  | PNone
  | PInt (z : Z)
  | PStr (s : string)
  | PArray (a : ndarray)
  | PList (items : list pyval)
  | PDict (items : list (string * pyval)).

(** Insertion-ordered dictionaries with string keys. *)
Module PyDict.

Abbreviation t := (list (string * pyval)).

Definition keys (d : t) : list string := map fst d.

(** [d[key]] *)
Fixpoint get (key : string) (d : t) : option pyval :=
  match d with
  | [] => None
  | (k, v) :: d' => if String.eqb k key then Some v else get key d'
  end.

(** [d[key] = v]: an existing key keeps its position, a new one is
    appended. *)
Fixpoint set (key : string) (v : pyval) (d : t) : t :=
  match d with
  | [] => [(key, v)]
  | (k, w) :: d' =>
      if String.eqb k key then (k, v) :: d' else (k, w) :: set key v d'
  end.

Fixpoint remove (key : string) (d : t) : t :=
  match d with
  | [] => []
  | (k, w) :: d' =>
      if String.eqb k key then remove key d' else (k, w) :: remove key d'
  end.

(** [del d[key]] *)
Definition del (key : string) (d : t) : result t :=
  match get key d with
  | None => Raise (KeyError key)
  | Some _ => Ok (remove key d)
  end.

End PyDict.

(** ** exp_collector.py *)

Module Collector.

Definition hash_suffix : string := "_hash".

(** The storage chunk sent with a message: hash -> payload. *)
Abbreviation chunk := (gmap string pyval).

(** [weakref.WeakValueDictionary]: hash -> live payload.  Only objects
    that support weak references can be stored; an entry vanishes when its
    payload dies, see [expire]. *)
Abbreviation weakmap := (gmap string ndarray).

(** [self._weakref_map[key] = v] *)
Definition weak_setitem (key : string) (v : pyval) (wm : weakmap)
  : result weakmap :=
  match v with
  | PArray a => Ok (<[key := a]> wm)
  | _ => Raise (TypeError "cannot create weak reference")
  end.

(** The [str] branch of [_retrieve_storage]. *)
Definition retrieve_hash (exphash : string) (storage : chunk) (wm : weakmap)
  : result (pyval * weakmap) :=
  match wm !! exphash with
  | Some a => Ok (PArray a, wm)
  | None =>
      match storage !! exphash with
      | None => Raise (KeyError exphash)
      | Some o => rbind (weak_setitem exphash o wm) (fun wm' => Ok (o, wm'))
      end
  end.

Section Loops.
(** The recursive call [self._retrieve_storage(_, storage)]. *)
Variable rec : pyval -> weakmap -> option (result (pyval * weakmap)).

(** [for i, e in enumerate(exp): exp[i] = rec(e)] *)
Fixpoint retrieve_list (exp : list pyval) (wm : weakmap)
  : option (result (list pyval * weakmap)) :=
  match exp with
  | [] => fret ([], wm)
  | e :: rest =>
      let* (e', wm1) := rec e wm in
      let* (rest', wm2) := retrieve_list rest wm1 in
      fret (e' :: rest', wm2)
  end.

(** The body of [for key in list(exp.keys())]. *)
Definition retrieve_key (key : string) (st : PyDict.t * weakmap)
  : option (result (PyDict.t * weakmap)) :=
  let '(exp, wm) := st in
  if PyStr.endswith key hash_suffix then
    let new_key := PyStr.drop_last (String.length hash_suffix) key in
    match PyDict.get key exp with
    | None => fraise (KeyError key)
    | Some v =>
        let* (v', wm') := rec v wm in
        match PyDict.del key (PyDict.set new_key v' exp) with
        | Ok exp' => fret (exp', wm')
        | Raise e => fraise e
        end
    end
  else
    match PyDict.get key exp with
    | None => fraise (KeyError key)
    | Some v =>
        let* (v', wm') := rec v wm in
        fret (PyDict.set key v' exp, wm')
    end.

Fixpoint retrieve_keys (ks : list string) (st : PyDict.t * weakmap)
  : option (result (PyDict.t * weakmap)) :=
  match ks with
  | [] => fret st
  | key :: rest =>
      let* st' := retrieve_key key st in retrieve_keys rest st'
  end.
End Loops.

(** [ExperienceCollectorServer._retrieve_storage], with the depth of the
    Python call stack bounded by [fuel]. *)
Fixpoint retrieve_storage (fuel : nat) (exp : pyval) (storage : chunk)
    (wm : weakmap) : option (result (pyval * weakmap)) :=
  match fuel with
  | O => None
  | S fuel' =>
      let rec := fun e m => retrieve_storage fuel' e storage m in
      match exp with
      | PList items =>
          let* (items', wm') := retrieve_list rec items wm in
          fret (PList items', wm')
      | PDict items =>
          let* (items', wm') :=
            retrieve_keys rec (PyDict.keys items) (items, wm) in
          fret (PDict items', wm')
      | PStr exphash => Some (retrieve_hash exphash storage wm)
      | _ => fret (exp, wm)
      end
  end.

(** Nesting depth of a record. *)
Fixpoint depth (v : pyval) : nat :=
  match v with
  | PList items => S (max_list (map depth items))
  | PDict items => S (max_list (map (fun kv => depth (snd kv)) items))
  | _ => O
  end.

(** A call of [_retrieve_storage] from the server loop. *)
Definition resolve (exp : pyval) (storage : chunk) (wm : weakmap)
  : result (pyval * weakmap) :=
  match retrieve_storage (S (depth exp)) exp storage wm with
  | Some r => r
  | None => Raise RecursionError
  end.

(** The cache only gains entries during a call, and what it gains comes from
    the chunk. *)
Definition grows (storage : chunk) (wm wm' : weakmap) : Prop :=
  forall h a,
    (wm !! h = Some a -> wm' !! h = Some a)
    /\ (wm' !! h = Some a ->
        wm !! h = Some a \/ (wm !! h = None /\ storage !! h = Some (PArray a))).

(** The specification's reading of a message that carries a list of
    experience units: each unit is resolved on its own against the
    message's chunk, in list order, the cache being passed along. *)
Fixpoint resolve_each (units : list pyval) (storage : chunk) (wm : weakmap)
  : result (list pyval * weakmap) :=
  match units with
  | [] => Ok ([], wm)
  | u :: rest =>
      rbind (resolve u storage wm) (fun '(u', wm1) =>
      rbind (resolve_each rest storage wm1) (fun '(rest', wm2) =>
      Ok (u' :: rest', wm2)))
  end.

(** What the receiving socket and the garbage collector do to the server:
    [Recv exp storage] is a message returned by [self.receiver.recv()];
    [Expire dead] is the death of the payloads cached under the hashes
    [dead], whose weak entries vanish. *)
Inductive net_event : Type :=
  | Recv (exp : pyval) (storage : chunk)
  | Expire (dead : list string).

Definition expire (dead : list string) (wm : weakmap) : weakmap :=
  fold_right (fun h m => delete h m) wm dead.

(** The server thread: its weak cache and the calls made so far to
    [self._exp_handler], oldest first. *)
Record server : Type := Server {
  weakref_map : weakmap;
  handled : list pyval
}.

(** [for exp in experience_list]: the values the loop variable takes.
    Iterating over an array is outside the model ([None]). *)
Definition py_iter (v : pyval) : option (result (list pyval)) :=
  match v with
  | PList items => Some (Ok items)
  | PDict items => Some (Ok (map PStr (PyDict.keys items)))
  | PStr s =>
      Some (Ok (map (fun c => PStr (String c EmptyString))
                    (list_ascii_of_string s)))
  | PNone | PInt _ => Some (Raise (TypeError "object is not iterable"))
  | PArray _ => None
  end.

(** How the thread stands once the events are consumed: blocked in
    [recv()], dead from an uncaught exception, or outside the model. *)
Inductive outcome : Type :=
  | Waiting (s : server)
  | Crashed (e : exn) (calls : list pyval)
  | Unmodelled.

(** One turn of [while True] in [ExperienceCollectorServer.run]. *)
Definition serve (exp : pyval) (storage : chunk) (s : server) : outcome :=
  match resolve exp storage (weakref_map s) with
  | Raise e => Crashed e (handled s)
  | Ok (experience_list, wm') =>
      match py_iter experience_list with
      | None => Unmodelled
      | Some (Raise e) => Crashed e (handled s)
      | Some (Ok units) => Waiting (Server wm' (handled s ++ units))
      end
  end.

(** [ExperienceCollectorServer.run] on a finite run of events. *)
Fixpoint run_from (events : list net_event) (s : server) : outcome :=
  match events with
  | [] => Waiting s
  | Expire dead :: rest =>
      run_from rest (Server (expire dead (weakref_map s)) (handled s))
  | Recv exp storage :: rest =>
      match serve exp storage s with
      | Waiting s' => run_from rest s'
      | stopped => stopped
      end
  end.

(** [self._weakref_map = weakref.WeakValueDictionary()], then the loop. *)
Definition run (events : list net_event) : outcome :=
  run_from events (Server ∅ []).

(** The calls the handler has received. *)
Definition calls (o : outcome) : list pyval :=
  match o with
  | Waiting s => handled s
  | Crashed _ cs => cs
  | Unmodelled => []
  end.

(** No string is left anywhere in the value. *)
Fixpoint no_str (v : pyval) : bool :=
  match v with
  | PStr _ => false
  | PList items => forallb no_str items
  | PDict items => forallb (fun kv => no_str (snd kv)) items
  | _ => true
  end.

(** The keys of every dictionary in the value are distinct, as they are in
    Python. *)
Fixpoint well_formed (v : pyval) : bool :=
  match v with
  | PList items => forallb well_formed items
  | PDict items =>
      bool_decide (NoDup (map fst items))
      && forallb (fun kv => well_formed (snd kv)) items
  | _ => true
  end.

(** Neither a string nor a key with the hash suffix anywhere in the value. *)
Fixpoint hash_free (v : pyval) : bool :=
  match v with
  | PStr _ => false
  | PList items => forallb hash_free items
  | PDict items =>
      forallb (fun kv => negb (PyStr.endswith (fst kv) hash_suffix)
                         && hash_free (snd kv)) items
  | _ => true
  end.

(** A record in which no dictionary, at any depth, holds a key together
    with the same key followed by ['_hash'], the keys of a dictionary being
    distinct as they are in Python. *)
Fixpoint collision_free (v : pyval) : bool :=
  match v with
  | PList items => forallb collision_free items
  | PDict items =>
      bool_decide (NoDup (map fst items))
      && forallb (fun kv =>
                    negb (bool_decide ((fst kv +:+ hash_suffix)
                                       ∈ map fst items))) items
      && forallb (fun kv => collision_free (snd kv)) items
  | _ => true
  end.

(** The strings held in a record, at any depth: its hash references. *)
Fixpoint refs (v : pyval) : list string :=
  match v with
  | PStr h => [h]
  | PList items => flat_map refs items
  | PDict items => flat_map (fun kv => refs (snd kv)) items
  | _ => []
  end.

(** The contract of the resolve operation, as a function from a record to
    its resolved copy.  A hash is looked up in the weak cache first and in
    the storage chunk otherwise, and is then cached under the hash. *)
Definition lookup_spec (storage : chunk) (h : string) (wm : weakmap)
  : result (pyval * weakmap) :=
  match wm !! h with
  | Some a => Ok (PArray a, wm)
  | None =>
      match storage !! h with
      | Some (PArray a) => Ok (PArray a, <[h := a]> wm)
      | Some _ => Raise (TypeError "cannot create weak reference")
      | None => Raise (KeyError h)
      end
  end.

Section Contract.
Variable rec : pyval -> weakmap -> result (pyval * weakmap).

(** The elements of a sequence are resolved from left to right. *)
Fixpoint resolve_spec_list (items : list pyval) (wm : weakmap)
  : result (list pyval * weakmap) :=
  match items with
  | [] => Ok ([], wm)
  | e :: rest =>
      rbind (rec e wm) (fun '(e', wm1) =>
      rbind (resolve_spec_list rest wm1) (fun '(rest', wm2) =>
      Ok (e' :: rest', wm2)))
  end.

(** The values of a mapping are resolved in the order of its keys; the
    entries come back in two groups: those whose key has no suffix, under
    their key, and those whose key has the suffix, under the stripped key
    and without the suffixed key. *)
Fixpoint resolve_spec_items (items : PyDict.t) (wm : weakmap)
  : result (PyDict.t * PyDict.t * weakmap) :=
  match items with
  | [] => Ok ([], [], wm)
  | (key, v) :: rest =>
      rbind (rec v wm) (fun '(v', wm1) =>
      rbind (resolve_spec_items rest wm1) (fun '(kept, renamed, wm2) =>
      if PyStr.endswith key hash_suffix
      then Ok (kept,
               (PyStr.drop_last (String.length hash_suffix) key, v')
                 :: renamed,
               wm2)
      else Ok ((key, v') :: kept, renamed, wm2)))
  end.
End Contract.

(** The unsuffixed keys are new keys of the mapping, so they come after the
    keys that were there. *)
Fixpoint resolve_spec (storage : chunk) (exp : pyval) (wm : weakmap)
    {struct exp} : result (pyval * weakmap) :=
  match exp with
  | PStr h => lookup_spec storage h wm
  | PList items =>
      rbind (resolve_spec_list (resolve_spec storage) items wm)
            (fun '(items', wm') => Ok (PList items', wm'))
  | PDict items =>
      rbind (resolve_spec_items (resolve_spec storage) items wm)
            (fun '(kept, renamed, wm') => Ok (PDict (kept ++ renamed), wm'))
  | _ => Ok (exp, wm)
  end.

(** What the contract allows as the outcome of resolving, from the cache
    [wm], a record whose hash references are [hs]: a success needs every
    reference to be in the cache or in the chunk, and lets the cache grow
    from the chunk only; a failure is the [KeyError] of a reference found
    in neither, or the [TypeError] of a reference whose payload in the
    chunk is not an array. *)
Definition accounted {A : Type} (storage : chunk) (hs : list string)
    (wm : weakmap) (r : result (A * weakmap)) : Prop :=
  match r with
  | Ok (_, wm') =>
      grows storage wm wm'
      /\ forall h, h ∈ hs -> wm !! h <> None \/ storage !! h <> None
  | Raise e =>
      exists h,
        h ∈ hs /\ wm !! h = None
        /\ ((storage !! h = None /\ e = KeyError h)
            \/ exists o, storage !! h = Some o
                         /\ (forall a, o <> PArray a)
                         /\ e = TypeError "cannot create weak reference")
  end.
End Collector.

(** ** shell.py *)

Module Shell.

Abbreviation tensor := (list Z).
Abbreviation params := (gmap string tensor).

(** [SyncNever] and [SyncEveryNSteps]. *)
Inductive sync_checker : Type :=
  | SyncNever
  | SyncEveryNSteps (sync_period : Z).

Definition should_sync (c : sync_checker) (step : Z) : result bool :=
  match c with
  | SyncNever => Ok false
  | SyncEveryNSteps sync_period =>
      rbind (py_mod step sync_period) (fun r => Ok (r =? 0))
  end.

(** The part of [Shell.__init__] that builds [self._sync_checker]. *)
Definition init_sync_checker (sync_period : option Z) : result sync_checker :=
  match sync_period with
  | Some p =>
      let checker := SyncEveryNSteps p in
      rbind (should_sync checker 0)
            (fun b => if b then Ok checker else Raise AssertionError)
  | None => Ok SyncNever
  end.

(** Modelled from the spec: the parameter server and [ParameterClient]
    ([liaison/distributed/parameter_server.py]) are missing from the
    sources.  The server holds the parameter set of the last publish, if
    any, and some metadata; a fetch answers with the named subset of the
    current set, or with [None] before the first publish, and never
    raises. *)
Record parameter_server : Type := ParameterServer {
  published : option params;
  ps_info : Z
}.

Definition publish (scope : string) (values : list (string * tensor))
    (ps : parameter_server) : parameter_server :=
  {| published :=
       Some (list_to_map
               (map (fun kv => (scope +:+ "/" +:+ fst kv, snd kv)) values));
     ps_info := ps_info ps + 1 |}.

Definition fetch_parameter_with_info (ps : parameter_server)
    (var_names : list string) : option params * Z :=
  match published ps with
  | None => (None, ps_info ps)
  | Some m =>
      (Some (filter (fun kv => bool_decide (fst kv ∈ var_names)) m),
       ps_info ps)
  end.

(** The shell: the agent's variables in creation order, and their current
    values in the session. *)
Record shell : Type := MkShell {
  agent_scope : string;
  variable_names : list string;
  session : gmap string tensor
}.

(** Keys of a dictionary filled by iterating over [names]. *)
Definition dict_keys_of (names : list string) : list string :=
  fold_left (fun acc n => if bool_decide (n ∈ acc) then acc else acc ++ [n])
            names [].

(** [self._var_names_to_assign_ops.keys()] *)
Definition assign_op_names (s : shell) : list string :=
  dict_keys_of (variable_names s).

(** [Shell._pull_vars] *)
Definition pull_vars (ps : parameter_server) (s : shell) : option params :=
  fst (fetch_parameter_with_info ps (variable_names s)).

(** Truth value of [var_vals]: [None] and the empty dictionary are false. *)
Definition truthy (var_vals : option params) : bool :=
  match var_vals with
  | None => false
  | Some m => negb (bool_decide (m = ∅))
  end.

(** The [for] loop of [_sync_variables]: the session after the assignments
    and the names assigned, in order. *)
Fixpoint run_assign_ops (names : list string) (var_vals : params)
    (sess : gmap string tensor) (done : list string)
  : result (gmap string tensor * list string) :=
  match names with
  | [] => Ok (sess, done)
  | var_name :: rest =>
      match var_vals !! var_name with
      | None => Raise (KeyError var_name)
      | Some value =>
          run_assign_ops rest var_vals (<[var_name := value]> sess)
                         (done ++ [var_name])
      end
  end.

(** [Shell._sync_variables]: the shell afterwards and the assignments run. *)
Definition sync_variables (ps : parameter_server) (s : shell)
  : result (shell * list string) :=
  match pull_vars ps s with
  | Some m =>
      if truthy (Some m) then
        if bool_decide
             (PyStr.sorted (map fst (map_to_list m))
                = PyStr.sorted (variable_names s)
              ∧ PyStr.sorted (variable_names s)
                = PyStr.sorted (assign_op_names s))
        then
          rbind (run_assign_ops (assign_op_names s) m (session s) [])
                (fun '(sess, done) =>
                   Ok (MkShell (agent_scope s) (variable_names s) sess, done))
        else Raise AssertionError
      else Ok (s, [])
  | None => Ok (s, [])
  end.

(** *** restore_from_checkpoint *)

(** [k.split(':')[0]] *)
Definition strip_index (k : string) : string :=
  hd EmptyString (PyStr.split ":" k).

(** [f'{self._agent_scope}/{"/".join(v.split("/")[1:])}'] *)
Definition rescope (scope v : string) : string :=
  scope +:+ "/" +:+ PyStr.join "/" (tl (PyStr.split "/" v)).

(** Checkpoint variables the shell does not need. *)
Definition not_required (v : string) : bool :=
  let lv := PyStr.lower v in
  PyStr.contains "adam" lv || PyStr.contains "value_torso" lv
  || PyStr.contains "optimize" lv || PyStr.contains "global_step" lv.

(** [var_names.index(v2)] *)
Fixpoint index_of (x : string) (l : list string) : option nat :=
  match l with
  | [] => None
  | y :: l' => if String.eqb y x then Some O else S <$> index_of x l'
  end.

(** The locals of [restore_from_checkpoint]; [restore_map] sends a
    checkpoint name to the position of the variable in [self._variables]. *)
Record restore_state : Type := RestoreState {
  restore_map : gmap string nat;
  var_names_left : gset string;
  unrestored : list string
}.

(** The body of [for v, _ in l]. *)
Definition restore_step (scope : string) (var_names : list string)
    (v : string) (st : restore_state) : result restore_state :=
  let v2 := rescope scope v in
  match index_of v2 var_names with
  | Some i =>
      if bool_decide (v2 ∈ var_names_left st) then
        Ok (RestoreState (<[v := i]> (restore_map st))
                         (var_names_left st ∖ {[v2]})
                         (unrestored st))
      else Raise (KeyError v2)
  | None =>
      if not_required v then Ok st
      else Ok (RestoreState (restore_map st) (var_names_left st)
                            (unrestored st ++ [v]))
  end.

Fixpoint restore_loop (scope : string) (var_names : list string)
    (l : list string) (st : restore_state) : result restore_state :=
  match l with
  | [] => Ok st
  | v :: rest =>
      rbind (restore_step scope var_names v st)
            (restore_loop scope var_names rest)
  end.

(** [Shell.restore_from_checkpoint]: [l] is the list of the checkpoint's
    variables with their shapes, as [tf.train.list_variables] gives it; the
    result is the [var_list] handed to [tf.train.Saver], whose [restore] is
    the last step. *)
Definition restore_from_checkpoint (s : shell)
    (l : list (string * list nat)) : result (gmap string nat) :=
  let var_names := map strip_index (variable_names s) in
  let init := RestoreState ∅ (list_to_set var_names) [] in
  rbind (restore_loop (agent_scope s) var_names (map fst l) init)
    (fun st =>
       if negb (bool_decide (var_names_left st = ∅)) then
         Raise (Exception_ "Not all required variables restored")
       else if negb (bool_decide (unrestored st = [])) then
         Raise (Exception_ "Restoring only some variables found in the checkpoint")
       else Ok (restore_map st)).

(** *** step *)

(** [Shell.step], as far as synchronisation goes, for calls in which
    [self.sync()] and the agent's own step return: whether [self.sync()] is
    called at this step, and [self._step_number] afterwards. *)
Definition step_sync (c : sync_checker) (step_number : Z)
  : result (bool * Z) :=
  rbind (should_sync c step_number) (fun b => Ok (b, step_number + 1)).

(** [n] calls of [step] in a row: the step number reached and the step
    numbers at which [self.sync()] was called, in order. *)
Fixpoint steps (n : nat) (c : sync_checker) (step_number : Z)
    (synced : list Z) : result (Z * list Z) :=
  match n with
  | O => Ok (step_number, synced)
  | S n' =>
      rbind (step_sync c step_number) (fun '(b, next) =>
        steps n' c next (if b then synced ++ [step_number] else synced))
  end.

End Shell.

(** ** actor_full_episode.py *)

Module Actor.

(** What one turn of the loop does, in order. *)
Inductive event : Type :=
  | ShellStep (i : Z)
  | EnvStep (i : Z)
  | TrajAdd (i : Z)
  | SendExperiences (i : Z).

Inductive loop_outcome : Type :=
  | Returned (trace : list event)
  | Raised (e : exn) (trace : list event)
  | Running (i : Z) (trace : list event).

(** [Actor.run_loop] from the top of [while True], cut after [fuel] turns. *)
Fixpoint run_loop_from (fuel : nat) (traj_length : Z) (n_unrolls : option Z)
    (i : Z) (trace : list event) : loop_outcome :=
  match fuel with
  | O => Running i trace
  | S fuel' =>
      let stop :=
        match n_unrolls with
        | Some n => i =? n
        | None => false
        end in
      if stop then Returned trace
      else
        let trace1 := trace ++ [ShellStep i; EnvStep i; TrajAdd i] in
        if 0 <? i then
          match py_mod i traj_length with
          | Raise e => Raised e trace1
          | Ok r =>
              if r =? 0 then
                run_loop_from fuel' traj_length n_unrolls (i + 1)
                              (trace1 ++ [SendExperiences i])
              else run_loop_from fuel' traj_length n_unrolls (i + 1) trace1
          end
        else run_loop_from fuel' traj_length n_unrolls (i + 1) trace1
  end.

Definition run_loop (fuel : nat) (traj_length : Z) (n_unrolls : option Z)
  : loop_outcome :=
  run_loop_from fuel traj_length n_unrolls 0 [].

Definition trace_of (o : loop_outcome) : list event :=
  match o with
  | Returned t | Raised _ t | Running _ t => t
  end.

(** The steps at which experience was sent. *)
Definition sent (t : list event) : list Z :=
  omap (fun e => match e with SendExperiences i => Some i | _ => None end) t.

(** The steps whose body ran. *)
Definition executed (t : list event) : list Z :=
  omap (fun e => match e with TrajAdd i => Some i | _ => None end) t.

(** [i > 0 and i % self._traj_length == 0], for a trajectory length other
    than zero. *)
Definition send_due (traj_length i : Z) : bool :=
  (0 <? i) && (i mod traj_length =? 0).

(** The events of turn [i] when the modulo does not raise. *)
Definition turn (traj_length i : Z) : list event :=
  [ShellStep i; EnvStep i; TrajAdd i]
  ++ (if send_due traj_length i then [SendExperiences i] else []).

End Actor.

(** ** The replay buffer of replay_test.py *)

Module Replay.

(** Modelled from the spec: the replay buffer ([liaison/replay],
    [UniformReplay]) is missing from the sources, only its test is there.
    A replay entry is a stored experience tagged with its insertion index
    and its sample count; the buffer is a FIFO ring of [memory_size]
    entries, oldest first. *)
Record entry : Type := Entry {
  payload : pyval;
  insertion_index : nat;
  sample_count : nat
}.

Record replay : Type := MkReplay {
  memory_size : nat;
  memory : list entry;
  total_inserted : nat
}.

Definition empty (memory_size : nat) : replay := MkReplay memory_size [] 0.

(** Modelled from the spec: [insert(experience)] appends; if at capacity,
    it evicts the oldest entry first; it returns nothing. *)
Definition insert (exp : pyval) (r : replay) : replay :=
  let e := Entry exp (total_inserted r) 0 in
  let kept :=
    if (memory_size r <=? length (memory r))%nat then tl (memory r)
    else memory r in
  MkReplay (memory_size r) (kept ++ [e]) (S (total_inserted r)).

(** [len(replay)] *)
Definition len (r : replay) : nat := length (memory r).

Definition insert_all (exps : list pyval) (r : replay) : replay :=
  fold_left (fun acc e => insert e acc) exps r.

(** The test's loop: [batches] rounds of [batch_size] sends of [data]. *)
Definition send_batches (batches batch_size : nat) (data : pyval)
    (r : replay) : replay :=
  insert_all (concat (replicate batches (replicate batch_size data))) r.

End Replay.

(** ** launcher.py *)

Module Launcher.

(** A decimal digit. *)
Definition is_digit (c : ascii) : bool :=
  let n := nat_of_ascii c in ((48 <=? n) && (n <=? 57))%nat.

(** [str(z)], ['{}'.format(z)] and ['%d' % z] for an integer. *)
Definition py_str_int (z : Z) : string := NilZero.string_of_int (Z.to_int z).

(** Characters that are neither blank, nor an underscore, nor outside
    ASCII. *)
Definition is_graphic (c : ascii) : bool :=
  let n := nat_of_ascii c in
  ((33 <=? n) && (n <=? 126) && negb (n =? 95))%nat.

(** [int(s)] in base ten.  A sign and digits are read; a string of graphic
    characters of any other shape raises [ValueError]; the blanks,
    underscores and non-ASCII digits that [int] also copes with are left
    out of the model. *)
Inductive parsed : Type :=
  | Parsed (z : Z)
  | NotANumber
  | Beyond.

Definition py_int (s : string) : parsed :=
  let body :=
    match s with
    | String "+" r => r
    | String "-" r => r
    | _ => s
    end in
  let negative :=
    match s with
    | String "-" _ => true
    | _ => false
    end in
  match NilZero.uint_of_string body with
  | Some d => Parsed (if negative then - Z.of_uint d else Z.of_uint d)
  | None =>
      if forallb is_graphic (list_ascii_of_string s) then NotANumber
      else Beyond
  end.

(** The method that [launch] ends up calling. *)
Inductive call : Type :=
  | RunActor (actor_id : option Z)
  | RunLearner
  | RunPs
  | RunReplay
  | RunReplayLoadbalancer
  | RunReplayWorker (replay_id : option Z)
  | RunTensorboard
  | RunSystemboard
  | RunTensorplex
  | RunLoggerplex
  | RunIrs.

Inductive launched : Type :=
  | Runs (c : call)
  | RaisesValueError (msg : string)
  | OutsideModel.

(** The chain of comparisons of [launch]. *)
Definition dispatch (component_name : string) (component_id : option Z)
  : launched :=
  if String.eqb component_name "actor" then Runs (RunActor component_id)
  else if String.eqb component_name "learner" then Runs RunLearner
  else if String.eqb component_name "ps" then Runs RunPs
  else if String.eqb component_name "replay" then Runs RunReplay
  else if String.eqb component_name "replay_loadbalancer"
       then Runs RunReplayLoadbalancer
  else if String.eqb component_name "replay_worker"
       then Runs (RunReplayWorker component_id)
  else if String.eqb component_name "tensorboard" then Runs RunTensorboard
  else if String.eqb component_name "systemboard" then Runs RunSystemboard
  else if String.eqb component_name "tensorplex" then Runs RunTensorplex
  else if String.eqb component_name "loggerplex" then Runs RunLoggerplex
  else if String.eqb component_name "irs" then Runs RunIrs
  else RaisesValueError "Unexpected component".

(** [Launcher.launch] *)
Definition launch (component_name_in : string) : launched :=
  if PyStr.contains "-" component_name_in then
    match PyStr.split "-" component_name_in with
    | [component_name; component_id] =>
        match py_int component_id with
        | Parsed id => dispatch component_name (Some id)
        | NotANumber => RaisesValueError "invalid literal for int()"
        | Beyond => OutsideModel
        end
    | _ => RaisesValueError "too many values to unpack"
    end
  else dispatch component_name_in None.

(** The first lines of [Launcher.main]: [parser_args] and [config_args]. *)
Definition main_args (sys_argv : list string) : list string * list string :=
  let argv := drop 1 sys_argv in
  match Shell.index_of "--" argv with
  | Some index => (take index argv, drop (S index) argv)
  | None => (argv, [])
  end.

(** [Launcher.run_component]: the arguments given to [subprocess.Popen]. *)
Definition run_component (sys_executable sys_argv0 : string)
    (config_args : list string) (component_name : string) : list string :=
  [sys_executable; "-u"; sys_argv0; component_name; "--"] ++ config_args.

(** [sys.argv] in the process started with these arguments: the
    interpreter and its option [-u] are not part of it. *)
Definition child_sys_argv (popen_args : list string) : list string :=
  drop 2 popen_args.

(** [Launcher.run_replay]: the processes it starts, in order. *)
Definition run_replay (sys_executable sys_argv0 : string)
    (config_args : list string) (n_shards : Z) : list (list string) :=
  run_component sys_executable sys_argv0 config_args "replay_loadbalancer"
  :: map (fun replay_id =>
            run_component sys_executable sys_argv0 config_args
                          ("replay_worker-" +:+ py_str_int replay_id))
         (seqZ 0 n_shards).

End Launcher.

(** ** loggers/tensorplex.py *)

Module Tensorplex.

(** [s.count(c)] for a one-character [c]. *)
Fixpoint count (c : ascii) (s : string) : Z :=
  match s with
  | EmptyString => 0
  | String d s' => (if Ascii.eqb d c then 1 else 0) + count c s'
  end.

(** [s.replace(old, new, n)] for one-character [old] and [new]: the first
    [n] occurrences are replaced, all of them when [n] is negative. *)
Fixpoint replace (old new : ascii) (n : Z) (s : string) : string :=
  match s with
  | EmptyString => EmptyString
  | String c s' =>
      if n =? 0 then s
      else if Ascii.eqb c old then String new (replace old new (n - 1) s')
      else String c (replace old new n s')
  end.

(** The key under which [Logger.write] sends the value of [k]. *)
Definition scalar_key (k : string) : string :=
  "." +:+ replace "/" "." (count "/" k - 1) k.

(** The dict comprehension of [Logger.write]: an item whose new key is
    already there overwrites its value. *)
Definition scalars (dict_values : PyDict.t) : PyDict.t :=
  fold_left (fun acc kv => PyDict.set (scalar_key kv.1) kv.2 acc)
            dict_values [].

End Tensorplex.

(** ** tmux/create_programs.py *)

Module CreatePrograms.

(** [get_fuzzy_match]: [config] in the order of its items. *)
Fixpoint get_fuzzy_match {V : Type} (config : list (string * V))
    (name : string) : result V :=
  match config with
  | [] => Raise (Exception_ ("No fuzzy match found for key " +:+ name))
  | (k, v) :: config' =>
      if String.prefix k name then Ok v else get_fuzzy_match config' name
  end.

(** What [setup_network] asks of the processes, a process being known by
    its name. *)
Inductive net_call : Type :=
  | Connects (proc service : string)
  | Binds (proc service : string).

Inductive wired : Type :=
  | Wired (calls : list net_call)
  | RaisesIndexError (calls : list net_call)
  | RaisesAttributeError (calls : list net_call).

(** [setup_network]; [loggerplex] is not used by it, and a process that is
    not [None] is taken to be truthy. *)
Definition setup_network (actors : list string)
    (ps replay learner tensorplex : string)
    (tensorboard systemboard irs : option string) : wired :=
  let c1 :=
    concat (map (fun proc => [Connects proc "ps-frontend";
                              Connects proc "collector-frontend"])
                actors) in
  match actors with
  | [] => RaisesIndexError c1
  | actor0 :: _ =>
      let c2 :=
        c1 ++ [Binds actor0 "spec";
               Binds ps "ps-frontend";
               Binds ps "ps-backend";
               Connects ps "parameter-publish";
               Binds replay "collector-frontend";
               Binds replay "sampler-frontend";
               Binds replay "collector-backend";
               Binds replay "sampler-backend";
               Connects learner "spec";
               Connects learner "sampler-frontend";
               Binds learner "parameter-publish";
               Binds learner "prefetch-queue";
               Binds tensorplex "tensorplex";
               Binds tensorplex "tensorplex-system"] in
      match irs with
      | None => RaisesAttributeError c2
      | Some irs =>
          Wired
            (c2 ++ [Binds irs "irs-frontend"; Binds irs "irs-backend"]
                ++ concat (map (fun proc => [Connects proc "tensorplex";
                                             Connects proc "tensorplex-system";
                                             Connects proc "irs-frontend"])
                               (actors ++ [ps; replay; learner]))
                ++ match tensorboard with
                   | Some proc => [Binds proc "tensorboard"]
                   | None => []
                   end
                ++ match systemboard with
                   | Some proc => [Binds proc "systemboard"]
                   | None => []
                   end)
      end
  end.

(** The processes that bind [service] in a list of calls. *)
Definition binders (service : string) (calls : list net_call) : list string :=
  omap (fun c => match c with
                 | Binds proc s =>
                     if String.eqb s service then Some proc else None
                 | Connects _ _ => None
                 end) calls.

End CreatePrograms.

(** ** env/xor_env.py *)

Module XorEnv.

(** The time steps the environment returns: [restart(observation)] and
    [termination(reward, observation)]; the observation is the pair of
    features and the reward, a [float32] 1.0 or 0.0, is written as an
    integer. *)
Inductive time_step : Type :=
  | restart (features : bool * bool)
  | termination (reward : Z) (features : bool * bool).

Record env : Type := {
  _features : option (bool * bool);
  _reset_next_step : bool;
  drawn : nat
}.

Section Env.

(** The successive results of [np.random.randint(0, 2, size=(2, ))]. *)
Variable randint : nat -> bool * bool.

(** [Env.__init__] *)
Definition init : env :=
  {| _features := None; _reset_next_step := true; drawn := O |}.

(** [Env.reset] *)
Definition reset (self : env) : time_step * env :=
  (restart (randint (drawn self)),
   {| _features := Some (randint (drawn self));
      _reset_next_step := false;
      drawn := S (drawn self) |}).

(** [Env.step], [action] being [int(action)]. *)
Definition step (self : env) (action : Z) : result (time_step * env) :=
  if _reset_next_step self then Ok (reset self)
  else
    match _features self with
    | None => Raise (TypeError "'NoneType' object is not subscriptable")
    | Some (f0, f1) =>
        let ans := xorb f0 f1 in
        let rew := if Z.b2z ans =? action then 1 else 0 in
        Ok (termination rew (f0, f1),
            {| _features := Some (f0, f1);
               _reset_next_step := true;
               drawn := drawn self |})
    end.

(** [step] called with each action in turn. *)
Fixpoint steps (self : env) (actions : list Z)
  : result (list time_step * env) :=
  match actions with
  | [] => Ok ([], self)
  | action :: actions' =>
      match step self action with
      | Raise e => Raise e
      | Ok (ts, self') =>
          match steps self' actions' with
          | Raise e => Raise e
          | Ok (tss, self'') => Ok (ts :: tss, self'')
          end
      end
  end.

(** What the call number [k] of [step], counted from 0 on a new
    environment, is to return on [action], *)
Definition answer (k : nat) (action : Z) : time_step :=
  let f := randint (Nat.div2 k) in
  if Nat.even k then restart f
  else termination (if Z.b2z (xorb f.1 f.2) =? action then 1 else 0) f.

(** and the state of the environment before that call. *)
Definition before (k : nat) (self : env) : Prop :=
  if Nat.even k
  then _reset_next_step self = true /\ drawn self = Nat.div2 k
  else _reset_next_step self = false
       /\ _features self = Some (randint (Nat.div2 k))
       /\ drawn self = S (Nat.div2 k).

End Env.

End XorEnv.

(** * Properties *)

(** ** Strings *)

Module PyStrFacts.
Import PyStr.

Lemma length_substring_0 (n : nat) (s : string) :
  String.length (substring 0 n s) = Nat.min n (String.length s).
Proof.
  revert n; induction s as [|c s IH]; intros [|n]; simpl; auto.
Qed.

Lemma substring_0_all (s : string) : substring 0 (String.length s) s = s.
Proof. induction s as [|c s IH]; simpl; [done | by rewrite IH]. Qed.

Lemma substring_split (k : nat) (s : string) :
  (k <= String.length s)%nat ->
  s = substring 0 k s +:+ substring k (String.length s - k) s.
Proof.
  revert k; induction s as [|c s IH]; intros [|k] Hk; simpl in *.
  - done.
  - lia.
  - by rewrite substring_0_all.
  - transitivity
      (String c (substring 0 k s +:+ substring k (String.length s - k) s));
      [f_equal; apply IH; lia | reflexivity].
Qed.

Lemma endswith_length (s suffix : string) :
  endswith s suffix = true ->
  (String.length suffix <= String.length s)%nat.
Proof.
  unfold endswith. intros H. apply andb_true_iff in H as [H _].
  by apply Nat.leb_le.
Qed.

(** A string that ends with [suffix] is what is left of it, then
    [suffix]. *)
Lemma endswith_app (s suffix : string) :
  endswith s suffix = true ->
  s = drop_last (String.length suffix) s +:+ suffix.
Proof.
  intros H. pose proof (endswith_length _ _ H) as Hlen.
  unfold endswith in H. apply andb_true_iff in H as [_ H].
  apply String.eqb_eq in H. unfold drop_last.
  remember (String.length suffix) as m eqn:Hm. rewrite <- H.
  pose proof (substring_split (String.length s - m) s ltac:(lia)) as E.
  replace (String.length s - (String.length s - m))%nat with m in E by lia.
  exact E.
Qed.

Lemma length_drop_last (m : nat) (s : string) :
  String.length (drop_last m s) = (String.length s - m)%nat.
Proof. unfold drop_last. rewrite length_substring_0. lia. Qed.

Lemma drop_last_neq (s suffix : string) :
  (0 < String.length suffix)%nat ->
  endswith s suffix = true ->
  drop_last (String.length suffix) s <> s.
Proof.
  intros Hpos H Heq. apply endswith_length in H.
  apply (f_equal String.length) in Heq.
  rewrite length_drop_last in Heq. lia.
Qed.

Lemma length_app (s1 s2 : string) :
  String.length (s1 +:+ s2) = (String.length s1 + String.length s2)%nat.
Proof.
  induction s1 as [|c s1 IH]; [done|].
  change (S (String.length (s1 +:+ s2))
          = S (String.length s1 + String.length s2)).
  by rewrite IH.
Qed.

Lemma app_inv_tail (s1 s2 suffix : string) :
  s1 +:+ suffix = s2 +:+ suffix -> s1 = s2.
Proof.
  revert s2; induction s1 as [|c s1 IH]; intros [|d s2] H; auto.
  - apply (f_equal String.length) in H.
    rewrite !length_app in H. simpl in H. lia.
  - apply (f_equal String.length) in H.
    rewrite !length_app in H. simpl in H. lia.
  - change (String c (s1 +:+ suffix) = String d (s2 +:+ suffix)) in H.
    injection H as -> H. f_equal. by apply IH.
Qed.

(** Two keys with the same suffix and the same stem are equal. *)
Lemma drop_last_inj (s1 s2 suffix : string) :
  endswith s1 suffix = true -> endswith s2 suffix = true ->
  drop_last (String.length suffix) s1 = drop_last (String.length suffix) s2 ->
  s1 = s2.
Proof.
  intros H1 H2 Heq.
  rewrite (endswith_app _ _ H1), (endswith_app _ _ H2). by rewrite Heq.
Qed.

End PyStrFacts.

(** ** Dictionaries *)

Module PyDictFacts.
Import PyDict.






Lemma get_Some_In key v d : get key d = Some v -> In (key, v) d.
Proof.
  induction d as [|[k w] d IH]; simpl; [done|].
  destruct (String.eqb k key) eqn:E.
  - apply String.eqb_eq in E as ->. intros [= ->]. by left.
  - intros H. right. by apply IH.
Qed.

Lemma get_None_keys key d : get key d = None <-> ~ In key (keys d).
Proof.
  induction d as [|[k w] d IH]; simpl; [tauto|].
  destruct (String.eqb k key) eqn:E.
  - apply String.eqb_eq in E as ->. split; [done|]. intros H. tauto.
  - apply String.eqb_neq in E. rewrite IH. tauto.
Qed.

Lemma Forall_set (P : pyval -> Prop) key v d :
  P v -> Forall (fun kv => P (snd kv)) d ->
  Forall (fun kv => P (snd kv)) (set key v d).
Proof.
  intros Hv. induction 1 as [|[k w] d Hw Hd IH]; simpl.
  - by repeat constructor.
  - destruct (String.eqb k key); constructor; auto.
Qed.

Lemma Forall_remove (P : pyval -> Prop) key d :
  Forall (fun kv => P (snd kv)) d ->
  Forall (fun kv => P (snd kv)) (remove key d).
Proof.
  induction 1 as [|[k w] d Hw Hd IH]; simpl; [constructor|].
  destruct (String.eqb k key); auto.
Qed.

Lemma Forall_get (P : pyval -> Prop) key v d :
  Forall (fun kv => P (snd kv)) d -> get key d = Some v -> P v.
Proof.
  intros HF Hget. apply get_Some_In, list_elem_of_In in Hget.
  rewrite Forall_forall in HF. apply (HF _ Hget).
Qed.

End PyDictFacts.

(** ** The collector: fuel *)

Module CollectorFuel.
Import Collector PyDictFacts.

Lemma max_list_le_Forall (D : nat) (ns : list nat) :
  (max_list ns <= D)%nat <-> Forall (fun n => (n <= D)%nat) ns.
Proof.
  induction ns as [|n ns IH]; simpl.
  - split; [constructor | lia].
  - rewrite Forall_cons, <- IH. lia.
Qed.

Lemma depth_items_Forall (D : nat) (items : list pyval) :
  (max_list (map depth items) <= D)%nat
  <-> Forall (fun e => (depth e <= D)%nat) items.
Proof. by rewrite max_list_le_Forall, Forall_fmap. Qed.

Lemma depth_dict_Forall (D : nat) (items : PyDict.t) :
  (max_list (map (fun kv => depth (snd kv)) items) <= D)%nat
  <-> Forall (fun kv => (depth (snd kv) <= D)%nat) items.
Proof. by rewrite max_list_le_Forall, Forall_fmap. Qed.

(** The loops return, and keep values within depth [D], whenever the
    recursive call does. *)
Section Total.
Variable rec : pyval -> weakmap -> option (result (pyval * weakmap)).
Variable D : nat.
Hypothesis rec_total : forall e wm,
  (depth e <= D)%nat ->
  exists r, rec e wm = Some r
            /\ forall v' wm', r = Ok (v', wm') -> (depth v' <= D)%nat.

Lemma retrieve_list_total items wm :
  Forall (fun e => (depth e <= D)%nat) items ->
  exists r, retrieve_list rec items wm = Some r
            /\ forall l' wm', r = Ok (l', wm') ->
                 Forall (fun e => (depth e <= D)%nat) l'.
Proof.
  intros HF. revert wm.
  induction HF as [|e rest He Hrest IH]; intros wm; simpl.
  - eexists; split; [reflexivity|]. intros ? ? [= <- <-]. constructor.
  - destruct (rec_total e wm He) as (r & -> & Hr).
    destruct r as [[e' wm1]|err]; simpl;
      [|eexists; split; [reflexivity|]; intros ? ? [=]].
    destruct (IH wm1) as (r' & -> & Hr').
    destruct r' as [[rest' wm2]|err]; simpl.
    + eexists; split; [reflexivity|]. intros ? ? [= <- <-].
      constructor; eauto.
    + eexists; split; [reflexivity|]. intros ? ? [=].
Qed.

Lemma retrieve_key_total key exp wm :
  Forall (fun kv => (depth (snd kv) <= D)%nat) exp ->
  exists r, retrieve_key rec key (exp, wm) = Some r
            /\ forall exp' wm', r = Ok (exp', wm') ->
                 Forall (fun kv => (depth (snd kv) <= D)%nat) exp'.
Proof.
  intros HF. unfold retrieve_key.
  destruct (PyStr.endswith key hash_suffix);
    (destruct (PyDict.get key exp) as [v|] eqn:Hget;
       [|eexists; split; [reflexivity|]; intros ? ? [=]]);
    pose proof (Forall_get (fun v => (depth v <= D)%nat) _ _ _ HF Hget)
      as Hv;
    destruct (rec_total v wm Hv) as (r & -> & Hr);
    (destruct r as [[v' wm']|err]; simpl;
       [|eexists; split; [reflexivity|]; intros ? ? [=]]).
  - unfold PyDict.del.
    destruct (PyDict.get key (PyDict.set _ v' exp));
      (eexists; split; [reflexivity|]); [|intros ? ? [=]].
    intros ? ? [= <- <-].
    apply (Forall_remove (fun v => (depth v <= D)%nat)),
          (Forall_set (fun v => (depth v <= D)%nat)); eauto.
  - eexists; split; [reflexivity|]. intros ? ? [= <- <-].
    apply (Forall_set (fun v => (depth v <= D)%nat)); eauto.
Qed.

Lemma retrieve_keys_total ks exp wm :
  Forall (fun kv => (depth (snd kv) <= D)%nat) exp ->
  exists r, retrieve_keys rec ks (exp, wm) = Some r
            /\ forall exp' wm', r = Ok (exp', wm') ->
                 Forall (fun kv => (depth (snd kv) <= D)%nat) exp'.
Proof.
  revert exp wm.
  induction ks as [|key ks IH]; intros exp wm HF; cbn [retrieve_keys].
  - eexists; split; [reflexivity|]. by intros ? ? [= <- <-].
  - destruct (retrieve_key_total key exp wm HF) as (r & -> & Hr).
    destruct r as [[exp1 wm1]|err]; cbn [fbind].
    + apply IH. eauto.
    + eexists; split; [reflexivity|]. intros ? ? [=].
Qed.
End Total.

(** With fuel above the depth of the record, [_retrieve_storage] returns or
    raises, and never deepens the record. *)
Lemma retrieve_storage_total fuel exp storage wm :
  (depth exp < fuel)%nat ->
  exists r, retrieve_storage fuel exp storage wm = Some r
            /\ forall v' wm', r = Ok (v', wm') ->
                 (depth v' <= depth exp)%nat.
Proof.
  revert exp wm. induction fuel as [|fuel IH]; intros exp wm Hd; [lia|].
  assert (Hrec : forall D, (D < fuel)%nat -> forall e m,
    (depth e <= D)%nat ->
    exists r, retrieve_storage fuel e storage m = Some r
              /\ forall v' wm', r = Ok (v', wm') -> (depth v' <= D)%nat).
  { intros D HD e m He. destruct (IH e m ltac:(lia)) as (r & Hr & Hb).
    exists r; split; [done|]. intros v' wm' ->.
    specialize (Hb v' wm' eq_refl). lia. }
  destruct exp as [| z | h | a | items | items]; simpl in *;
    try (eexists; split; [reflexivity|]; intros ? ? [= <- <-]; simpl; lia).
  - eexists; split; [reflexivity|]. unfold retrieve_hash.
    destruct (wm !! h); [intros ? ? [= <- <-]; simpl; lia|].
    destruct (storage !! h) as [o|]; [|intros ? ? [=]].
    destruct o; simpl; intros ? ? [= <- <-]; simpl; lia.
  - set (D := max_list (map depth items)) in *.
    destruct (retrieve_list_total _ D (Hrec D ltac:(lia)) items wm)
      as (r & -> & Hr); [by apply depth_items_Forall|].
    destruct r as [[l' wm']|err]; simpl;
      (eexists; split; [reflexivity|]); intros ? ? [= <- <-]; simpl.
    specialize (Hr _ _ eq_refl). apply depth_items_Forall in Hr. lia.
  - set (D := max_list (map (fun kv => depth (snd kv)) items)) in *.
    destruct (retrieve_keys_total _ D (Hrec D ltac:(lia))
                (PyDict.keys items) items wm)
      as (r & -> & Hr); [by apply depth_dict_Forall|].
    destruct r as [[l' wm']|err]; simpl;
      (eexists; split; [reflexivity|]); intros ? ? [= <- <-]; simpl.
    specialize (Hr _ _ eq_refl). apply depth_dict_Forall in Hr. lia.
Qed.

(** More fuel does not change a result. *)
Section Mono.
Variables rec1 rec2 : pyval -> weakmap -> option (result (pyval * weakmap)).
Hypothesis rec_le : forall e wm r, rec1 e wm = Some r -> rec2 e wm = Some r.

Lemma retrieve_list_mono items wm r :
  retrieve_list rec1 items wm = Some r ->
  retrieve_list rec2 items wm = Some r.
Proof.
  revert wm r. induction items as [|e rest IH]; intros wm r; simpl; [done|].
  destruct (rec1 e wm) as [[[e' wm1]|err]|] eqn:E; simpl; [| |done].
  - rewrite (rec_le _ _ _ E); simpl.
    destruct (retrieve_list rec1 rest wm1) as [r1|] eqn:E1; [|done].
    by rewrite (IH _ _ E1).
  - by rewrite (rec_le _ _ _ E).
Qed.

Lemma retrieve_key_mono key st r :
  retrieve_key rec1 key st = Some r -> retrieve_key rec2 key st = Some r.
Proof.
  destruct st as [exp wm]. unfold retrieve_key.
  destruct (PyStr.endswith key hash_suffix);
    (destruct (PyDict.get key exp) as [v|]; [|done]);
    (destruct (rec1 v wm) as [[[v' wm1]|err]|] eqn:E; simpl; [| |done]);
    by rewrite (rec_le _ _ _ E).
Qed.

Lemma retrieve_keys_mono ks st r :
  retrieve_keys rec1 ks st = Some r -> retrieve_keys rec2 ks st = Some r.
Proof.
  revert st r.
  induction ks as [|key ks IH]; intros st r; cbn [retrieve_keys]; [done|].
  destruct (retrieve_key rec1 key st) as [r1|] eqn:E; [|done].
  rewrite (retrieve_key_mono _ _ _ E).
  destruct r1 as [st1|err]; cbn [fbind]; [apply IH | done].
Qed.
End Mono.

Lemma retrieve_storage_mono fuel fuel' exp storage wm r :
  (fuel <= fuel')%nat ->
  retrieve_storage fuel exp storage wm = Some r ->
  retrieve_storage fuel' exp storage wm = Some r.
Proof.
  revert fuel' exp wm r.
  induction fuel as [|fuel IH]; intros fuel' exp wm r Hle; [done|].
  destruct fuel' as [|fuel']; [lia|].
  assert (Hrec : forall e m r0,
    retrieve_storage fuel e storage m = Some r0 ->
    retrieve_storage fuel' e storage m = Some r0).
  { intros e m r0. apply IH. lia. }
  destruct exp as [| z | h | a | items | items]; simpl; try done.
  - destruct (retrieve_list _ items wm) as [r1|] eqn:E; [|done].
    by rewrite (retrieve_list_mono _ _ Hrec _ _ _ E).
  - destruct (retrieve_keys _ _ (items, wm)) as [r1|] eqn:E; [|done].
    by rewrite (retrieve_keys_mono _ _ Hrec _ _ _ E).
Qed.

(** [resolve] is [_retrieve_storage] under any sufficient fuel, and it
    never fails for lack of fuel. *)
Lemma retrieve_storage_resolve fuel exp storage wm :
  (depth exp < fuel)%nat ->
  retrieve_storage fuel exp storage wm = Some (resolve exp storage wm).
Proof.
  intros Hd. unfold resolve.
  destruct (retrieve_storage_total (S (depth exp)) exp storage wm
              ltac:(lia)) as (r & Hr & _).
  rewrite Hr. eapply retrieve_storage_mono; [|exact Hr]. lia.
Qed.

Lemma resolve_no_recursion_error exp storage wm :
  retrieve_storage (S (depth exp)) exp storage wm
  = Some (resolve exp storage wm).
Proof. apply retrieve_storage_resolve. lia. Qed.

End CollectorFuel.

(** ** The collector: resolution of hash references *)

Module CollectorFacts.
Import Collector PyDictFacts PyStrFacts CollectorFuel.

Lemma hash_suffix_length : String.length hash_suffix = 5%nat.
Proof. reflexivity. Qed.

Lemma new_key_neq key :
  PyStr.endswith key hash_suffix = true ->
  PyStr.drop_last (String.length hash_suffix) key <> key.
Proof. apply drop_last_neq. rewrite hash_suffix_length. lia. Qed.

(** The [str] branch does not depend on the fuel left. *)
Lemma retrieve_storage_str fuel exphash storage wm :
  retrieve_storage (S fuel) (PStr exphash) storage wm
  = Some (retrieve_hash exphash storage wm).
Proof. reflexivity. Qed.

(** The [list] and [dict] branches, one call deep. *)
Lemma retrieve_storage_list fuel items storage wm :
  retrieve_storage (S fuel) (PList items) storage wm
  = (let* (items', wm') :=
       retrieve_list (fun e m => retrieve_storage fuel e storage m) items wm
     in fret (PList items', wm')).
Proof. reflexivity. Qed.

Lemma retrieve_storage_dict fuel items storage wm :
  retrieve_storage (S fuel) (PDict items) storage wm
  = (let* (items', wm') :=
       retrieve_keys (fun e m => retrieve_storage fuel e storage m)
                     (PyDict.keys items) (items, wm)
     in fret (PDict items', wm')).
Proof. reflexivity. Qed.

Lemma resolve_str exphash storage wm :
  resolve (PStr exphash) storage wm = retrieve_hash exphash storage wm.
Proof. reflexivity. Qed.

(** Values that are neither containers nor strings come back as they are. *)
Lemma retrieve_storage_terminal fuel v storage wm :
  match v with PNone | PInt _ | PArray _ => True | _ => False end ->
  retrieve_storage (S fuel) v storage wm = fret (v, wm).
Proof. by destruct v. Qed.

(** A key without the suffix keeps its place and takes the resolved value. *)
Lemma retrieve_key_plain rec key exp wm v v' wm' :
  PyStr.endswith key hash_suffix = false ->
  PyDict.get key exp = Some v ->
  rec v wm = Some (Ok (v', wm')) ->
  retrieve_key rec key (exp, wm) = fret (PyDict.set key v' exp, wm').
Proof.
  intros Hend Hget Hrec. unfold retrieve_key. by rewrite Hend, Hget, Hrec.
Qed.

(** A hash that resolves is cached under its key afterwards. *)
Lemma retrieve_hash_cached exphash storage wm o wm' :
  retrieve_hash exphash storage wm = Ok (o, wm') ->
  exists a, o = PArray a /\ wm' !! exphash = Some a.
Proof.
  unfold retrieve_hash.
  destruct (wm !! exphash) as [a|] eqn:E.
  - intros [= <- <-]. eauto.
  - destruct (storage !! exphash) as [o'|]; [|done].
    destruct o'; simpl; try done. intros [= <- <-].
    eexists; split; [reflexivity|]. apply lookup_insert_eq.
Qed.


Lemma retrieve_hash_missing exphash storage wm :
  wm !! exphash = None -> storage !! exphash = None ->
  retrieve_hash exphash storage wm = Raise (KeyError exphash).
Proof. intros H1 H2. unfold retrieve_hash. by rewrite H1, H2. Qed.


(** A turn of the key loop on an unresolvable hash. *)
Lemma retrieve_key_missing fuel key exp exphash storage wm :
  PyDict.get key exp = Some (PStr exphash) ->
  wm !! exphash = None -> storage !! exphash = None ->
  retrieve_key (fun e m => retrieve_storage (S fuel) e storage m)
               key (exp, wm)
  = fraise (KeyError exphash).
Proof.
  intros Hget Hwm Hst. unfold retrieve_key.
  rewrite Hget, retrieve_storage_str.
  rewrite (retrieve_hash_missing _ _ _ Hwm Hst).
  by destruct (PyStr.endswith key hash_suffix).
Qed.

Lemma get_singleton key v : PyDict.get key [(key, v)] = Some v.
Proof. simpl. by rewrite String.eqb_refl. Qed.

Lemma resolve_unit_missing key exphash storage wm :
  wm !! exphash = None -> storage !! exphash = None ->
  resolve (PDict [(key, PStr exphash)]) storage wm
  = Raise (KeyError exphash).
Proof.
  intros Hwm Hst. unfold resolve.
  change (depth (PDict [(key, PStr exphash)])) with 1%nat.
  rewrite retrieve_storage_dict.
  cbn [PyDict.keys map fst retrieve_keys].
  by rewrite (retrieve_key_missing 0 key _ exphash storage wm
                (get_singleton key _) Hwm Hst).
Qed.

(** The list loop of [_retrieve_storage] resolves the units one by one. *)
Lemma retrieve_list_resolve_each fuel units storage wm :
  Forall (fun e => (depth e < fuel)%nat) units ->
  retrieve_list (fun e m => retrieve_storage fuel e storage m) units wm
  = Some (resolve_each units storage wm).
Proof.
  intros HF. revert wm.
  induction HF as [|u rest Hu Hrest IH]; intros wm; simpl; [done|].
  rewrite (retrieve_storage_resolve _ _ _ _ Hu).
  destruct (resolve u storage wm) as [[u' wm1]|err]; simpl; [|done].
  rewrite IH.
  by destruct (resolve_each rest storage wm1) as [[rest' wm2]|err].
Qed.

Lemma resolve_list units storage wm :
  resolve (PList units) storage wm
  = rbind (resolve_each units storage wm)
          (fun '(units', wm') => Ok (PList units', wm')).
Proof.
  unfold resolve.
  change (depth (PList units)) with (S (max_list (map depth units))).
  rewrite retrieve_storage_list, retrieve_list_resolve_each.
  - by destruct (resolve_each units storage wm) as [[units' wm']|err].
  - apply Forall_forall. intros e He.
    assert (depth e <= max_list (map depth units))%nat; [|lia].
    apply max_list_elem_of_le, list_elem_of_fmap. eauto.
Qed.

Lemma resolve_each_length units storage wm units' wm' :
  resolve_each units storage wm = Ok (units', wm') ->
  length units' = length units.
Proof.
  revert wm units' wm'.
  induction units as [|u rest IH]; intros wm units' wm'; simpl.
  - by intros [= <- <-].
  - destruct (resolve u storage wm) as [[u' wm1]|err]; simpl; [|done].
    destruct (resolve_each rest storage wm1) as [[rest' wm2]|err] eqn:E;
      simpl; [|done].
    intros [= <- <-]. simpl. f_equal. eauto.
Qed.

End CollectorFacts.

(** ** The collector: a hash key in a whole record *)

Module CollectorRecord.
Import Collector PyDictFacts PyStrFacts CollectorFuel CollectorFacts.

Lemma grows_refl storage wm : grows storage wm wm.
Proof. intros h a. split; [done | by left]. Qed.

Lemma grows_trans storage wm1 wm2 wm3 :
  grows storage wm1 wm2 -> grows storage wm2 wm3 -> grows storage wm1 wm3.
Proof.
  intros H12 H23 h a. split.
  - intros H. by apply H23, H12.
  - intros H3. destruct (proj2 (H23 h a) H3) as [H2|[H2 Hst]].
    + by apply H12.
    + right. split; [|done].
      destruct (wm1 !! h) as [a1|] eqn:E; [|done].
      apply H12 in E. congruence.
Qed.

Lemma retrieve_hash_grows exphash storage wm o wm' :
  retrieve_hash exphash storage wm = Ok (o, wm') -> grows storage wm wm'.
Proof.
  unfold retrieve_hash. destruct (wm !! exphash) as [a0|] eqn:E.
  - intros [= <- <-]. apply grows_refl.
  - destruct (storage !! exphash) as [o'|] eqn:Est; [|done].
    destruct o' as [| | |a0| |]; try done. cbn. intros [= <- <-].
    intros h a. destruct (decide (exphash = h)) as [<-|Hne].
    + rewrite lookup_insert_eq. split; [congruence|].
      intros [= <-]. by right.
    + rewrite lookup_insert_ne by done. split; [done | by left].
Qed.

(** What a successful turn of the key loop did. *)
Lemma retrieve_key_inv rec key exp wm exp' wm' :
  retrieve_key rec key (exp, wm) = Some (Ok (exp', wm')) ->
  exists v v',
    PyDict.get key exp = Some v
    /\ rec v wm = Some (Ok (v', wm'))
    /\ exp' = if PyStr.endswith key hash_suffix
              then PyDict.remove key
                     (PyDict.set
                        (PyStr.drop_last (String.length hash_suffix) key)
                        v' exp)
              else PyDict.set key v' exp.
Proof.
  unfold retrieve_key.
  destruct (PyStr.endswith key hash_suffix);
    (destruct (PyDict.get key exp) as [v|] eqn:Hget; [|done]);
    (destruct (rec v wm) as [[[v' wm1]|e]|] eqn:Hrec; [|done|done]);
    cbn [fbind].
  - unfold PyDict.del. destruct (PyDict.get key (PyDict.set _ _ _)); [|done].
    intros [= <- <-]. by exists v, v'.
  - intros [= <- <-]. by exists v, v'.
Qed.

Lemma retrieve_keys_cons_inv rec key ks st st' :
  retrieve_keys rec (key :: ks) st = Some (Ok st') ->
  exists st1, retrieve_key rec key st = Some (Ok st1)
              /\ retrieve_keys rec ks st1 = Some (Ok st').
Proof.
  cbn [retrieve_keys].
  destruct (retrieve_key rec key st) as [[st1|e]|]; [|done|done].
  cbn [fbind]. eauto.
Qed.


(** A property kept by every turn is kept by the loop. *)
Lemma retrieve_keys_invariant rec (Inv : PyDict.t -> weakmap -> Prop) ks :
  (forall k exp wm exp' wm',
      k ∈ ks -> Inv exp wm ->
      retrieve_key rec k (exp, wm) = Some (Ok (exp', wm')) -> Inv exp' wm') ->
  forall exp wm exp' wm',
    Inv exp wm ->
    retrieve_keys rec ks (exp, wm) = Some (Ok (exp', wm')) -> Inv exp' wm'.
Proof.
  induction ks as [|k ks IH]; intros Hstep exp wm exp' wm' Hinv Hrun.
  - injection Hrun as <- <-. done.
  - apply retrieve_keys_cons_inv in Hrun as ([exp1 wm1] & Hk & Hrest).
    eapply IH; [|eapply Hstep; [by left | exact Hinv | exact Hk]|exact Hrest].
    intros k0 e0 m0 e1 m1 Hin. apply Hstep. by right.
Qed.

Section Grows.
Variable storage : chunk.
Variable rec : pyval -> weakmap -> option (result (pyval * weakmap)).
Hypothesis rec_grows : forall e wm v wm',
  rec e wm = Some (Ok (v, wm')) -> grows storage wm wm'.

Lemma retrieve_list_grows items wm items' wm' :
  retrieve_list rec items wm = Some (Ok (items', wm')) ->
  grows storage wm wm'.
Proof.
  revert wm items' wm'.
  induction items as [|e rest IH]; intros wm items' wm'; cbn [retrieve_list].
  - intros [= <- <-]. apply grows_refl.
  - destruct (rec e wm) as [[[e' wm1]|err]|] eqn:E; [|done|done].
    cbn [fbind].
    destruct (retrieve_list rec rest wm1) as [[[rest' wm2]|err]|] eqn:E1;
      [|done|done].
    cbn [fbind]. intros [= <- <-].
    eapply grows_trans; [by eapply rec_grows | by eapply IH].
Qed.

Lemma retrieve_key_grows key exp wm exp' wm' :
  retrieve_key rec key (exp, wm) = Some (Ok (exp', wm')) ->
  grows storage wm wm'.
Proof.
  intros (v & v' & _ & Hrec & _)%retrieve_key_inv. by eapply rec_grows.
Qed.

Lemma retrieve_keys_grows ks exp wm exp' wm' :
  retrieve_keys rec ks (exp, wm) = Some (Ok (exp', wm')) ->
  grows storage wm wm'.
Proof.
  intros Hrun.
  apply (retrieve_keys_invariant rec (fun _ m => grows storage wm m) ks)
    with (exp := exp) (wm := wm) (exp' := exp'); [|apply grows_refl|done].
  intros k e0 m0 e1 m1 _ Hg Hk.
  eapply grows_trans; [exact Hg | by eapply retrieve_key_grows].
Qed.
End Grows.

Lemma retrieve_storage_grows fuel exp storage wm v wm' :
  retrieve_storage fuel exp storage wm = Some (Ok (v, wm')) ->
  grows storage wm wm'.
Proof.
  revert exp wm v wm'. induction fuel as [|fuel IH]; intros exp wm v wm';
    [done|].
  destruct exp as [| z | h | a | items | items].
  - intros [= <- <-]. apply grows_refl.
  - intros [= <- <-]. apply grows_refl.
  - rewrite retrieve_storage_str. intros [= H]. by eapply retrieve_hash_grows.
  - intros [= <- <-]. apply grows_refl.
  - rewrite retrieve_storage_list.
    destruct (retrieve_list _ items wm) as [[[items' wm1]|err]|] eqn:E;
      [|done|done].
    cbn [fbind]. intros [= <- <-].
    eapply retrieve_list_grows; [|exact E]. intros e m v0 m'. apply IH.
  - rewrite retrieve_storage_dict.
    destruct (retrieve_keys _ _ (items, wm)) as [[[items' wm1]|err]|] eqn:E;
      [|done|done].
    cbn [fbind]. intros [= <- <-].
    eapply retrieve_keys_grows; [|exact E]. intros e m v0 m'. apply IH.
Qed.



End CollectorRecord.

Module CollectorClaims.
Import Collector PyDictFacts PyStrFacts CollectorFuel CollectorFacts.
Import CollectorRecord.

(** C2, as the claim states it, fails: after a message whose hash cannot
    be resolved, a well-formed message that the server would otherwise
    dispatch is never processed. *)
Lemma server_loop_survives_missing_hash_counterexample :
  let bad := Recv (PList [PDict [("obs_hash", PStr "abc123")]]) ∅ in
  let good := Recv (PList [PDict [("reward", PInt 1)]]) ∅ in
  run [good] = Waiting (Server ∅ [PDict [("reward", PInt 1)]])
  /\ run [bad; good] = Crashed (KeyError "abc123") []
  /\ ~ (exists s, run [bad; good] = Waiting s
                  /\ PDict [("reward", PInt 1)] ∈ handled s).
Proof.
  split; [reflexivity|]. split; [reflexivity|].
  intros (s & Hrun & _). discriminate Hrun.
Qed.

(** C3, at the failing input.  A plain string under a key that does not
    end in ['_hash'] is taken for a hash: with no such hash around the
    record is refused with [KeyError], and with one around the string is
    replaced by the payload. *)
Theorem plain_string_is_resolved_as_hash :
  let arr := NdArray 7 [1; 2; 3] in
  PyStr.endswith "name" hash_suffix = false
  /\ resolve (PDict [("name", PStr "alice")]) ∅ ∅
     = Raise (KeyError "alice")
  /\ resolve (PDict [("name", PStr "alice")]) {["alice" := PArray arr]} ∅
     = Ok (PDict [("name", PArray arr)], {["alice" := arr]}).
Proof. repeat split; reflexivity. Qed.

(** C5. A message whose payload is a list of units makes the server call
    the handler once for each unit, in list order, on the unit resolved
    against the message's chunk; when the resolution of a unit raises, the
    thread dies before any unit of the message is dispatched. *)
Theorem serve_dispatches_each_unit
    (units : list pyval) (storage : chunk) (s : server) :
  serve (PList units) storage s
  = match resolve_each units storage (weakref_map s) with
    | Ok (units', wm') => Waiting (Server wm' (handled s ++ units'))
    | Raise e => Crashed e (handled s)
    end
  /\ forall units' wm',
       resolve_each units storage (weakref_map s) = Ok (units', wm') ->
       length units' = length units.
Proof.
  split.
  - unfold serve. rewrite resolve_list.
    by destruct (resolve_each units storage (weakref_map s))
      as [[units' wm']|err].
  - intros units' wm'. apply resolve_each_length.
Qed.

Lemma serve_dispatches_each_unit_witness :
  let arr := NdArray 7 [1; 2; 3] in
  let units := [PDict [("obs_hash", PStr "abc123")];
                PDict [("reward", PInt 1)]] in
  resolve_each units {["abc123" := PArray arr]} ∅
  = Ok ([PDict [("obs", PArray arr)]; PDict [("reward", PInt 1)]],
        {["abc123" := arr]})
  /\ length [PDict [("obs", PArray arr)]; PDict [("reward", PInt 1)]]
     = length units.
Proof.
  split; [reflexivity|].
  exact (proj2 (serve_dispatches_each_unit
                  [PDict [("obs_hash", PStr "abc123")];
                   PDict [("reward", PInt 1)]]
                  {["abc123" := PArray (NdArray 7 [1; 2; 3])]}
                  (Server ∅ [])) _ _ eq_refl).
Defined.



End CollectorClaims.

(** ** The shell *)

Module ShellFacts.
Import Shell.

Lemma index_of_Some x l i : index_of x l = Some i -> l !! i = Some x.
Proof.
  revert i. induction l as [|y l IH]; intros i; simpl; [done|].
  destruct (String.eqb y x) eqn:E.
  - apply String.eqb_eq in E as ->. by intros [= <-].
  - destruct (index_of x l) as [j|]; simpl; [|done].
    intros [= <-]. simpl. by apply IH.
Qed.

Lemma index_of_None x l : index_of x l = None <-> x ∉ l.
Proof.
  induction l as [|y l IH]; simpl.
  - split; [intros _; apply not_elem_of_nil | done].
  - rewrite not_elem_of_cons. destruct (String.eqb y x) eqn:E.
    + apply String.eqb_eq in E as ->. split; [done | tauto].
    + apply String.eqb_neq in E.
      destruct (index_of x l) as [j|]; simpl.
      * split; [done|]. intros [_ H]. apply IH in H. done.
      * split; [|done]. intros _. split; [congruence | by apply IH].
Qed.

Lemma index_of_elem x l : x ∈ l -> exists i, index_of x l = Some i.
Proof.
  intros Hin. destruct (index_of x l) as [i|] eqn:E; [eauto|].
  apply index_of_None in E. done.
Qed.

(** What the loop over the checkpoint's variables leaves in the three
    locals. *)
Lemma restore_loop_spec scope var_names l st st' :
  restore_loop scope var_names l st = Ok st' ->
  (forall n, n ∈ var_names_left st' <->
             (n ∈ var_names_left st
              /\ forall v, v ∈ l -> rescope scope v ∈ var_names ->
                           rescope scope v <> n))
  /\ (forall v, v ∈ unrestored st' <->
                (v ∈ unrestored st
                 \/ (v ∈ l /\ (rescope scope v ∉ var_names)
                     /\ not_required v = false)))
  /\ (forall v i, index_of (rescope scope v) var_names = Some i ->
                  v ∈ l \/ restore_map st !! v = Some i ->
                  restore_map st' !! v = Some i).
Proof.
  revert st. induction l as [|v0 l IH]; intros st; simpl.
  - intros [= <-]. split; [|split].
    + intros n. split; [intros H; split; [done|] | tauto].
      intros v Hv. by apply elem_of_nil in Hv.
    + intros v. split; [tauto|]. intros [H|[H _]]; [done|].
      by apply elem_of_nil in H.
    + intros v i _ [H|H]; [by apply elem_of_nil in H | done].
  - destruct (restore_step scope var_names v0 st) as [st1|e] eqn:Hstep;
      simpl; [|done].
    intros Hloop. destruct (IH _ Hloop) as (Hleft & Hun & Hmap).
    unfold restore_step in Hstep.
    destruct (index_of (rescope scope v0) var_names) as [i0|] eqn:Hidx.
    + assert (Hin0 : rescope scope v0 ∈ var_names).
      { destruct (decide (rescope scope v0 ∈ var_names)) as [|Hn]; [done|].
        apply index_of_None in Hn. congruence. }
      case_bool_decide as Hmem; [|done]. injection Hstep as <-.
      simpl in *. split; [|split].
      * intros n. rewrite Hleft. split.
        -- intros [Hn Hrest]. apply elem_of_difference in Hn as [Hn Hne].
           split; [done|]. intros v Hv Hvin.
           apply elem_of_cons in Hv as [->|Hv]; [|by apply Hrest].
           intros <-. apply Hne. by apply elem_of_singleton.
        -- intros [Hn Hall]. split.
           ++ apply elem_of_difference. split; [done|].
              intros Heq%elem_of_singleton.
              apply (Hall v0); [by left | done | done].
           ++ intros v Hv. apply Hall. by right.
      * intros v. rewrite Hun. split.
        -- intros [H|(H1 & H2 & H3)]; [by left|].
           right. split; [by right | done].
        -- intros [H|(H1 & H2 & H3)]; [by left|].
           apply elem_of_cons in H1 as [->|H1]; [done|].
           right. done.
      * intros v i Hi [Hv|Hv].
        -- apply elem_of_cons in Hv as [->|Hv].
           ++ apply Hmap; [done|]. right.
              rewrite Hi in Hidx. injection Hidx as ->.
              apply lookup_insert_eq.
           ++ apply Hmap; [done|]. by left.
        -- apply Hmap; [done|]. right.
           destruct (decide (v0 = v)) as [->|Hne].
           ++ rewrite Hi in Hidx. injection Hidx as ->.
              apply lookup_insert_eq.
           ++ by rewrite lookup_insert_ne.
    + assert (Hnin0 : rescope scope v0 ∉ var_names)
        by (by apply index_of_None).
      destruct (not_required v0) eqn:Hreq; injection Hstep as <-;
        simpl in *; (split; [|split]).
      * intros n. rewrite Hleft. split.
        -- intros [Hn Hrest]. split; [done|]. intros v Hv Hvin.
           apply elem_of_cons in Hv as [->|Hv]; [done | by apply Hrest].
        -- intros [Hn Hall]. split; [done|].
           intros v Hv. apply Hall. by right.
      * intros v. rewrite Hun. split.
        -- intros [H|(H1 & H2 & H3)]; [by left|].
           right. split; [by right | done].
        -- intros [H|(H1 & H2 & H3)]; [by left|].
           apply elem_of_cons in H1 as [->|H1]; [congruence|].
           right. done.
      * intros v i Hi [Hv|Hv]; apply Hmap; try done; [|by right].
        apply elem_of_cons in Hv as [->|Hv]; [congruence | by left].
      * intros n. rewrite Hleft. split.
        -- intros [Hn Hrest]. split; [done|]. intros v Hv Hvin.
           apply elem_of_cons in Hv as [->|Hv]; [done | by apply Hrest].
        -- intros [Hn Hall]. split; [done|].
           intros v Hv. apply Hall. by right.
      * intros v. rewrite Hun. rewrite elem_of_app, list_elem_of_singleton.
        split.
        -- intros [[H| ->]|(H1 & H2 & H3)]; [by left| |].
           ++ right. split; [by left | done].
           ++ right. split; [by right | done].
        -- intros [H|(H1 & H2 & H3)]; [by left; left|].
           apply elem_of_cons in H1 as [->|H1]; [by left; right|].
           right. done.
      * intros v i Hi [Hv|Hv]; apply Hmap; try done; [|by right].
        apply elem_of_cons in Hv as [->|Hv]; [congruence | by left].
Qed.

End ShellFacts.

Module ShellClaims.
Import Shell ShellFacts.

(** C9. With a sync period of at least one, [should_sync(0)] is true, so
    the assertion in [Shell.__init__] holds and the checker is installed;
    with a sync period of zero the modulo raises [ZeroDivisionError], in
    [should_sync] and so in [Shell.__init__], before the assertion can
    fail. *)
Theorem should_sync_at_step_zero :
  (forall sync_period,
      1 <= sync_period ->
      should_sync (SyncEveryNSteps sync_period) 0 = Ok true
      /\ init_sync_checker (Some sync_period)
         = Ok (SyncEveryNSteps sync_period))
  /\ should_sync (SyncEveryNSteps 0) 0 = Raise ZeroDivisionError
  /\ init_sync_checker (Some 0) = Raise ZeroDivisionError.
Proof.
  split; [|split; reflexivity].
  intros p Hp.
  assert (H : should_sync (SyncEveryNSteps p) 0 = Ok true).
  { unfold should_sync, py_mod.
    destruct (p =? 0) eqn:E; [apply Z.eqb_eq in E; lia|].
    reflexivity. }
  split; [done|]. unfold init_sync_checker. by rewrite H.
Qed.

Lemma should_sync_at_step_zero_witness :
  1 <= 5
  /\ should_sync (SyncEveryNSteps 5) 0 = Ok true
  /\ init_sync_checker (Some 5) = Ok (SyncEveryNSteps 5).
Proof.
  split; [lia|]. apply (proj1 should_sync_at_step_zero 5). lia.
Defined.

(** C7. While the parameter server has published nothing, a fetch
    answers [(None, info)] and raises nothing, and [_sync_variables] runs
    no assignment: the shell, and so every variable of the session, is as
    before. *)
Theorem sync_before_first_publish
    (ps : parameter_server) (s : shell) (var_names : list string) :
  published ps = None ->
  fetch_parameter_with_info ps var_names = (None, ps_info ps)
  /\ pull_vars ps s = None
  /\ sync_variables ps s = Ok (s, []).
Proof.
  intros Hnone.
  unfold sync_variables, pull_vars, fetch_parameter_with_info.
  by rewrite Hnone.
Qed.

Lemma sync_before_first_publish_witness :
  let s := MkShell "shell" ["shell/gcn/w:0"] {["shell/gcn/w:0" := [1; 2]]} in
  published (ParameterServer None 0) = None
  /\ sync_variables (ParameterServer None 0) s = Ok (s, []).
Proof.
  split; [reflexivity|].
  exact (proj2 (proj2 (sync_before_first_publish
    (ParameterServer None 0)
    (MkShell "shell" ["shell/gcn/w:0"] {["shell/gcn/w:0" := [1; 2]]})
    [] eq_refl))).
Defined.

(** C8. [restore_from_checkpoint] raises when a required variable of the
    agent scope has no counterpart in the checkpoint, and when the
    checkpoint holds a variable that is neither required nor one of those
    the shell is known not to need (optimizer slots, the value torso, the
    global step); when it returns, every required variable is matched by
    a checkpoint variable that the saver restores into it. *)
Theorem restore_from_checkpoint_all_or_nothing
    (s : shell) (l : list (string * list nat)) :
  let required := map strip_index (variable_names s) in
  let rescoped := rescope (agent_scope s) in
  (forall n, n ∈ required ->
             (forall v, v ∈ map fst l -> rescoped v <> n) ->
             exists e, restore_from_checkpoint s l = Raise e)
  /\ (forall v, v ∈ map fst l -> rescoped v ∉ required ->
                not_required v = false ->
                exists e, restore_from_checkpoint s l = Raise e)
  /\ (forall rm, restore_from_checkpoint s l = Ok rm ->
                 forall n, n ∈ required ->
                 exists v i, v ∈ map fst l /\ rescoped v = n
                             /\ rm !! v = Some i
                             /\ required !! i = Some n).
Proof.
  intros required rescoped.
  assert (Hok : forall rm, restore_from_checkpoint s l = Ok rm ->
    exists st,
      restore_loop (agent_scope s) required (map fst l)
        (RestoreState ∅ (list_to_set required) []) = Ok st
      /\ var_names_left st = ∅ /\ unrestored st = []
      /\ rm = restore_map st).
  { intros rm. unfold restore_from_checkpoint. fold required.
    destruct (restore_loop _ _ _ _) as [st|e]; simpl; [|done].
    case_bool_decide as Hl; simpl; [|done].
    case_bool_decide as Hu; simpl; [|done].
    intros [= <-]. eauto. }
  assert (Hraise :
    (forall rm, restore_from_checkpoint s l = Ok rm -> False) ->
    exists e, restore_from_checkpoint s l = Raise e).
  { intros H. destruct (restore_from_checkpoint s l) as [rm|e]; [|eauto].
    destruct (H rm eq_refl). }
  split; [|split].
  - intros n Hn Hno. apply Hraise. intros rm Hrm.
    destruct (Hok rm Hrm) as (st & Hloop & Hleft & _ & _).
    apply restore_loop_spec in Hloop as (Hl & _ & _).
    assert (Hin : n ∈ var_names_left st); [|by rewrite Hleft in Hin].
    apply Hl. simpl. split; [by apply elem_of_list_to_set|].
    intros v Hv _. by apply Hno.
  - intros v Hv Hnreq Hnot. apply Hraise. intros rm Hrm.
    destruct (Hok rm Hrm) as (st & Hloop & _ & Hun & _).
    apply restore_loop_spec in Hloop as (_ & Hu & _).
    assert (Hin : v ∈ unrestored st);
      [|rewrite Hun in Hin; by apply elem_of_nil in Hin].
    apply Hu. right. done.
  - intros rm Hrm n Hn.
    destruct (Hok rm Hrm) as (st & Hloop & Hleft & _ & ->).
    apply restore_loop_spec in Hloop as (Hl & _ & Hm).
    destruct (decide (Exists (fun v => rescoped v = n) (map fst l)))
      as [Hex|Hnex].
    + apply Exists_exists in Hex as (v & Hv & Hvn).
      destruct (index_of_elem n required Hn) as (i & Hi).
      exists v, i. split; [done|]. split; [done|]. split.
      * apply Hm; [|by left]. unfold rescoped in Hvn. by rewrite Hvn.
      * by apply index_of_Some.
    + exfalso. rewrite <- Forall_Exists_neg, Forall_forall in Hnex.
      assert (Hin : n ∈ var_names_left st); [|by rewrite Hleft in Hin].
      apply Hl. simpl. split; [by apply elem_of_list_to_set|].
      intros v Hv _. by apply Hnex.
Qed.

Lemma restore_from_checkpoint_all_or_nothing_witness :
  let s := MkShell "shell" ["shell/gcn/w:0"; "shell/gcn/b:0"] ∅ in
  let l := [("learner/gcn/b", [4%nat]); ("learner/gcn/w", [4%nat; 4%nat])] in
  restore_from_checkpoint s l
  = Ok {["learner/gcn/b" := 1%nat; "learner/gcn/w" := 0%nat]}
  /\ exists v i, v ∈ map fst l /\ rescope "shell" v = "shell/gcn/w"
                 /\ ({["learner/gcn/b" := 1%nat; "learner/gcn/w" := 0%nat]}
                       : gmap string nat) !! v = Some i
                 /\ map strip_index ["shell/gcn/w:0"; "shell/gcn/b:0"] !! i
                    = Some "shell/gcn/w".
Proof.
  split; [reflexivity|].
  refine (proj2 (proj2 (restore_from_checkpoint_all_or_nothing
    (MkShell "shell" ["shell/gcn/w:0"; "shell/gcn/b:0"] ∅)
    [("learner/gcn/b", [4%nat]); ("learner/gcn/w", [4%nat; 4%nat])]))
    _ eq_refl "shell/gcn/w" _).
  apply list_elem_of_In. simpl. by left.
Defined.

End ShellClaims.

(** ** The full-episode actor *)

Module ActorFacts.
Import Actor.

Lemma sent_app t1 t2 : sent (t1 ++ t2) = sent t1 ++ sent t2.
Proof. apply omap_app. Qed.

Lemma executed_app t1 t2 : executed (t1 ++ t2) = executed t1 ++ executed t2.
Proof. apply omap_app. Qed.

Lemma sent_turn traj_length i :
  sent (turn traj_length i) = if send_due traj_length i then [i] else [].
Proof. unfold turn. by destruct (send_due traj_length i). Qed.

Lemma executed_turn traj_length i : executed (turn traj_length i) = [i].
Proof. unfold turn. by destruct (send_due traj_length i). Qed.

Lemma executed_elem i t : i ∈ executed t <-> TrajAdd i ∈ t.
Proof.
  unfold executed. rewrite list_elem_of_omap. split.
  - intros (e & He & Hi). destruct e; try done. by injection Hi as ->.
  - intros H. by exists (TrajAdd i).
Qed.

(** One turn of the loop that does not stop. *)
Lemma run_loop_from_turn fuel traj_length n_unrolls i trace :
  traj_length <> 0 ->
  match n_unrolls with Some n => i <> n | None => True end ->
  run_loop_from (S fuel) traj_length n_unrolls i trace
  = run_loop_from fuel traj_length n_unrolls (i + 1)
                  (trace ++ turn traj_length i).
Proof.
  intros HL Hgo. cbn [run_loop_from].
  assert (Hstop : match n_unrolls with Some n => i =? n | None => false end
                  = false).
  { destruct n_unrolls as [n|]; [|done]. by apply Z.eqb_neq. }
  rewrite Hstop. unfold turn, send_due, py_mod.
  apply Z.eqb_neq in HL. rewrite HL.
  destruct (0 <? i); cbn [andb].
  - destruct (i mod traj_length =? 0); by rewrite <- ?app_assoc.
  - by rewrite app_nil_r.
Qed.

Lemma run_loop_from_stop fuel traj_length n trace :
  run_loop_from (S fuel) traj_length (Some n) n trace = Returned trace.
Proof. cbn [run_loop_from]. by rewrite Z.eqb_refl. Qed.

(** Experience is sent at the executed steps where it is due. *)
Lemma run_loop_from_sent fuel traj_length n_unrolls i trace :
  traj_length <> 0 ->
  sent trace = List.filter (send_due traj_length) (executed trace) ->
  let o := run_loop_from fuel traj_length n_unrolls i trace in
  sent (trace_of o)
  = List.filter (send_due traj_length) (executed (trace_of o))
  /\ forall e t, o <> Raised e t.
Proof.
  intros HL. revert i trace.
  induction fuel as [|fuel IH]; intros i trace Hinv; [done|].
  destruct (decide (n_unrolls = Some i)) as [->|Hne].
  - by rewrite run_loop_from_stop.
  - intros o. subst o. rewrite run_loop_from_turn; [| done |].
    + apply IH. rewrite sent_app, executed_app, List.filter_app, Hinv.
      f_equal. rewrite sent_turn, executed_turn. simpl.
      by destruct (send_due traj_length i).
    + destruct n_unrolls as [n|]; [congruence | done].
Qed.

(** Without a bound on the unrolls, every step is reached. *)
Lemma run_loop_from_forever fuel traj_length i trace j :
  traj_length <> 0 ->
  j ∈ executed (trace_of (run_loop_from fuel traj_length None i trace))
  <-> (j ∈ executed trace \/ i <= j < i + Z.of_nat fuel).
Proof.
  intros HL. revert i trace.
  induction fuel as [|fuel IH]; intros i trace.
  - simpl. split; [by left | intros [H|H]; [done | lia]].
  - rewrite run_loop_from_turn by done. rewrite IH.
    rewrite executed_app, executed_turn, elem_of_app, list_elem_of_singleton.
    intuition lia.
Qed.

(** With a bound [n], the loop returns after the steps below [n]. *)
Lemma run_loop_from_bounded fuel traj_length n i trace :
  traj_length <> 0 ->
  i <= n < i + Z.of_nat fuel ->
  exists t, run_loop_from fuel traj_length (Some n) i trace = Returned t
            /\ forall j, j ∈ executed t
                         <-> (j ∈ executed trace \/ i <= j < n).
Proof.
  intros HL. revert i trace.
  induction fuel as [|fuel IH]; intros i trace Hn; [lia|].
  destruct (decide (i = n)) as [->|Hne].
  - rewrite run_loop_from_stop. eexists; split; [done|].
    intros j. split; [by left | intros [H|H]; [done | lia]].
  - rewrite run_loop_from_turn by done.
    destruct (IH (i + 1) (trace ++ turn traj_length i) ltac:(lia))
      as (t & -> & Ht).
    eexists; split; [done|]. intros j. rewrite Ht.
    rewrite executed_app, executed_turn, elem_of_app, list_elem_of_singleton.
    intuition lia.
Qed.

End ActorFacts.

Module ActorClaims.
Import Actor ActorFacts.

(** C10. In [Actor.run_loop] with a trajectory length of at least one,
    experience is sent exactly at the executed steps [i] with [i > 0] and
    [i % traj_length == 0]: not at step 0, first at step [traj_length],
    never in between, and the modulo never raises.  Run forever, the loop
    reaches every step; with [n_unrolls = n] it returns once the steps
    below [n] are done. *)
Theorem run_loop_sends_every_traj_length
    (fuel : nat) (traj_length : Z) (n_unrolls : option Z) :
  1 <= traj_length ->
  let o := run_loop fuel traj_length n_unrolls in
  let t := trace_of o in
  (forall i, i ∈ sent t
             <-> (TrajAdd i ∈ t /\ 0 < i /\ i mod traj_length = 0))
  /\ (0 ∉ sent t)
  /\ (forall i, i ∈ sent t -> traj_length <= i)
  /\ (TrajAdd traj_length ∈ t -> traj_length ∈ sent t)
  /\ (forall e t', o <> Raised e t')
  /\ (n_unrolls = None ->
      forall i, TrajAdd i ∈ t <-> 0 <= i < Z.of_nat fuel)
  /\ (forall n, n_unrolls = Some n -> 0 <= n < Z.of_nat fuel ->
                o = Returned t
                /\ forall i, TrajAdd i ∈ t <-> 0 <= i < n).
Proof.
  intros HL o t.
  assert (HL0 : traj_length <> 0) by lia.
  destruct (run_loop_from_sent fuel traj_length n_unrolls 0 [] HL0 eq_refl)
    as [Hsent Hnoraise].
  fold (run_loop fuel traj_length n_unrolls) in Hsent, Hnoraise.
  fold o in Hsent, Hnoraise. fold t in Hsent.
  assert (Hchar : forall i, i ∈ sent t
                    <-> (TrajAdd i ∈ t /\ 0 < i /\ i mod traj_length = 0)).
  { intros i. rewrite Hsent, list_elem_of_In, List.filter_In.
    rewrite <- list_elem_of_In, executed_elem. unfold send_due.
    rewrite andb_true_iff, Z.ltb_lt, Z.eqb_eq. tauto. }
  split; [exact Hchar|]. split; [|split; [|split; [|split; [|split]]]].
  - rewrite Hchar. lia.
  - intros i (_ & Hpos & Hmod)%Hchar.
    destruct (Z.lt_ge_cases i traj_length) as [Hlt|]; [|done].
    rewrite Z.mod_small in Hmod by lia. lia.
  - intros H. apply Hchar. split; [done|]. split; [lia|].
    apply Z_mod_same_full.
  - exact Hnoraise.
  - intros -> i. rewrite <- executed_elem. unfold t, o, run_loop.
    rewrite run_loop_from_forever by done.
    split; [intros [H|H]; [by apply elem_of_nil in H | lia] | right; lia].
  - intros n -> Hn.
    destruct (run_loop_from_bounded fuel traj_length n 0 [] HL0 ltac:(lia))
      as (t0 & Ht0 & Hexec).
    assert (Ho : o = Returned t0) by exact Ht0.
    assert (Ht : t = t0) by (unfold t; by rewrite Ho).
    rewrite Ht. split; [done|]. intros i.
    rewrite <- executed_elem, Hexec.
    split; [intros [H|H]; [by apply elem_of_nil in H | lia] | right; lia].
Qed.

Lemma run_loop_sends_every_traj_length_witness :
  1 <= 3
  /\ sent (trace_of (run_loop 20 3 (Some 10))) = [3; 6; 9]
  /\ (TrajAdd 3 ∈ trace_of (run_loop 20 3 (Some 10)) ->
      3 ∈ sent (trace_of (run_loop 20 3 (Some 10)))).
Proof.
  split; [lia|]. split; [reflexivity|].
  apply (run_loop_sends_every_traj_length 20 3 (Some 10)). lia.
Defined.

End ActorClaims.

(** ** The replay buffer *)

Module ReplayFacts.
Import Replay.

Lemma memory_size_insert exp r : memory_size (insert exp r) = memory_size r.
Proof. reflexivity. Qed.

Lemma total_inserted_insert exp r :
  total_inserted (insert exp r) = S (total_inserted r).
Proof. reflexivity. Qed.

(** An insert adds one entry, unless the buffer is full. *)
Lemma len_insert exp r :
  (1 <= memory_size r)%nat -> (len r <= memory_size r)%nat ->
  len (insert exp r) = Nat.min (S (len r)) (memory_size r).
Proof.
  unfold len, insert. intros Hpos Hle. cbn [memory].
  destruct (memory_size r <=? length (memory r))%nat eqn:E.
  - apply Nat.leb_le in E. rewrite length_app. cbn [length].
    destruct (memory r) as [|e m]; cbn [tl length] in *; lia.
  - apply Nat.leb_gt in E. rewrite length_app. cbn [length]. lia.
Qed.

Lemma insert_all_app exps1 exps2 r :
  insert_all (exps1 ++ exps2) r = insert_all exps2 (insert_all exps1 r).
Proof. apply fold_left_app. Qed.

(** After any run of inserts into an empty buffer, the length is the
    number of inserts, capped by the capacity. *)
Lemma len_insert_all exps m :
  (1 <= m)%nat ->
  let r := insert_all exps (empty m) in
  memory_size r = m
  /\ total_inserted r = length exps
  /\ len r = Nat.min (length exps) m.
Proof.
  intros Hm. induction exps as [|e exps IH] using rev_ind.
  - cbn. lia.
  - intros r. subst r. rewrite insert_all_app.
    change (insert_all [e] ?x) with (insert e x).
    destruct IH as (Hsize & Htotal & Hlen).
    rewrite memory_size_insert, total_inserted_insert, len_insert;
      rewrite ?Hsize, ?Htotal, ?Hlen, ?length_app; cbn [length]; lia.
Qed.

Lemma length_batches {A} (n k : nat) (x : A) :
  length (concat (replicate n (replicate k x))) = (n * k)%nat.
Proof.
  induction n as [|n IH]; [done|].
  cbn [replicate concat]. rewrite length_app, IH, length_replicate. lia.
Qed.

End ReplayFacts.

Module ReplayClaims.
Import Replay ReplayFacts.

(** C4. For a replay buffer of capacity [memory_size >= 1], after any run
    of inserts the length is the number of items inserted so far, capped
    by [memory_size]; so after the batch [i] of the test (batches of 4,
    capacity 100) the length is [min ((i + 1) * 4) 100].  An insert at
    capacity returns like any other: it drops the oldest entry and
    appends the new one. *)
Theorem len_is_min_of_inserted_and_memory_size
    (m : nat) (exps : list pyval) :
  (1 <= m)%nat ->
  len (insert_all exps (empty m)) = Nat.min (length exps) m
  /\ total_inserted (insert_all exps (empty m)) = length exps
  /\ (forall (i : nat) (data : pyval),
         (i < 100)%nat ->
         len (send_batches (S i) 4 data (empty 100))
         = Nat.min ((1 + i) * 4) 100)
  /\ (forall exp r,
         memory_size r = m -> len r = m ->
         memory (insert exp r)
         = tl (memory r) ++ [Entry exp (total_inserted r) 0]
         /\ len (insert exp r) = m).
Proof.
  intros Hm.
  destruct (len_insert_all exps m Hm) as (_ & Htotal & Hlen).
  split; [exact Hlen|]. split; [exact Htotal|]. split.
  - intros i data _. unfold send_batches.
    destruct (len_insert_all
                (concat (replicate (S i) (replicate 4 data))) 100
                ltac:(lia)) as (_ & _ & ->).
    rewrite length_batches. f_equal.
  - intros exp r Hsize Hfull. unfold len in *. unfold insert.
    rewrite Hsize, <- Hfull, Nat.leb_refl. cbn [memory]. split; [done|].
    rewrite length_app. cbn [length].
    destruct (memory r) as [|e mem]; cbn [tl length] in *; lia.
Qed.

Lemma len_is_min_of_inserted_and_memory_size_witness :
  (1 <= 3)%nat
  /\ len (insert_all [PInt 1; PInt 2; PInt 3; PInt 4; PInt 5] (empty 3))
     = Nat.min 5 3
  /\ map payload
         (memory (insert_all [PInt 1; PInt 2; PInt 3; PInt 4; PInt 5]
                             (empty 3)))
     = [PInt 3; PInt 4; PInt 5].
Proof.
  split; [lia|]. split; [|reflexivity].
  exact (proj1 (len_is_min_of_inserted_and_memory_size
                  3 [PInt 1; PInt 2; PInt 3; PInt 4; PInt 5] ltac:(lia))).
Defined.

End ReplayClaims.

(** ** The collector: further properties *)

Module CollectorMore.
Import Collector PyDictFacts PyStrFacts CollectorFuel CollectorFacts.
Import CollectorRecord.

Lemma set_get_id key v d :
  PyDict.get key d = Some v -> PyDict.set key v d = d.
Proof.
  induction d as [|[k w] d IH]; simpl; [done|].
  destruct (String.eqb k key) eqn:E.
  - by intros [= ->].
  - intros H. by rewrite IH.
Qed.

Lemma keys_get key d :
  key ∈ PyDict.keys d -> exists v, PyDict.get key d = Some v /\ (key, v) ∈ d.
Proof.
  intros Hin. destruct (PyDict.get key d) as [v|] eqn:E.
  - exists v. split; [done|]. by apply list_elem_of_In, get_Some_In.
  - apply get_None_keys in E. by rewrite <- list_elem_of_In in E.
Qed.

Lemma forallb_elem {A} (f : A -> bool) l x :
  forallb f l = true -> x ∈ l -> f x = true.
Proof.
  intros H Hin. rewrite forallb_forall in H.
  apply H. by apply list_elem_of_In.
Qed.

Lemma depth_elem e items :
  e ∈ items -> (depth e <= max_list (map depth items))%nat.
Proof. intros H. apply max_list_elem_of_le, list_elem_of_fmap. eauto. Qed.

Lemma depth_value k v (items : PyDict.t) :
  (k, v) ∈ items ->
  (depth v <= max_list (map (fun kv => depth (snd kv)) items))%nat.
Proof.
  intros H. apply max_list_elem_of_le, list_elem_of_fmap. by exists (k, v).
Qed.

(** A record without strings and without hash keys is left alone. *)
Lemma retrieve_storage_hash_free fuel exp storage wm :
  (depth exp < fuel)%nat -> hash_free exp = true ->
  retrieve_storage fuel exp storage wm = fret (exp, wm).
Proof.
  revert exp wm. induction fuel as [|fuel IH]; intros exp wm Hd Hfree; [lia|].
  destruct exp as [| z | h | a | items | items]; try done.
  - rewrite retrieve_storage_list.
    assert (Hl : forall l m,
      (forall e, e ∈ l -> e ∈ items) ->
      retrieve_list (fun e m0 => retrieve_storage fuel e storage m0) l m
      = fret (l, m)).
    { induction l as [|e l IHl]; intros m Hsub; [done|].
      cbn [retrieve_list]. rewrite IH.
      - cbn [fbind fret]. rewrite IHl; [done|].
        intros e' He'. apply Hsub. by right.
      - assert (He : e ∈ items) by (apply Hsub; by left).
        apply depth_elem in He. simpl in Hd. lia.
      - simpl in Hfree. eapply forallb_elem; [exact Hfree|].
        apply Hsub. by left. }
    by rewrite Hl.
  - rewrite retrieve_storage_dict.
    assert (Hk : forall ks m,
      (forall k, k ∈ ks -> k ∈ PyDict.keys items) ->
      retrieve_keys (fun e m0 => retrieve_storage fuel e storage m0)
                    ks (items, m)
      = fret (items, m)).
    { induction ks as [|k ks IHk]; intros m Hsub; [done|].
      cbn [retrieve_keys].
      destruct (keys_get k items) as (v & Hget & Hin);
        [apply Hsub; by left|].
      simpl in Hfree.
      pose proof (forallb_elem _ _ _ Hfree Hin) as Hkv.
      apply andb_true_iff in Hkv as [Hnend Hv]. simpl in Hnend, Hv.
      apply negb_true_iff in Hnend.
      rewrite (retrieve_key_plain _ k items m v v m Hnend Hget).
      - cbn [fbind fret]. rewrite (set_get_id _ _ _ Hget).
        apply IHk. intros k' Hk'. apply Hsub. by right.
      - apply IH; [|done]. apply depth_value in Hin. simpl in Hd. lia. }
    by rewrite Hk.
Qed.

(** [del] and item assignment keep the keys distinct. *)
Lemma keys_set_in key v d :
  key ∈ PyDict.keys d -> PyDict.keys (PyDict.set key v d) = PyDict.keys d.
Proof.
  induction d as [|[k w] d IH]; simpl.
  - intros H. by apply elem_of_nil in H.
  - destruct (String.eqb k key) eqn:E; [done|].
    apply String.eqb_neq in E. intros H.
    apply elem_of_cons in H as [->|H]; [done|]. simpl. by rewrite IH.
Qed.

Lemma keys_set_new key v d :
  key ∉ PyDict.keys d ->
  PyDict.keys (PyDict.set key v d) = PyDict.keys d ++ [key].
Proof.
  induction d as [|[k w] d IH]; simpl; [done|].
  intros H. apply not_elem_of_cons in H as [Hne H].
  destruct (String.eqb k key) eqn:E.
  - apply String.eqb_eq in E. congruence.
  - simpl. by rewrite IH.
Qed.

Lemma NoDup_keys_set key v d :
  NoDup (PyDict.keys d) -> NoDup (PyDict.keys (PyDict.set key v d)).
Proof.
  intros Hnd. destruct (decide (key ∈ PyDict.keys d)) as [Hin|Hnin].
  - by rewrite keys_set_in.
  - rewrite keys_set_new by done. apply NoDup_app. split; [done|].
    split; [|apply NoDup_singleton].
    intros x Hx Hx'. apply list_elem_of_singleton in Hx' as ->. done.
Qed.

Lemma elem_of_remove key kv d :
  kv ∈ PyDict.remove key d <-> (kv ∈ d /\ fst kv <> key).
Proof.
  induction d as [|[k w] d IH]; simpl.
  - split; [intros H; by apply elem_of_nil in H | intros [H _]].
    by apply elem_of_nil in H.
  - destruct (String.eqb k key) eqn:E.
    + apply String.eqb_eq in E as ->. rewrite IH, elem_of_cons.
      split; [intros [? ?]; split; [by right | done]|].
      intros [[->|?] Hne]; [done | done].
    + apply String.eqb_neq in E. rewrite !elem_of_cons, IH.
      split; [intros [->|[? ?]]; [split; [by left | done] |
                                   split; [by right | done]]|].
      intros [[->|?] Hne]; [by left | by right].
Qed.

Lemma NoDup_keys_remove key d :
  NoDup (PyDict.keys d) -> NoDup (PyDict.keys (PyDict.remove key d)).
Proof.
  induction d as [|[k w] d IH]; simpl; [done|].
  intros [Hk Hd]%NoDup_cons. destruct (String.eqb k key); [by apply IH|].
  simpl. apply NoDup_cons. split; [|by apply IH].
  intros Hin. apply Hk. unfold PyDict.keys in *.
  apply list_elem_of_fmap in Hin as ([k' w'] & -> & Hin).
  apply elem_of_remove in Hin as [Hin _].
  apply list_elem_of_fmap. by exists (k', w').
Qed.

Lemma elem_of_set key v kv d :
  NoDup (PyDict.keys d) ->
  kv ∈ PyDict.set key v d -> kv = (key, v) \/ (kv ∈ d /\ fst kv <> key).
Proof.
  induction d as [|[k w] d IH]; simpl.
  - intros _ H. apply list_elem_of_singleton in H. by left.
  - intros [Hk Hd]%NoDup_cons. destruct (String.eqb k key) eqn:E.
    + apply String.eqb_eq in E as ->. intros H.
      apply elem_of_cons in H as [->|H]; [by left|].
      right. split; [by right|]. intros <-. apply Hk.
      apply list_elem_of_fmap. by exists kv.
    + apply String.eqb_neq in E. intros H.
      apply elem_of_cons in H as [->|H].
      * right. split; [by left | done].
      * destruct (IH Hd H) as [->|[? ?]]; [by left|].
        right. split; [by right | done].
Qed.

Lemma forallb_intro {A} (f : A -> bool) l :
  (forall x, x ∈ l -> f x = true) -> forallb f l = true.
Proof.
  intros H. apply forallb_forall. intros x Hx. apply H.
  by apply list_elem_of_In.
Qed.

(** The loops hand back resolved values only, when the recursive call
    does. *)
Section Resolved.
Variable rec : pyval -> weakmap -> option (result (pyval * weakmap)).
Hypothesis rec_resolved : forall e m v m',
  well_formed e = true -> rec e m = Some (Ok (v, m')) ->
  no_str v = true /\ well_formed v = true.

Lemma retrieve_list_resolved items wm items' wm' :
  (forall e, e ∈ items -> well_formed e = true) ->
  retrieve_list rec items wm = Some (Ok (items', wm')) ->
  forall e, e ∈ items' -> no_str e = true /\ well_formed e = true.
Proof.
  revert wm items' wm'.
  induction items as [|e0 rest IH]; intros wm items' wm' Hwf;
    cbn [retrieve_list].
  - intros [= <- <-] e He. by apply elem_of_nil in He.
  - destruct (rec e0 wm) as [[[e0' wm1]|err]|] eqn:E; [|done|done].
    cbn [fbind].
    destruct (retrieve_list rec rest wm1) as [[[rest' wm2]|err]|] eqn:E1;
      [|done|done].
    cbn [fbind]. intros [= <- <-] e He.
    apply elem_of_cons in He as [->|He].
    + eapply rec_resolved; [|exact E]. apply Hwf. by left.
    + eapply IH; [|exact E1|exact He]. intros e1 He1. apply Hwf. by right.
Qed.

Lemma retrieve_keys_resolved ks exp wm exp' wm' :
  NoDup (PyDict.keys exp) ->
  (forall kv, kv ∈ exp -> well_formed (snd kv) = true) ->
  (forall kv, kv ∈ exp -> fst kv ∈ ks \/ no_str (snd kv) = true) ->
  retrieve_keys rec ks (exp, wm) = Some (Ok (exp', wm')) ->
  NoDup (PyDict.keys exp')
  /\ forall kv, kv ∈ exp' ->
                no_str (snd kv) = true /\ well_formed (snd kv) = true.
Proof.
  revert exp wm.
  induction ks as [|k ks IH]; intros exp wm Hnd Hwf Hleft Hrun.
  - injection Hrun as <- <-. split; [done|]. intros kv Hkv.
    split; [|by apply Hwf]. destruct (Hleft kv Hkv) as [H|H]; [|done].
    by apply elem_of_nil in H.
  - apply retrieve_keys_cons_inv in Hrun as ([exp1 wm1] & Hk & Hrest).
    apply retrieve_key_inv in Hk as (v & v' & Hget & Hrec & ->).
    assert (Hin : (k, v) ∈ exp) by (by apply list_elem_of_In, get_Some_In).
    destruct (rec_resolved v wm v' wm1 (Hwf _ Hin) Hrec) as [Hns' Hwf'].
    eapply IH; [| | |exact Hrest].
    + destruct (PyStr.endswith k hash_suffix);
        [apply NoDup_keys_remove|]; by apply NoDup_keys_set.
    + intros kv Hkv. destruct (PyStr.endswith k hash_suffix).
      * apply elem_of_remove in Hkv as [Hkv _].
        destruct (elem_of_set _ _ _ _ Hnd Hkv) as [->|[Hkv' _]];
          [done | by apply Hwf].
      * destruct (elem_of_set _ _ _ _ Hnd Hkv) as [->|[Hkv' _]];
          [done | by apply Hwf].
    + intros kv Hkv.
      assert (Hold : kv ∈ exp -> fst kv <> k ->
                     fst kv ∈ ks \/ no_str (snd kv) = true).
      { intros Hkv0 Hne. destruct (Hleft kv Hkv0) as [H|H]; [|by right].
        apply elem_of_cons in H as [?|?]; [done | by left]. }
      destruct (PyStr.endswith k hash_suffix).
      * apply elem_of_remove in Hkv as [Hkv Hne].
        destruct (elem_of_set _ _ _ _ Hnd Hkv) as [->|[Hkv' _]];
          [by right | by apply Hold].
      * destruct (elem_of_set _ _ _ _ Hnd Hkv) as [->|[Hkv' Hne]];
          [by right | by apply Hold].
Qed.
End Resolved.

(** What [_retrieve_storage] returns has no string left in it. *)
Lemma retrieve_storage_resolved fuel exp storage wm v wm' :
  well_formed exp = true ->
  retrieve_storage fuel exp storage wm = Some (Ok (v, wm')) ->
  no_str v = true /\ well_formed v = true.
Proof.
  revert exp wm v wm'.
  induction fuel as [|fuel IH]; intros exp wm v wm' Hwf; [done|].
  destruct exp as [| z | h | a | items | items].
  - by intros [= <- <-].
  - by intros [= <- <-].
  - rewrite retrieve_storage_str. intros [= H].
    by apply retrieve_hash_cached in H as (a & -> & _).
  - by intros [= <- <-].
  - rewrite retrieve_storage_list.
    destruct (retrieve_list _ items wm) as [[[items' wm1]|err]|] eqn:E;
      [|done|done].
    cbn [fbind]. intros [= <- <-].
    pose proof (retrieve_list_resolved _ IH items wm items' wm1) as Hres.
    simpl in Hwf.
    specialize (Hres (fun e He => forallb_elem _ _ _ Hwf He) E).
    cbn [no_str well_formed].
    split; apply forallb_intro; intros e He; by apply Hres.
  - rewrite retrieve_storage_dict.
    destruct (retrieve_keys _ _ (items, wm)) as [[[items' wm1]|err]|] eqn:E;
      [|done|done].
    cbn [fbind]. intros [= <- <-].
    cbn [well_formed] in Hwf. apply andb_true_iff in Hwf as [Hnd Hwfs].
    apply bool_decide_eq_true in Hnd.
    destruct (retrieve_keys_resolved _ IH (PyDict.keys items) items wm
                items' wm1) as [Hnd' Hres]; [done| | |done|].
    + intros kv Hkv. by apply (forallb_elem _ _ _ Hwfs Hkv).
    + intros kv Hkv. left. apply list_elem_of_fmap. by exists kv.
    + cbn [no_str well_formed]. split.
      * apply forallb_intro. intros kv Hkv. by apply Hres.
      * apply andb_true_iff. split; [by apply bool_decide_eq_true|].
        apply forallb_intro. intros kv Hkv. by apply Hres.
Qed.

Lemma resolve_Ok exp storage wm v wm' :
  resolve exp storage wm = Ok (v, wm') ->
  retrieve_storage (S (depth exp)) exp storage wm = Some (Ok (v, wm')).
Proof. intros H. by rewrite resolve_no_recursion_error, H. Qed.

Lemma expire_lookup_dead dead (wm : weakmap) h :
  h ∈ dead -> expire dead wm !! h = None.
Proof.
  induction dead as [|d dead IH]; simpl.
  - intros H. by apply elem_of_nil in H.
  - intros H. destruct (decide (d = h)) as [->|Hne].
    + apply lookup_delete_eq.
    + rewrite lookup_delete_ne by done. apply IH.
      apply elem_of_cons in H as [?|?]; [congruence | done].
Qed.

End CollectorMore.

(** ** The collector against its contract *)

Module CollectorContract.
Import Collector PyDictFacts PyStrFacts CollectorFuel CollectorFacts.
Import CollectorRecord CollectorMore.

Lemma get_app_first key v (pre tail : PyDict.t) :
  key ∉ PyDict.keys pre ->
  PyDict.get key (pre ++ (key, v) :: tail) = Some v.
Proof.
  induction pre as [|[k w] pre IH]; simpl; intros Hn.
  - by rewrite String.eqb_refl.
  - apply not_elem_of_cons in Hn as [Hne Hn].
    destruct (String.eqb_spec k key); [congruence|]. by apply IH.
Qed.

Lemma set_app_new key v (d : PyDict.t) :
  key ∉ PyDict.keys d -> PyDict.set key v d = d ++ [(key, v)].
Proof.
  induction d as [|[k w] d IH]; simpl; intros Hn; [done|].
  apply not_elem_of_cons in Hn as [Hne Hn].
  destruct (String.eqb_spec k key); [congruence|]. by rewrite IH.
Qed.

Lemma set_middle key v v' (pre tail : PyDict.t) :
  key ∉ PyDict.keys pre ->
  PyDict.set key v' (pre ++ (key, v) :: tail) = pre ++ (key, v') :: tail.
Proof.
  induction pre as [|[k w] pre IH]; simpl; intros Hn.
  - by rewrite String.eqb_refl.
  - apply not_elem_of_cons in Hn as [Hne Hn].
    destruct (String.eqb_spec k key); [congruence|]. by rewrite IH.
Qed.

Lemma remove_notin key (d : PyDict.t) :
  key ∉ PyDict.keys d -> PyDict.remove key d = d.
Proof.
  induction d as [|[k w] d IH]; simpl; intros Hn; [done|].
  apply not_elem_of_cons in Hn as [Hne Hn].
  destruct (String.eqb_spec k key); [congruence|]. by rewrite IH.
Qed.

Lemma remove_middle key v (pre tail : PyDict.t) :
  key ∉ PyDict.keys pre -> key ∉ PyDict.keys tail ->
  PyDict.remove key (pre ++ (key, v) :: tail) = pre ++ tail.
Proof.
  induction pre as [|[k w] pre IH]; simpl; intros Hn Ht.
  - rewrite String.eqb_refl. by apply remove_notin.
  - apply not_elem_of_cons in Hn as [Hne Hn].
    destruct (String.eqb_spec k key); [congruence|]. by rewrite IH.
Qed.

Lemma keys_app (d1 d2 : PyDict.t) :
  PyDict.keys (d1 ++ d2) = PyDict.keys d1 ++ PyDict.keys d2.
Proof. apply map_app. Qed.

Lemma keys_cons k v (d : PyDict.t) :
  PyDict.keys ((k, v) :: d) = k :: PyDict.keys d.
Proof. done. Qed.

Lemma elem_of_keys3 x (pre todo post : PyDict.t) :
  x ∈ PyDict.keys (pre ++ todo ++ post)
  <-> x ∈ PyDict.keys pre \/ x ∈ PyDict.keys todo \/ x ∈ PyDict.keys post.
Proof. by rewrite !keys_app, !elem_of_app. Qed.

Lemma NoDup_keys3_cons key v (pre rest post : PyDict.t) :
  NoDup (PyDict.keys (pre ++ ((key, v) :: rest) ++ post)) ->
  NoDup (PyDict.keys (pre ++ rest ++ post))
  /\ (key ∉ PyDict.keys pre) /\ (key ∉ PyDict.keys rest)
  /\ (key ∉ PyDict.keys post).
Proof.
  rewrite !keys_app, keys_cons. intros Hnd.
  apply NoDup_app in Hnd as (H1 & H2 & H3). cbn [app] in H2, H3.
  apply NoDup_cons in H3 as [H3 H4]. rewrite elem_of_app in H3.
  split; [|split; [|tauto]].
  - apply NoDup_app. split; [done|]. split; [|done].
    intros x Hx Hx'. apply (H2 x Hx). by right.
  - intros Hin. apply (H2 key Hin). by left.
Qed.

Lemma NoDup_keys3_snoc key v (pre rest post : PyDict.t) :
  NoDup (PyDict.keys (pre ++ rest ++ post)) ->
  key ∉ PyDict.keys (pre ++ rest ++ post) ->
  NoDup (PyDict.keys (pre ++ rest ++ post ++ [(key, v)])).
Proof.
  intros Hnd Hn.
  replace (pre ++ rest ++ post ++ [(key, v)])
    with ((pre ++ rest ++ post) ++ [(key, v)]) by (by rewrite <- !app_assoc).
  rewrite keys_app. apply NoDup_app. split; [done|].
  split; [|apply NoDup_singleton].
  intros x Hx Hx'. apply list_elem_of_singleton in Hx'. by subst x.
Qed.

Section Loops.
Variable rec : pyval -> weakmap -> option (result (pyval * weakmap)).
Variable recs : pyval -> weakmap -> result (pyval * weakmap).

(** The list loop is the left-to-right pass. *)
Lemma retrieve_list_spec items wm :
  (forall e, e ∈ items -> forall m, rec e m = Some (recs e m)) ->
  retrieve_list rec items wm = Some (resolve_spec_list recs items wm).
Proof.
  revert wm. induction items as [|e rest IH]; intros wm Hrec; [done|].
  cbn [retrieve_list resolve_spec_list].
  rewrite (Hrec e) by left.
  destruct (recs e wm) as [[e' wm1]|err]; cbn [fbind rbind]; [|done].
  rewrite IH by (intros e0 H0; apply Hrec; by right).
  by destruct (resolve_spec_list recs rest wm1) as [[rest' wm2]|err].
Qed.

(** The key loop, run on the keys still to come [todo] of a dictionary
    whose entries already handled stand in [pre] (plain keys) and in
    [post] (stripped keys): without collisions, the in-place updates and
    deletions build the two groups of the contract. *)
Lemma retrieve_keys_spec todo : forall pre post wm,
  NoDup (PyDict.keys (pre ++ todo ++ post)) ->
  (forall k, k ∈ PyDict.keys todo ->
             PyStr.endswith k hash_suffix = true ->
             PyStr.drop_last (String.length hash_suffix) k
               ∉ PyDict.keys (pre ++ todo ++ post)) ->
  (forall k v, (k, v) ∈ todo -> forall m, rec v m = Some (recs v m)) ->
  retrieve_keys rec (PyDict.keys todo) (pre ++ todo ++ post, wm)
  = Some (rbind (resolve_spec_items recs todo wm)
                (fun '(kept, renamed, wm') =>
                   Ok (pre ++ kept ++ post ++ renamed, wm'))).
Proof.
  induction todo as [|[key v] rest IH]; intros pre post wm Hnd Hcol Hrec.
  - cbn. by rewrite app_nil_r.
  - destruct (NoDup_keys3_cons _ _ _ _ _ Hnd) as (N0 & Hpre & Hrest & Hpost).
    assert (Hcol' : forall k, k ∈ PyDict.keys rest ->
               PyStr.endswith k hash_suffix = true ->
               (PyStr.drop_last (String.length hash_suffix) k
                  ∉ PyDict.keys (pre ++ rest ++ post))
               /\ PyStr.drop_last (String.length hash_suffix) k <> key).
    { intros k Hk Hkend.
      assert (H : PyStr.drop_last (String.length hash_suffix) k
                  ∉ PyDict.keys (pre ++ ((key, v) :: rest) ++ post)).
      { apply Hcol; [|done]. rewrite keys_cons. by right. }
      rewrite elem_of_keys3, keys_cons, elem_of_cons in H.
      rewrite elem_of_keys3. split; [tauto|]. intros E. apply H.
      right. left. by left. }
    rewrite keys_cons. cbn [retrieve_keys resolve_spec_items].
    unfold retrieve_key.
    change (pre ++ ((key, v) :: rest) ++ post)
      with (pre ++ (key, v) :: rest ++ post).
    rewrite (get_app_first key v pre (rest ++ post) Hpre).
    rewrite (Hrec key v) by left.
    destruct (recs v wm) as [[v' wm1]|err]; cbn [fbind rbind];
      [|by destruct (PyStr.endswith key hash_suffix)].
    destruct (PyStr.endswith key hash_suffix) eqn:Hend.
    + set (new_key := PyStr.drop_last (String.length hash_suffix) key).
      assert (Hne : new_key <> key) by (by apply new_key_neq).
      assert (Hnew : new_key ∉ PyDict.keys (pre ++ ((key, v) :: rest) ++ post)).
      { apply (Hcol key); [rewrite keys_cons; left|done]. }
      assert (Hnew0 : new_key ∉ PyDict.keys (pre ++ rest ++ post)).
      { rewrite elem_of_keys3, keys_cons, elem_of_cons in Hnew.
        rewrite elem_of_keys3. tauto. }
      change (pre ++ ((key, v) :: rest) ++ post)
        with (pre ++ (key, v) :: rest ++ post) in Hnew.
      rewrite (set_app_new new_key v' _ Hnew).
      unfold PyDict.del.
      rewrite <- app_assoc. cbn [app].
      rewrite (get_app_first key v pre _ Hpre).
      rewrite remove_middle; [|done|].
      2:{ rewrite keys_app, elem_of_app, keys_app, elem_of_app, keys_cons,
            elem_of_cons.
          intros [[H|H]|[H|H]]; [done|done|congruence|].
          by apply elem_of_nil in H. }
      cbn [fbind fret].
      replace (pre ++ (rest ++ post) ++ [(new_key, v')])
        with (pre ++ rest ++ (post ++ [(new_key, v')]))
        by (by rewrite !app_assoc).
      rewrite IH.
      * destruct (resolve_spec_items recs rest wm1)
          as [[[kept renamed] wm2]|err]; cbn [rbind]; [|done].
        by rewrite <- !app_assoc.
      * by apply NoDup_keys3_snoc.
      * intros k Hk Hkend. destruct (Hcol' k Hk Hkend) as [H1 H2].
        rewrite elem_of_keys3 in H1.
        rewrite elem_of_keys3, keys_app, elem_of_app, keys_cons.
        intros [H|[H|[H|H]]]; [tauto|tauto|tauto|].
        apply list_elem_of_singleton in H.
        apply drop_last_inj in H; [|done|done]. by subst k.
      * intros k0 v0 H0. apply (Hrec k0 v0). by right.
    + rewrite (set_middle key v v' pre _ Hpre). cbn [fret fbind].
      replace (pre ++ (key, v') :: rest ++ post)
        with ((pre ++ [(key, v')]) ++ rest ++ post)
        by (by rewrite <- app_assoc).
      rewrite IH.
      * destruct (resolve_spec_items recs rest wm1)
          as [[[kept renamed] wm2]|err]; cbn [rbind]; [|done].
        by rewrite <- !app_assoc.
      * rewrite <- app_assoc. cbn [app].
        rewrite keys_app, keys_cons, keys_app.
        rewrite !keys_app, keys_cons in Hnd. exact Hnd.
      * intros k Hk Hkend. destruct (Hcol' k Hk Hkend) as [H1 H2].
        rewrite elem_of_keys3 in H1.
        rewrite elem_of_keys3, keys_app, elem_of_app, keys_cons.
        intros [[H|H]|[H|H]]; [tauto| |tauto|tauto].
        apply list_elem_of_singleton in H. done.
      * intros k0 v0 H0. apply (Hrec k0 v0). by right.
Qed.
End Loops.

Lemma collision_free_list items :
  collision_free (PList items) = true ->
  forall e, e ∈ items -> collision_free e = true.
Proof.
  cbn [collision_free]. rewrite forallb_forall. intros H e He.
  by apply H, list_elem_of_In.
Qed.

Lemma collision_free_dict items :
  collision_free (PDict items) = true ->
  NoDup (PyDict.keys items)
  /\ (forall k, k ∈ PyDict.keys items ->
                ((k +:+ hash_suffix) ∉ PyDict.keys items))
  /\ (forall k v, (k, v) ∈ items -> collision_free v = true).
Proof.
  cbn [collision_free]. rewrite !andb_true_iff, !forallb_forall.
  intros [[H1 H2] H3]. apply bool_decide_eq_true in H1.
  split; [done|]. split.
  - intros k Hk. apply list_elem_of_fmap in Hk as ([k0 v0] & -> & Hin).
    apply list_elem_of_In, H2 in Hin.
    apply negb_true_iff, bool_decide_eq_false in Hin. done.
  - intros k v Hin. by apply list_elem_of_In, H3 in Hin.
Qed.

(** No key to strip onto another key. *)
Lemma collision_free_strip items k :
  collision_free (PDict items) = true ->
  k ∈ PyDict.keys items ->
  PyStr.endswith k hash_suffix = true ->
  PyStr.drop_last (String.length hash_suffix) k ∉ PyDict.keys items.
Proof.
  intros (_ & Hcol & _)%collision_free_dict Hk Hend Hin.
  apply (Hcol _ Hin). by rewrite <- (endswith_app k hash_suffix Hend).
Qed.

Lemma retrieve_hash_lookup_spec h storage wm :
  retrieve_hash h storage wm = lookup_spec storage h wm.
Proof.
  unfold retrieve_hash, lookup_spec. destruct (wm !! h); [done|].
  destruct (storage !! h) as [o|]; [|done]. by destruct o.
Qed.

(** The code against the contract: on a record without collisions, a call
    with enough fuel for the depth of the record returns what the contract
    says, result, cache and exception alike. *)
Lemma retrieve_storage_spec storage fuel : forall exp wm,
  (depth exp < fuel)%nat ->
  collision_free exp = true ->
  retrieve_storage fuel exp storage wm = Some (resolve_spec storage exp wm).
Proof.
  induction fuel as [|fuel IH]; intros exp wm Hd Hcf; [lia|].
  destruct exp as [| z | h | a | items | items]; try reflexivity.
  - by rewrite retrieve_storage_str, retrieve_hash_lookup_spec.
  - rewrite retrieve_storage_list.
    rewrite (retrieve_list_spec _ (resolve_spec storage)).
    + cbn [resolve_spec fbind].
      by destruct (resolve_spec_list (resolve_spec storage) items wm)
        as [[items' wm']|err].
    + intros e He m. apply IH.
      * pose proof (depth_elem e items He). cbn [depth] in Hd. lia.
      * by eapply collision_free_list.
  - rewrite retrieve_storage_dict.
    destruct (collision_free_dict _ Hcf) as (Hnd & Hcol & Hsub).
    pose proof (retrieve_keys_spec
                  (fun e m => retrieve_storage fuel e storage m)
                  (resolve_spec storage) items [] [] wm) as Hloop.
    rewrite app_nil_r in Hloop. cbn [app] in Hloop.
    rewrite Hloop; [| done | |].
    + cbn [resolve_spec fbind].
      destruct (resolve_spec_items (resolve_spec storage) items wm)
        as [[[kept renamed] wm']|err]; [|done].
      done.
    + intros k Hk Hend. by apply collision_free_strip.
    + intros k v Hin m. apply IH.
      * pose proof (depth_value k v items Hin). cbn [depth] in Hd. lia.
      * by eapply Hsub.
Qed.

Lemma resolve_resolve_spec exp storage wm :
  collision_free exp = true ->
  resolve exp storage wm = resolve_spec storage exp wm.
Proof.
  intros Hcf. pose proof (resolve_no_recursion_error exp storage wm) as H.
  rewrite retrieve_storage_spec in H by (lia || done). by injection H.
Qed.

(** Induction on records. *)
Lemma pyval_nested_ind (P : pyval -> Prop) :
  P PNone -> (forall z, P (PInt z)) -> (forall h, P (PStr h)) ->
  (forall a, P (PArray a)) ->
  (forall items, Forall P items -> P (PList items)) ->
  (forall items, Forall (fun kv => P (snd kv)) items -> P (PDict items)) ->
  forall v, P v.
Proof.
  intros HN HI HS HA HL HD v.
  assert (H : forall n v, (depth v <= n)%nat -> P v).
  { clear v. induction n as [|n IH]; intros v Hd;
      destruct v as [| z | h | a | items | items]; auto;
      cbn [depth] in Hd; try lia.
    - apply HL. apply le_S_n, depth_items_Forall in Hd.
      eapply Forall_impl; [exact Hd|]. intros e He. by apply IH.
    - apply HD. apply le_S_n, depth_dict_Forall in Hd.
      eapply Forall_impl; [exact Hd|]. intros e He. by apply IH. }
  by apply (H (depth v)).
Qed.

Lemma accounted_lookup storage h wm :
  accounted storage [h] wm (lookup_spec storage h wm).
Proof.
  unfold lookup_spec, accounted.
  destruct (wm !! h) as [a|] eqn:E.
  - split; [apply grows_refl|]. intros h' Hh'.
    apply list_elem_of_singleton in Hh' as ->. left. congruence.
  - destruct (storage !! h) as [o|] eqn:Est.
    + destruct o as [| z | s | a | l | d];
        try (exists h; split; [by left|]; split; [done|]; right;
             eexists; split; [done|]; split; [intros a0; discriminate|done]).
      split.
      * intros h' a'. destruct (decide (h = h')) as [<-|Hne].
        -- rewrite lookup_insert_eq. split; [congruence|].
           intros [= <-]. by right.
        -- rewrite lookup_insert_ne by done. split; [done|by left].
      * intros h' Hh'. apply list_elem_of_singleton in Hh' as ->.
        right. congruence.
    + exists h. split; [by left|]. split; [done|]. by left.
Qed.

(** Two resolutions in a row. *)
Lemma accounted_bind {A B : Type} storage hs1 hs2 wm
    (r1 : result (A * weakmap)) (K : A * weakmap -> result (B * weakmap)) :
  accounted storage hs1 wm r1 ->
  (forall a wm1, accounted storage hs2 wm1 (K (a, wm1))) ->
  accounted storage (hs1 ++ hs2) wm (rbind r1 K).
Proof.
  intros H1 H2. destruct r1 as [[a wm1]|e]; cbn [rbind].
  - destruct H1 as [Hg1 Hf1]. specialize (H2 a wm1).
    destruct (K (a, wm1)) as [[b wm2]|e]; cbn [accounted] in *.
    + destruct H2 as [Hg2 Hf2]. split; [by eapply grows_trans|].
      intros h Hh. apply elem_of_app in Hh as [Hh|Hh]; [by apply Hf1|].
      destruct (Hf2 h Hh) as [Hc|Hs]; [|by right].
      destruct (wm1 !! h) as [a1|] eqn:E; [|done].
      destruct (proj2 (Hg1 h a1) E) as [Hw|[_ Hst]];
        [left; congruence | right; congruence].
    + destruct H2 as (h & Hh & Hw & Hcase). exists h.
      split; [apply elem_of_app; by right|]. split; [|done].
      destruct (wm !! h) as [a0|] eqn:E; [|done].
      apply Hg1 in E. congruence.
  - destruct H1 as (h & Hh & Hw & Hcase). exists h.
    split; [apply elem_of_app; by left|]. done.
Qed.

(** A resolution whose result is put in shape, the cache left alone. *)
Lemma accounted_post {A B : Type} storage hs wm
    (r : result (A * weakmap)) (K : A * weakmap -> result (B * weakmap)) :
  accounted storage hs wm r ->
  (forall a wm1, exists b, K (a, wm1) = Ok (b, wm1)) ->
  accounted storage hs wm (rbind r K).
Proof.
  intros H HK. destruct r as [[a wm1]|e]; cbn [rbind]; [|done].
  destruct (HK a wm1) as (b & ->). done.
Qed.

Lemma resolve_spec_list_accounted storage items :
  Forall (fun e => forall wm,
            accounted storage (refs e) wm (resolve_spec storage e wm)) items ->
  forall wm,
    accounted storage (flat_map refs items) wm
      (resolve_spec_list (resolve_spec storage) items wm).
Proof.
  induction 1 as [|e rest He Hrest IH]; intros wm.
  - split; [apply grows_refl|]. intros h Hh. by apply elem_of_nil in Hh.
  - cbn [flat_map resolve_spec_list]. apply accounted_bind; [apply He|].
    intros e' wm1. apply accounted_post; [apply IH|].
    intros rest' wm2. by eexists.
Qed.

Lemma resolve_spec_items_accounted storage (items : PyDict.t) :
  Forall (fun kv => forall wm,
            accounted storage (refs (snd kv)) wm
                      (resolve_spec storage (snd kv) wm)) items ->
  forall wm,
    accounted storage (flat_map (fun kv => refs (snd kv)) items) wm
      (resolve_spec_items (resolve_spec storage) items wm).
Proof.
  induction 1 as [|[key v] rest He Hrest IH]; intros wm.
  - split; [apply grows_refl|]. intros h Hh. by apply elem_of_nil in Hh.
  - cbn [flat_map resolve_spec_items snd]. apply accounted_bind; [apply He|].
    intros v' wm1. apply accounted_post; [apply IH|].
    intros [kept renamed] wm2.
    destruct (PyStr.endswith key hash_suffix); by eexists.
Qed.

(** Every reference of a record is accounted for by the contract. *)
Lemma resolve_spec_accounted storage exp : forall wm,
  accounted storage (refs exp) wm (resolve_spec storage exp wm).
Proof.
  induction exp as [| z | h | a | items IH | items IH]
    using pyval_nested_ind; intros wm;
    try (split; [apply grows_refl|];
         intros h0 Hh0; by apply elem_of_nil in Hh0).
  - apply accounted_lookup.
  - cbn [refs resolve_spec]. apply accounted_post.
    + by apply resolve_spec_list_accounted.
    + intros items' wm'. by eexists.
  - cbn [refs resolve_spec]. apply accounted_post.
    + by apply resolve_spec_items_accounted.
    + intros [kept renamed] wm'. by eexists.
Qed.

End CollectorContract.

Module CollectorContractClaims.
Import Collector PyDictFacts PyStrFacts CollectorFuel CollectorFacts.
Import CollectorRecord CollectorMore CollectorContract.




(** C2, as the code has it.  A message without colliding keys that holds a
    string found neither in the weak cache nor in the storage chunk is not
    resolved: [_retrieve_storage] raises for a reference of the message
    that is not cached, [KeyError] if the chunk does not have it and
    [TypeError] if the chunk's payload for it cannot be weakly referenced;
    when all the other references of the message are cached or have an
    array in the chunk, the exception is the [KeyError] of the missing
    hash.  Nothing catches an exception raised while a message is
    resolved: the thread dies with it, whatever messages follow, and the
    handler gets nothing from this message or the later ones. *)
Theorem missing_hash_raises_and_stops_server
    (exp : pyval) (exphash : string) (storage : chunk) (s : server)
    (rest : list net_event) :
  collision_free exp = true ->
  exphash ∈ refs exp ->
  weakref_map s !! exphash = None ->
  storage !! exphash = None ->
  (exists e,
     resolve exp storage (weakref_map s) = Raise e
     /\ (exists h,
           h ∈ refs exp /\ weakref_map s !! h = None
           /\ ((storage !! h = None /\ e = KeyError h)
               \/ exists o, storage !! h = Some o
                            /\ (forall a, o <> PArray a)
                            /\ e = TypeError "cannot create weak reference"))
     /\ ((forall h, h ∈ refs exp -> h <> exphash ->
            exists a, weakref_map s !! h = Some a
                      \/ storage !! h = Some (PArray a)) ->
         e = KeyError exphash)
     /\ run_from (Recv exp storage :: rest) s = Crashed e (handled s))
  /\ forall exp' e',
       resolve exp' storage (weakref_map s) = Raise e' ->
       run_from (Recv exp' storage :: rest) s = Crashed e' (handled s).
Proof.
  intros Hcf Hin Hwm Hst.
  assert (Hrun : forall exp' e',
    resolve exp' storage (weakref_map s) = Raise e' ->
    run_from (Recv exp' storage :: rest) s = Crashed e' (handled s)).
  { intros exp' e' He. cbn [run_from]. unfold serve. by rewrite He. }
  split; [|exact Hrun].
  pose proof (resolve_spec_accounted storage exp (weakref_map s)) as Hacc.
  assert (Heq : resolve exp storage (weakref_map s)
                = resolve_spec storage exp (weakref_map s)).
  { pose proof (resolve_no_recursion_error exp storage (weakref_map s)) as H.
    rewrite retrieve_storage_spec in H by (lia || done). by injection H. }
  rewrite <- Heq in Hacc.
  destruct (resolve exp storage (weakref_map s)) as [[v wm']|e] eqn:Hres.
  - destruct Hacc as [_ Hfound].
    destruct (Hfound exphash Hin) as [H|H]; congruence.
  - exists e. split; [done|]. split; [exact Hacc|]. split; [|by apply Hrun].
    intros Hothers. destruct Hacc as (h & Hh & Hw & Hcase).
    destruct (decide (h = exphash)) as [->|Hne].
    + destruct Hcase as [[_ ->]|(o & Ho & _)]; [done|congruence].
    + destruct (Hothers h Hh Hne) as (a & [Ha|Ha]); [congruence|].
      destruct Hcase as [[Hn _]|(o & Ho & Hna & _)]; [congruence|].
      rewrite Ha in Ho. injection Ho as <-. by destruct (Hna a).
Qed.

Lemma missing_hash_raises_and_stops_server_witness :
  let unit := PDict [("obs_hash", PStr "abc123")] in
  let later := Recv (PList [PDict [("reward", PInt 1)]]) ∅ in
  run_from [Recv (PList [unit]) ∅; later] (Server ∅ [])
  = Crashed (KeyError "abc123") [].
Proof.
  assert (Hin : "abc123" ∈ refs (PList [PDict [("obs_hash", PStr "abc123")]]))
    by (apply list_elem_of_In; simpl; tauto).
  assert (Hwm : weakref_map (Server ∅ []) !! "abc123" = None)
    by reflexivity.
  assert (Hst : (∅ : chunk) !! "abc123" = None) by reflexivity.
  destruct (proj1 (missing_hash_raises_and_stops_server
                     (PList [PDict [("obs_hash", PStr "abc123")]])
                     "abc123" ∅ (Server ∅ [])
                     [Recv (PList [PDict [("reward", PInt 1)]]) ∅]
                     eq_refl Hin Hwm Hst))
    as (e & _ & _ & Honly & Hrun).
  assert (He : e = KeyError "abc123").
  { apply Honly. intros h Hh Hne. apply list_elem_of_In in Hh.
    simpl in Hh. destruct Hh as [<-|[]]. done. }
  rewrite He in Hrun. exact Hrun.
Defined.

End CollectorContractClaims.

Module CollectorExtra.
Import Collector PyDictFacts PyStrFacts CollectorFuel CollectorFacts.
Import CollectorRecord CollectorMore.

(** X1. A record that holds no string and no key ending in ['_hash'], at any
    depth, comes back from [_retrieve_storage] as it went in, and the weak
    cache is not touched, whatever the chunk holds: numbers, [None], arrays
    and containers of them are terminal. *)
Theorem resolve_hash_free_unchanged
    (exp : pyval) (storage : chunk) (wm : weakmap) :
  hash_free exp = true ->
  resolve exp storage wm = Ok (exp, wm).
Proof.
  intros Hfree. unfold resolve.
  by rewrite retrieve_storage_hash_free by (done || lia).
Qed.

Lemma resolve_hash_free_unchanged_witness :
  let exp := PList [PDict [("reward", PInt 1);
                           ("obs", PArray (NdArray 7 [1; 2; 3]));
                           ("info", PDict [("done", PNone)])]] in
  hash_free exp = true
  /\ resolve exp {["abc123" := PArray (NdArray 8 [4])]} ∅ = Ok (exp, ∅).
Proof.
  split; [reflexivity|].
  exact (resolve_hash_free_unchanged
           (PList [PDict [("reward", PInt 1);
                          ("obs", PArray (NdArray 7 [1; 2; 3]));
                          ("info", PDict [("done", PNone)])]])
           {["abc123" := PArray (NdArray 8 [4])]} ∅ eq_refl).
Defined.

(** X2. When [_retrieve_storage] returns on a record (dictionary keys
    distinct, as in Python), no string is left anywhere in the result: every
    string of the message, under whatever key or in whatever list, was
    replaced by a payload; and the result is again a well-formed record. *)
Theorem resolve_leaves_no_string
    (exp v : pyval) (storage : chunk) (wm wm' : weakmap) :
  well_formed exp = true ->
  resolve exp storage wm = Ok (v, wm') ->
  no_str v = true /\ well_formed v = true.
Proof.
  intros Hwf Hres. apply resolve_Ok in Hres.
  by eapply retrieve_storage_resolved.
Qed.

Lemma resolve_leaves_no_string_witness :
  let arr := NdArray 7 [1; 2; 3] in
  let exp := PList [PDict [("obs_hash", PList [PStr "abc123"; PStr "abc123"]);
                           ("tag", PStr "abc123")]] in
  well_formed exp = true
  /\ resolve exp {["abc123" := PArray arr]} ∅
     = Ok (PList [PDict [("tag", PArray arr);
                         ("obs", PList [PArray arr; PArray arr])]],
           {["abc123" := arr]})
  /\ no_str (PList [PDict [("tag", PArray arr);
                           ("obs", PList [PArray arr; PArray arr])]]) = true.
Proof.
  split; [reflexivity|]. split; [reflexivity|].
  exact (proj1 (resolve_leaves_no_string
    (PList [PDict [("obs_hash", PList [PStr "abc123"; PStr "abc123"]);
                   ("tag", PStr "abc123")]])
    _ {["abc123" := PArray (NdArray 7 [1; 2; 3])]} ∅ _ eq_refl eq_refl)).
Defined.

(** X3. A call of [_retrieve_storage] that returns only adds to the weak
    cache: every entry it had is still there with the same object, even when
    the chunk carries another payload under that hash, and every new entry
    is the chunk's payload for its hash. *)
Theorem resolve_cache_grows
    (exp v : pyval) (storage : chunk) (wm wm' : weakmap) :
  resolve exp storage wm = Ok (v, wm') ->
  (forall h a, wm !! h = Some a -> wm' !! h = Some a)
  /\ (forall h a, wm' !! h = Some a ->
                  wm !! h = Some a
                  \/ (wm !! h = None /\ storage !! h = Some (PArray a))).
Proof.
  intros Hres. apply resolve_Ok, retrieve_storage_grows in Hres.
  split; intros h a; apply Hres.
Qed.

Lemma resolve_cache_grows_witness :
  let old := NdArray 7 [1; 2; 3] in
  let new := NdArray 8 [4] in
  resolve (PDict [("obs_hash", PStr "abc123"); ("act_hash", PStr "def456")])
          {["abc123" := PArray new; "def456" := PArray new]}
          {["abc123" := old]}
  = Ok (PDict [("obs", PArray old); ("act", PArray new)],
        {["abc123" := old; "def456" := new]})
  /\ ({["abc123" := old; "def456" := new]} : weakmap) !! "abc123" = Some old.
Proof.
  split; [reflexivity|].
  refine (proj1 (resolve_cache_grows
    (PDict [("obs_hash", PStr "abc123"); ("act_hash", PStr "def456")]) _
    {["abc123" := PArray (NdArray 8 [4]); "def456" := PArray (NdArray 8 [4])]}
    {["abc123" := NdArray 7 [1; 2; 3]]} _ eq_refl) "abc123" _ eq_refl).
Defined.

(** X4. A hash that is not cached and whose payload in the chunk is not an
    array (a number, [None], a string, a list, a dictionary) cannot be put
    in the [WeakValueDictionary]: [_retrieve_storage] raises [TypeError]
    although the chunk holds the hash, and the server thread ends on it. *)
Theorem unreferenceable_payload_raises
    (exphash key : string) (o : pyval) (storage : chunk) (s : server)
    (rest : list net_event) :
  weakref_map s !! exphash = None ->
  storage !! exphash = Some o ->
  (forall a, o <> PArray a) ->
  resolve (PStr exphash) storage (weakref_map s)
  = Raise (TypeError "cannot create weak reference")
  /\ run_from (Recv (PList [PStr exphash]) storage :: rest) s
     = Crashed (TypeError "cannot create weak reference") (handled s).
Proof.
  intros Hwm Hst Hno.
  assert (H : resolve (PStr exphash) storage (weakref_map s)
              = Raise (TypeError "cannot create weak reference")).
  { rewrite resolve_str. unfold retrieve_hash. rewrite Hwm, Hst.
    destruct o; try done. by destruct (Hno a). }
  split; [done|]. cbn [run_from]. unfold serve.
  rewrite resolve_list. cbn [resolve_each]. by rewrite H.
Qed.

Lemma unreferenceable_payload_raises_witness :
  run_from [Recv (PList [PStr "abc123"]) {["abc123" := PList [PInt 1]]}]
           (Server ∅ [])
  = Crashed (TypeError "cannot create weak reference") [].
Proof.
  refine (proj2 (unreferenceable_payload_raises
    "abc123" "obs_hash" (PList [PInt 1]) {["abc123" := PList [PInt 1]]}
    (Server ∅ []) [] eq_refl eq_refl _)).
  intros a H. discriminate H.
Defined.

(** X5. The weak cache does not keep a payload alive: once the payload
    cached under a hash has died, a reference to that hash needs the chunk
    again.  It raises [KeyError] when the chunk lacks the hash, and
    otherwise resolves to the chunk's object, which is cached anew. *)
Theorem expired_hash_needs_chunk
    (exphash : string) (dead : list string) (storage : chunk) (wm : weakmap) :
  exphash ∈ dead ->
  (storage !! exphash = None ->
   resolve (PStr exphash) storage (expire dead wm)
   = Raise (KeyError exphash))
  /\ (forall a, storage !! exphash = Some (PArray a) ->
                resolve (PStr exphash) storage (expire dead wm)
                = Ok (PArray a, <[exphash := a]> (expire dead wm))).
Proof.
  intros Hdead. pose proof (expire_lookup_dead dead wm exphash Hdead) as Hnone.
  split.
  - intros Hst. rewrite resolve_str. by apply retrieve_hash_missing.
  - intros a Hst. rewrite resolve_str. unfold retrieve_hash.
    by rewrite Hnone, Hst.
Qed.

Lemma expired_hash_needs_chunk_witness :
  let old := NdArray 7 [1; 2; 3] in
  let new := NdArray 8 [1; 2; 3] in
  "abc123" ∈ ["abc123"]
  /\ resolve (PStr "abc123") ∅ (expire ["abc123"] {["abc123" := old]})
     = Raise (KeyError "abc123")
  /\ resolve (PStr "abc123") {["abc123" := PArray new]}
             (expire ["abc123"] {["abc123" := old]})
     = Ok (PArray new,
           <["abc123" := new]> (expire ["abc123"] {["abc123" := old]})).
Proof.
  assert (H : "abc123" ∈ ["abc123"]) by (apply list_elem_of_In; by left).
  split; [exact H|]. split.
  - exact (proj1 (expired_hash_needs_chunk
                    "abc123" ["abc123"] ∅
                    {["abc123" := NdArray 7 [1; 2; 3]]} H) eq_refl).
  - exact (proj2 (expired_hash_needs_chunk
                    "abc123" ["abc123"]
                    {["abc123" := PArray (NdArray 8 [1; 2; 3])]}
                    {["abc123" := NdArray 7 [1; 2; 3]]} H) _ eq_refl).
Defined.

(** X7. [run] iterates over whatever [_retrieve_storage] returns.  For a
    message whose payload is a dictionary and not a list of units, the
    handler is called with the keys of the resolved dictionary, one string
    each, not with the experience; for a payload that is [None] or a number
    the loop raises [TypeError] and the thread ends. *)
Theorem serve_bare_payload
    (storage : chunk) (s : server) :
  (forall items v wm',
      resolve (PDict items) storage (weakref_map s) = Ok (v, wm') ->
      exists items',
        v = PDict items'
        /\ serve (PDict items) storage s
           = Waiting (Server wm' (handled s
                                  ++ map PStr (PyDict.keys items'))))
  /\ serve PNone storage s
     = Crashed (TypeError "object is not iterable") (handled s)
  /\ (forall z, serve (PInt z) storage s
                = Crashed (TypeError "object is not iterable") (handled s)).
Proof.
  split; [|split; [done | done]].
  intros items v wm' Hres. pose proof Hres as Hfuel.
  apply resolve_Ok in Hfuel.
  change (depth (PDict items))
    with (S (max_list (map (fun kv => depth (snd kv)) items))) in Hfuel.
  rewrite retrieve_storage_dict in Hfuel.
  destruct (retrieve_keys _ _ (items, weakref_map s))
    as [[[items' wm1]|err]|]; [|done|done].
  cbn [fbind] in Hfuel. injection Hfuel as <- <-.
  exists items'. split; [done|]. unfold serve. by rewrite Hres.
Qed.

Lemma serve_bare_payload_witness :
  let arr := NdArray 7 [1; 2; 3] in
  serve (PDict [("obs_hash", PStr "abc123"); ("reward", PInt 1)])
        {["abc123" := PArray arr]} (Server ∅ [])
  = Waiting (Server {["abc123" := arr]} [PStr "reward"; PStr "obs"]).
Proof.
  assert (Hres :
    resolve (PDict [("obs_hash", PStr "abc123"); ("reward", PInt 1)])
            {["abc123" := PArray (NdArray 7 [1; 2; 3])]}
            (weakref_map (Server ∅ []))
    = Ok (PDict [("reward", PInt 1); ("obs", PArray (NdArray 7 [1; 2; 3]))],
          {["abc123" := NdArray 7 [1; 2; 3]]})) by reflexivity.
  destruct (proj1 (serve_bare_payload
                     {["abc123" := PArray (NdArray 7 [1; 2; 3])]}
                     (Server ∅ [])) _ _ _ Hres) as (items' & Hv & Hserve).
  injection Hv as <-. exact Hserve.
Defined.

End CollectorExtra.

(** ** The shell: further properties *)

Module ShellMore.
Import Shell ShellFacts.

(** *** Sorting names *)

Lemma leb_le x y : String.leb x y = true <-> String.le x y.
Proof. unfold String.le. by rewrite Is_true_true. Qed.

Lemma insert_sorted_perm x l : PyStr.insert_sorted x l ≡ₚ x :: l.
Proof.
  induction l as [|y l IH]; simpl; [done|].
  destruct (String.leb x y); [done|].
  rewrite IH. apply Permutation_swap.
Qed.

Lemma sorted_perm l : PyStr.sorted l ≡ₚ l.
Proof.
  induction l as [|x l IH]; simpl; [done|].
  by rewrite insert_sorted_perm, IH.
Qed.

Lemma insert_sorted_Sorted x l :
  Sorted String.le l -> Sorted String.le (PyStr.insert_sorted x l).
Proof.
  induction 1 as [|y l Hl IH Hy]; simpl.
  - by repeat constructor.
  - destruct (String.leb x y) eqn:E.
    + apply leb_le in E. by repeat constructor.
    + assert (Hyx : String.le y x).
      { destruct (total String.le x y) as [H|H]; [|done].
        apply leb_le in H. congruence. }
      constructor; [done|].
      destruct Hy as [|z l Hz]; simpl; [by constructor|].
      destruct (String.leb x z); by constructor.
Qed.

Lemma sorted_Sorted l : Sorted String.le (PyStr.sorted l).
Proof.
  induction l as [|x l IH]; simpl; [constructor|].
  by apply insert_sorted_Sorted.
Qed.

(** Two lists of names sort to the same list exactly when they are
    rearrangements of each other. *)
Lemma sorted_eq_iff l1 l2 : PyStr.sorted l1 = PyStr.sorted l2 <-> l1 ≡ₚ l2.
Proof.
  split.
  - intros H. by rewrite <- (sorted_perm l1), H, sorted_perm.
  - intros H. apply (Sorted_unique String.le); try apply sorted_Sorted.
    by rewrite !sorted_perm.
Qed.

(** *** The assign ops *)

Lemma dict_keys_of_go (names acc : list string) :
  NoDup (acc ++ names) ->
  fold_left (fun acc n => if bool_decide (n ∈ acc) then acc else acc ++ [n])
            names acc
  = acc ++ names.
Proof.
  revert acc. induction names as [|n names IH]; intros acc Hnd; simpl.
  - by rewrite app_nil_r.
  - assert (Hn : n ∉ acc).
    { apply NoDup_app in Hnd as (_ & Hdis & _). intros Hin.
      apply (Hdis n Hin). by left. }
    rewrite bool_decide_eq_false_2 by done.
    rewrite IH; rewrite <- app_assoc; done.
Qed.

Lemma dict_keys_of_NoDup names : NoDup names -> dict_keys_of names = names.
Proof. intros H. unfold dict_keys_of. by rewrite dict_keys_of_go. Qed.

Lemma dict_keys_of_go_NoDup (names acc : list string) :
  NoDup acc ->
  NoDup (fold_left
           (fun acc n => if bool_decide (n ∈ acc) then acc else acc ++ [n])
           names acc).
Proof.
  revert acc. induction names as [|n names IH]; intros acc Hnd; simpl; [done|].
  apply IH. case_bool_decide; [done|].
  apply NoDup_app. split; [done|]. split; [|apply NoDup_singleton].
  intros x Hx Hx'. apply list_elem_of_singleton in Hx' as ->. done.
Qed.

Lemma dict_keys_of_is_NoDup names : NoDup (dict_keys_of names).
Proof. apply dict_keys_of_go_NoDup. constructor. Qed.

Lemma run_assign_ops_spec names (var_vals sess : gmap string tensor) done :
  (forall k, k ∈ names -> is_Some (var_vals !! k)) ->
  exists sess',
    run_assign_ops names var_vals sess done = Ok (sess', done ++ names)
    /\ (forall k, k ∈ names -> sess' !! k = var_vals !! k)
    /\ (forall k, k ∉ names -> sess' !! k = sess !! k).
Proof.
  revert sess done. induction names as [|n names IH]; intros sess done Hall.
  - exists sess. simpl. rewrite app_nil_r. split; [done|].
    split; [|done]. intros k Hk. by apply elem_of_nil in Hk.
  - destruct (Hall n) as [value Hv]; [by left|].
    destruct (IH (<[n := value]> sess) (done ++ [n])) as (sess' & Hrun & Hin & Hout).
    { intros k Hk. apply Hall. by right. }
    exists sess'. simpl. rewrite Hv, Hrun, <- app_assoc. split; [done|].
    split.
    + intros k Hk. destruct (decide (k ∈ names)) as [Hk'|Hk']; [by apply Hin|].
      apply elem_of_cons in Hk as [->|Hk]; [|done].
      rewrite (Hout n Hk'), lookup_insert_eq. done.
    + intros k Hk. apply not_elem_of_cons in Hk as [Hne Hk].
      rewrite (Hout k Hk). by rewrite lookup_insert_ne.
Qed.

Lemma keys_map_to_list (m : gmap string tensor) k :
  k ∈ map fst (map_to_list m) <-> is_Some (m !! k).
Proof.
  rewrite list_elem_of_fmap. split.
  - intros ([k' v] & -> & Hin). apply elem_of_map_to_list in Hin. eauto.
  - intros [v Hv]. exists (k, v). split; [done|].
    by apply elem_of_map_to_list.
Qed.

(** *** The sync schedule *)

Lemma init_sync_checker_Ok sp c :
  init_sync_checker sp = Ok c ->
  match sp with
  | Some p => p <> 0 /\ c = SyncEveryNSteps p
  | None => c = SyncNever
  end.
Proof.
  destruct sp as [p|]; simpl; [|by intros [= <-]].
  unfold py_mod. destruct (p =? 0) eqn:E; simpl; [done|].
  apply Z.eqb_neq in E. cbn. by intros [= <-].
Qed.

Lemma steps_every n p i synced :
  p <> 0 ->
  exists synced',
    steps n (SyncEveryNSteps p) i synced
    = Ok (i + Z.of_nat n, synced ++ synced')
    /\ forall k, k ∈ synced' <-> (i <= k < i + Z.of_nat n /\ k mod p = 0).
Proof.
  intros Hp. revert i synced.
  induction n as [|n IH]; intros i synced.
  - exists []. simpl. rewrite app_nil_r, Z.add_0_r. split; [done|].
    intros k. split; [intros H; by apply elem_of_nil in H | lia].
  - cbn [steps]. unfold step_sync, should_sync, py_mod.
    apply Z.eqb_neq in Hp as Hp'. rewrite Hp'. cbn [rbind].
    destruct (i mod p =? 0) eqn:E.
    + apply Z.eqb_eq in E.
      destruct (IH (i + 1) (synced ++ [i])) as (synced' & -> & Hchar).
      exists (i :: synced'). split.
      * f_equal. f_equal; [lia|]. by rewrite <- app_assoc.
      * intros k. rewrite elem_of_cons, Hchar.
        split; [intros [->|?]; [split; [lia | done] | split; [lia | tauto]]|].
        intros [Hr Hm]. destruct (decide (k = i)); [by left|].
        right. split; [lia | done].
    + apply Z.eqb_neq in E.
      destruct (IH (i + 1) synced) as (synced' & -> & Hchar).
      exists synced'. split; [f_equal; f_equal; lia|].
      intros k. rewrite Hchar. split; [intros [? ?]; split; [lia | done]|].
      intros [Hr Hm]. split; [|done].
      destruct (decide (k = i)) as [->|]; [done | lia].
Qed.

Lemma steps_never n i synced :
  steps n SyncNever i synced = Ok (i + Z.of_nat n, synced).
Proof.
  revert i. induction n as [|n IH]; intros i.
  - simpl. by rewrite Z.add_0_r.
  - cbn [steps]. unfold step_sync, should_sync. cbn [rbind].
    rewrite IH. f_equal. f_equal. lia.
Qed.

(** *** The loop of restore_from_checkpoint *)

(** The rescoped names of the checkpoint's variables that are names of
    variables of the shell, in checkpoint order. *)
Lemma matched_cons_in scope (var_names : list string) v l :
  rescope scope v ∈ var_names ->
  filter (.∈ var_names) (rescope scope <$> v :: l)
  = rescope scope v :: filter (.∈ var_names) (rescope scope <$> l).
Proof. intros H. rewrite fmap_cons. by rewrite filter_cons_True. Qed.

Lemma matched_cons_out scope (var_names : list string) v l :
  rescope scope v ∉ var_names ->
  filter (.∈ var_names) (rescope scope <$> v :: l)
  = filter (.∈ var_names) (rescope scope <$> l).
Proof. intros H. rewrite fmap_cons. by rewrite filter_cons_False. Qed.

Lemma restore_step_in scope var_names v st :
  rescope scope v ∈ var_names ->
  restore_step scope var_names v st
  = if bool_decide (rescope scope v ∈ var_names_left st)
    then match index_of (rescope scope v) var_names with
         | Some i =>
             Ok (RestoreState (<[v := i]> (restore_map st))
                              (var_names_left st ∖ {[rescope scope v]})
                              (unrestored st))
         | None => Ok st
         end
    else Raise (KeyError (rescope scope v)).
Proof.
  intros Hin. unfold restore_step.
  destruct (index_of_elem _ _ Hin) as (i & ->). done.
Qed.

Lemma restore_step_out scope var_names v st :
  rescope scope v ∉ var_names ->
  exists un, restore_step scope var_names v st
             = Ok (RestoreState (restore_map st) (var_names_left st) un).
Proof.
  intros Hout. unfold restore_step.
  apply index_of_None in Hout. rewrite Hout.
  destruct (not_required v); [|eauto]. destruct st. eauto.
Qed.

(** The loop goes through exactly when the checkpoint's variables that
    match do so one to one and are still awaited. *)
Lemma restore_loop_Ok_iff scope var_names l st :
  (exists st', restore_loop scope var_names l st = Ok st')
  <-> (NoDup (filter (.∈ var_names) (rescope scope <$> l))
       /\ forall n, n ∈ filter (.∈ var_names) (rescope scope <$> l) ->
                    n ∈ var_names_left st).
Proof.
  revert st. induction l as [|v l IH]; intros st.
  - simpl. split; [intros _|eauto]. split; [constructor|].
    intros n Hn. by apply elem_of_nil in Hn.
  - cbn [restore_loop].
    destruct (decide (rescope scope v ∈ var_names)) as [Hin|Hout].
    + rewrite matched_cons_in by done. rewrite restore_step_in by done.
      destruct (index_of_elem _ _ Hin) as (i & Hi). rewrite Hi.
      case_bool_decide as Hleft; cbn [rbind].
      * rewrite IH. cbn [var_names_left]. rewrite NoDup_cons. split.
        -- intros [Hnd Hsub]. split.
           ++ split; [|done]. intros Hm. apply Hsub in Hm.
              apply elem_of_difference in Hm as [_ Hm]. apply Hm.
              by apply elem_of_singleton.
           ++ intros n Hn. apply elem_of_cons in Hn as [->|Hn]; [done|].
              apply Hsub in Hn. by apply elem_of_difference in Hn as [? _].
        -- intros [[Hnin Hnd] Hsub]. split; [done|]. intros n Hn.
           apply elem_of_difference. split; [apply Hsub; by right|].
           intros ->%elem_of_singleton. done.
      * split; [by intros [st' ?]|]. intros [_ Hsub].
        destruct Hleft. apply Hsub. by left.
    + rewrite matched_cons_out by done.
      destruct (restore_step_out scope var_names v st Hout) as (un & ->).
      cbn [rbind]. by rewrite IH.
Qed.

(** The only exception of the loop is the [KeyError] of [set.remove]. *)
Lemma restore_loop_raise scope var_names l st e :
  restore_loop scope var_names l st = Raise e ->
  exists v, v ∈ l /\ e = KeyError (rescope scope v)
            /\ rescope scope v ∈ var_names.
Proof.
  revert st. induction l as [|v l IH]; intros st; [done|].
  cbn [restore_loop].
  destruct (decide (rescope scope v ∈ var_names)) as [Hin|Hout].
  - rewrite restore_step_in by done.
    destruct (index_of_elem _ _ Hin) as (i & ->).
    case_bool_decide; cbn [rbind].
    + intros (v' & ? & ? & ?)%IH. exists v'. split; [by right | done].
    + intros [= <-]. exists v. split; [by left | done].
  - destruct (restore_step_out scope var_names v st Hout) as (un & ->).
    cbn [rbind]. intros (v' & ? & ? & ?)%IH. exists v'.
    split; [by right | done].
Qed.

(** Where the entries of the restore map come from. *)
Lemma restore_loop_map_inv scope var_names l st st' v i :
  restore_loop scope var_names l st = Ok st' ->
  restore_map st' !! v = Some i ->
  restore_map st !! v = Some i
  \/ (v ∈ l /\ index_of (rescope scope v) var_names = Some i).
Proof.
  revert st. induction l as [|v0 l IH]; intros st.
  - intros [= <-]. by left.
  - cbn [restore_loop].
    destruct (restore_step scope var_names v0 st) as [st1|e] eqn:Hstep;
      cbn [rbind]; [|done].
    intros Hloop Hget. destruct (IH _ Hloop Hget) as [Hst1|[Hin Hi]].
    + unfold restore_step in Hstep.
      destruct (index_of (rescope scope v0) var_names) as [i0|] eqn:Hi0.
      * case_bool_decide; [|done]. injection Hstep as <-. simpl in Hst1.
        destruct (decide (v0 = v)) as [->|Hne].
        -- rewrite lookup_insert_eq in Hst1. injection Hst1 as <-.
           right. split; [by left | done].
        -- rewrite lookup_insert_ne in Hst1 by done. by left.
      * destruct (not_required v0); injection Hstep as <-; by left.
    + right. split; [by right | done].
Qed.

(** *** Splitting names *)

Lemma split_nonempty sep s : PyStr.split sep s <> [].
Proof.
  destruct s as [|c s]; simpl; [done|].
  destruct (Ascii.eqb c sep); [done|]. by destruct (PyStr.split sep s).
Qed.

(** Up to the first separator. *)
Lemma split_app_sep sep a b :
  ~ In sep (list_ascii_of_string a) ->
  PyStr.split sep (a +:+ String sep b) = a :: PyStr.split sep b.
Proof.
  induction a as [|c a IH]; intros Hnot.
  - change ("" +:+ String sep b) with (String sep b). simpl.
    by rewrite Ascii.eqb_refl.
  - change (String c a +:+ String sep b) with (String c (a +:+ String sep b)).
    simpl in *. destruct (Ascii.eqb c sep) eqn:E.
    + apply Ascii.eqb_eq in E. tauto.
    + rewrite IH by tauto. done.
Qed.

Lemma split_no_sep sep a :
  ~ In sep (list_ascii_of_string a) -> PyStr.split sep a = [a].
Proof.
  induction a as [|c a IH]; intros Hnot; [done|].
  simpl in *. destruct (Ascii.eqb c sep) eqn:E.
  - apply Ascii.eqb_eq in E. tauto.
  - rewrite IH by tauto. done.
Qed.

(** [sep.join(s.split(sep)) == s] *)
Lemma join_split sep s :
  PyStr.join (String sep EmptyString) (PyStr.split sep s) = s.
Proof.
  induction s as [|c s IH]; [done|]. simpl.
  destruct (Ascii.eqb c sep) eqn:E.
  - apply Ascii.eqb_eq in E as ->.
    pose proof (split_nonempty sep s) as Hne.
    destruct (PyStr.split sep s) as [|w ws] eqn:Es; [done|].
    change (PyStr.join (String sep "") ("" :: w :: ws))
      with (String sep (PyStr.join (String sep "") (w :: ws))).
    by rewrite IH.
  - pose proof (split_nonempty sep s) as Hne.
    destruct (PyStr.split sep s) as [|w ws] eqn:Es; [done|].
    destruct ws as [|w' ws].
    + simpl in *. by rewrite IH.
    + change (PyStr.join (String sep "") (String c w :: w' :: ws))
        with (String c (PyStr.join (String sep "") (w :: w' :: ws))).
      by rewrite IH.
Qed.

Lemma rescope_path scope top path :
  ~ In "/"%char (list_ascii_of_string top) ->
  rescope scope (top +:+ String "/" path) = scope +:+ String "/" path.
Proof.
  intros Hnot. unfold rescope. rewrite split_app_sep by done.
  cbn [tl]. by rewrite join_split.
Qed.

Lemma rescope_top scope top :
  ~ In "/"%char (list_ascii_of_string top) ->
  rescope scope top = scope +:+ "/".
Proof. intros Hnot. unfold rescope. by rewrite split_no_sep. Qed.

Lemma strip_index_colon name idx :
  ~ In ":"%char (list_ascii_of_string name) ->
  strip_index (name +:+ String ":" idx) = name.
Proof. intros Hnot. unfold strip_index. by rewrite split_app_sep. Qed.

End ShellMore.

Module ShellExtra.
Import Shell ShellFacts ShellMore.

(** X8. For a shell whose constructor went through, [step] never raises on
    the sync check, and over the first [n] calls it calls [self.sync()]
    exactly at the step numbers that are multiples of the sync period,
    step 0 included; built without a sync period it never syncs. *)
Theorem step_sync_schedule
    (sync_period : option Z) (c : sync_checker) (n : nat) :
  init_sync_checker sync_period = Ok c ->
  exists synced,
    steps n c 0 [] = Ok (Z.of_nat n, synced)
    /\ forall k, k ∈ synced
                 <-> (0 <= k < Z.of_nat n
                      /\ match sync_period with
                         | Some p => k mod p = 0
                         | None => False
                         end).
Proof.
  intros Hinit. apply init_sync_checker_Ok in Hinit.
  destruct sync_period as [p|].
  - destruct Hinit as [Hp ->].
    destruct (steps_every n p 0 [] Hp) as (synced & Hrun & Hchar).
    exists synced. by rewrite Hrun.
  - subst c. exists []. rewrite steps_never. split; [done|].
    intros k. split; [intros H; by apply elem_of_nil in H | tauto].
Qed.

Lemma step_sync_schedule_witness :
  init_sync_checker (Some 10) = Ok (SyncEveryNSteps 10)
  /\ steps 25 (SyncEveryNSteps 10) 0 [] = Ok (25, [0; 10; 20])
  /\ exists synced,
       steps 25 (SyncEveryNSteps 10) 0 [] = Ok (Z.of_nat 25, synced)
       /\ forall k, k ∈ synced <-> (0 <= k < Z.of_nat 25 /\ k mod 10 = 0).
Proof.
  split; [reflexivity|]. split; [reflexivity|].
  exact (step_sync_schedule (Some 10) (SyncEveryNSteps 10) 25 eq_refl).
Defined.

(** X9. When the fetch gives a value for exactly the variables of the
    shell, [_sync_variables] passes its assertion and runs one assign op
    per variable, in the order of the variables: afterwards each variable
    holds the fetched value, and nothing else in the session has changed. *)
Theorem sync_assigns_fetched_values
    (ps : parameter_server) (s : shell) (m : params) :
  pull_vars ps s = Some m ->
  variable_names s <> [] ->
  NoDup (variable_names s) ->
  (forall k, k ∈ variable_names s <-> is_Some (m !! k)) ->
  exists sess',
    sync_variables ps s
    = Ok (MkShell (agent_scope s) (variable_names s) sess', variable_names s)
    /\ (forall k, k ∈ variable_names s -> sess' !! k = m !! k)
    /\ (forall k, k ∉ variable_names s -> sess' !! k = session s !! k).
Proof.
  intros Hpull Hne Hnd Hkeys.
  assert (Hm : m <> ∅).
  { intros ->. destruct (variable_names s) as [|k ks]; [done|].
    destruct (proj1 (Hkeys k) ltac:(by left)) as [v Hv].
    by rewrite lookup_empty in Hv. }
  destruct (run_assign_ops_spec (variable_names s) m (session s) [])
    as (sess' & Hrun & Hin & Hout).
  { intros k Hk. by apply Hkeys. }
  exists sess'. split; [|done].
  unfold sync_variables. rewrite Hpull. unfold truthy.
  rewrite bool_decide_eq_false_2 by done. cbn [negb].
  unfold assign_op_names. rewrite (dict_keys_of_NoDup _ Hnd).
  rewrite bool_decide_eq_true_2.
  - by rewrite Hrun.
  - split; [|done]. apply sorted_eq_iff, NoDup_Permutation.
    + apply NoDup_fst_map_to_list.
    + done.
    + intros k. by rewrite keys_map_to_list, Hkeys.
Qed.

Lemma sync_assigns_fetched_values_witness :
  let s := MkShell "shell" ["shell/w:0"; "shell/b:0"]
                   {["shell/w:0" := [0]; "other" := [9]]} in
  let ps := publish "shell" [("b:0", [3]); ("w:0", [1; 2])]
                    (ParameterServer None 0) in
  sync_variables ps s
  = Ok (MkShell "shell" ["shell/w:0"; "shell/b:0"]
                {["shell/w:0" := [1; 2]; "shell/b:0" := [3]; "other" := [9]]},
        ["shell/w:0"; "shell/b:0"])
  /\ exists sess',
       sync_variables ps s
       = Ok (MkShell "shell" ["shell/w:0"; "shell/b:0"] sess',
             ["shell/w:0"; "shell/b:0"])
       /\ (forall k, k ∈ ["shell/w:0"; "shell/b:0"] ->
                     sess' !! k
                     = ({["shell/b:0" := [3]; "shell/w:0" := [1; 2]]}
                          : params) !! k)
       /\ (forall k, k ∉ ["shell/w:0"; "shell/b:0"] ->
                     sess' !! k
                     = ({["shell/w:0" := [0]; "other" := [9]]} : params) !! k).
Proof.
  split; [by vm_compute|].
  refine (sync_assigns_fetched_values
            (publish "shell" [("b:0", [3]); ("w:0", [1; 2])]
                     (ParameterServer None 0))
            (MkShell "shell" ["shell/w:0"; "shell/b:0"]
                     {["shell/w:0" := [0]; "other" := [9]]})
            {["shell/b:0" := [3]; "shell/w:0" := [1; 2]]} _ _ _ _).
  - by vm_compute.
  - done.
  - apply NoDup_cons. split; [|apply NoDup_singleton].
    intros H. apply list_elem_of_singleton in H. discriminate H.
  - intros k. split.
    + intros H. apply elem_of_cons in H as [->|H]; [by eexists|].
      apply list_elem_of_singleton in H as ->. by eexists.
    + intros [v Hv].
      destruct (decide (k = "shell/b:0")) as [->|Hb];
        [apply elem_of_cons; right; by apply list_elem_of_singleton|].
      destruct (decide (k = "shell/w:0")) as [->|Hw]; [by left|].
      rewrite lookup_insert_ne, lookup_singleton_ne in Hv by done.
      done.
Defined.



(** X11. When two variables of the checkpoint rescope to the same variable
    of the shell (the same path under two top-level scopes), the second one
    makes [var_names_left.remove] raise: [restore_from_checkpoint] raises
    [KeyError] with the name of a variable of the shell, not the
    [Exception] of its own checks. *)
Theorem restore_ambiguous_checkpoint_raises_KeyError
    (s : shell) (l : list (string * list nat)) :
  let required := map strip_index (variable_names s) in
  ~ NoDup (filter (.∈ required) (rescope (agent_scope s) <$> map fst l)) ->
  exists k, restore_from_checkpoint s l = Raise (KeyError k) /\ k ∈ required.
Proof.
  intros required Hdup. unfold restore_from_checkpoint. fold required.
  destruct (restore_loop (agent_scope s) required (map fst l)
              (RestoreState ∅ (list_to_set required) [])) as [st|e] eqn:Hloop.
  - destruct Hdup.
    by apply (proj1 (restore_loop_Ok_iff _ _ _ _) (ex_intro _ st Hloop)).
  - apply restore_loop_raise in Hloop as (v & _ & -> & Hin).
    cbn [rbind]. eauto.
Qed.

Lemma restore_ambiguous_checkpoint_raises_KeyError_witness :
  let s := MkShell "shell" ["shell/gcn/w:0"] ∅ in
  let l := [("learner/gcn/w", [4%nat]); ("target/gcn/w", [4%nat])] in
  restore_from_checkpoint s l = Raise (KeyError "shell/gcn/w")
  /\ exists k, restore_from_checkpoint s l = Raise (KeyError k)
               /\ k ∈ map strip_index ["shell/gcn/w:0"].
Proof.
  split; [reflexivity|].
  refine (restore_ambiguous_checkpoint_raises_KeyError
            (MkShell "shell" ["shell/gcn/w:0"] ∅)
            [("learner/gcn/w", [4%nat]); ("target/gcn/w", [4%nat])] _).
  vm_compute. intros H. apply NoDup_cons in H as [H _].
  apply H. by left.
Defined.

(** X12. When [restore_from_checkpoint] returns, the [var_list] given to the
    saver holds exactly the checkpoint variables whose rescoped name is the
    name of a variable of the shell, each sent to the position of that
    variable: the optimizer slots and the other variables the shell skips
    are not restored into anything. *)
Theorem restore_map_is_exact
    (s : shell) (l : list (string * list nat)) (rm : gmap string nat) :
  restore_from_checkpoint s l = Ok rm ->
  forall v i,
    rm !! v = Some i
    <-> (v ∈ map fst l
         /\ index_of (rescope (agent_scope s) v)
                     (map strip_index (variable_names s)) = Some i).
Proof.
  unfold restore_from_checkpoint.
  set (required := map strip_index (variable_names s)).
  destruct (restore_loop (agent_scope s) required (map fst l)
              (RestoreState ∅ (list_to_set required) [])) as [st|e] eqn:Hloop;
    cbn [rbind]; [|done].
  case_bool_decide; cbn [negb]; [|done].
  case_bool_decide; cbn [negb]; [|done].
  intros [= <-] v i. split.
  - intros Hget.
    destruct (restore_loop_map_inv _ _ _ _ _ _ _ Hloop Hget) as [H1|H1];
      [|done].
    simpl in H1. by rewrite lookup_empty in H1.
  - intros [Hin Hi].
    apply restore_loop_spec in Hloop as (_ & _ & Hmap).
    apply Hmap; [done | by left].
Qed.

Lemma restore_map_is_exact_witness :
  let s := MkShell "shell" ["shell/gcn/w:0"; "shell/gcn/b:0"] ∅ in
  let l := [("learner/gcn/b", [4%nat]); ("learner/adam/m", [4%nat]);
            ("learner/gcn/w", [4%nat; 4%nat])] in
  restore_from_checkpoint s l
  = Ok {["learner/gcn/b" := 1%nat; "learner/gcn/w" := 0%nat]}
  /\ (({["learner/gcn/b" := 1%nat; "learner/gcn/w" := 0%nat]}
         : gmap string nat) !! "learner/gcn/w" = Some 0%nat
      <-> ("learner/gcn/w" ∈ map fst l
           /\ index_of (rescope "shell" "learner/gcn/w")
                       (map strip_index ["shell/gcn/w:0"; "shell/gcn/b:0"])
              = Some 0%nat)).
Proof.
  split; [reflexivity|].
  exact (restore_map_is_exact
           (MkShell "shell" ["shell/gcn/w:0"; "shell/gcn/b:0"] ∅)
           [("learner/gcn/b", [4%nat]); ("learner/adam/m", [4%nat]);
            ("learner/gcn/w", [4%nat; 4%nat])]
           _ eq_refl "learner/gcn/w" 0%nat).
Defined.

(** X13. [restore_from_checkpoint] returns exactly when the checkpoint's
    variables that rescope to a variable of the shell do so one to one,
    every variable of the shell is among them, and every other variable of
    the checkpoint carries one of the names the shell skips. *)
Theorem restore_succeeds_iff
    (s : shell) (l : list (string * list nat)) :
  let required := map strip_index (variable_names s) in
  let matched :=
    filter (.∈ required) (rescope (agent_scope s) <$> map fst l) in
  (exists rm, restore_from_checkpoint s l = Ok rm)
  <-> (NoDup matched
       /\ (forall n, n ∈ required -> n ∈ matched)
       /\ (forall v, v ∈ map fst l ->
                     rescope (agent_scope s) v ∉ required ->
                     not_required v = true)).
Proof.
  intros required matched. unfold restore_from_checkpoint. fold required.
  set (init := RestoreState ∅ (list_to_set required) []).
  assert (Hmatched : forall n,
    n ∈ matched <-> (n ∈ required
                     /\ exists v, v ∈ map fst l
                                  /\ rescope (agent_scope s) v = n)).
  { intros n. unfold matched. rewrite list_elem_of_filter, list_elem_of_fmap.
    split; [intros [? (v & -> & ?)]; eauto | intros [? (v & ? & <-)]; eauto]. }
  split.
  - intros [rm Hrm].
    destruct (restore_loop (agent_scope s) required (map fst l) init)
      as [st|e] eqn:Hloop; cbn [rbind] in Hrm; [|done].
    case_bool_decide as Hleft; cbn [negb] in Hrm; [|done].
    case_bool_decide as Hun; cbn [negb] in Hrm; [|done].
    pose proof (proj1 (restore_loop_Ok_iff _ _ _ _) (ex_intro _ st Hloop))
      as [Hnd _].
    apply restore_loop_spec in Hloop as (Hl & Hu & _).
    split; [done|]. split.
    + intros n Hn. apply Hmatched. split; [done|].
      destruct (decide (Exists (fun v => rescope (agent_scope s) v = n)
                               (map fst l))) as [Hex|Hnex].
      * apply Exists_exists in Hex as (v & ? & ?). eauto.
      * exfalso. rewrite <- Forall_Exists_neg, Forall_forall in Hnex.
        assert (Hin : n ∈ var_names_left st); [|by rewrite Hleft in Hin].
        apply Hl. simpl. split; [by apply elem_of_list_to_set|].
        intros v Hv _. by apply Hnex.
    + intros v Hv Hout. destruct (not_required v) eqn:Hnr; [done|].
      assert (Hin : v ∈ unrestored st);
        [|rewrite Hun in Hin; by apply elem_of_nil in Hin].
      apply Hu. right. done.
  - intros (Hnd & Hall & Hskip).
    destruct (proj2 (restore_loop_Ok_iff (agent_scope s) required
                       (map fst l) init)) as [st Hloop].
    { split; [done|]. intros n Hn. simpl.
      apply elem_of_list_to_set. by apply Hmatched in Hn as [? _]. }
    rewrite Hloop. cbn [rbind].
    apply restore_loop_spec in Hloop as (Hl & Hu & _).
    assert (Hleft : var_names_left st = ∅).
    { apply elem_of_equiv_empty_L. intros n Hn.
      apply Hl in Hn as [Hn Hno]. simpl in Hn.
      apply elem_of_list_to_set in Hn.
      destruct (proj1 (Hmatched n) (Hall n Hn)) as (_ & v & Hv & Heq).
      apply (Hno v Hv); [by rewrite Heq | done]. }
    assert (Hun : unrestored st = []).
    { apply elem_of_nil_inv. intros v Hv.
      apply Hu in Hv as [Hv|(Hv & Hout & Hnr)].
      - by apply elem_of_nil in Hv.
      - rewrite (Hskip v Hv Hout) in Hnr. done. }
    rewrite !bool_decide_eq_true_2 by done. cbn [negb]. eauto.
Qed.

Lemma restore_succeeds_iff_witness :
  let s := MkShell "shell" ["shell/gcn/w:0"] ∅ in
  let l := [("learner/gcn/w", [4%nat]); ("learner/global_step", [])] in
  exists rm, restore_from_checkpoint s l = Ok rm.
Proof.
  refine (proj2 (restore_succeeds_iff
                   (MkShell "shell" ["shell/gcn/w:0"] ∅)
                   [("learner/gcn/w", [4%nat]); ("learner/global_step", [])])
                _).
  vm_compute. split; [apply NoDup_singleton|]. split.
  - intros n Hn. exact Hn.
  - intros v Hv Hout.
    apply elem_of_cons in Hv as [->|Hv].
    + destruct Hout. by left.
    + apply list_elem_of_singleton in Hv as ->. reflexivity.
Defined.

(** X14. How [restore_from_checkpoint] pairs names.  The checkpoint
    variable [top/path] is given the name [scope/path], whatever its own
    top-level scope [top] is, and this is the name of the shell variable
    [scope/path:idx] once its index is stripped; a checkpoint variable with
    no ['/'] in its name is given the name [scope/], with nothing after the
    slash. *)
Theorem rescope_matches_variable_path
    (scope top path idx : string) :
  ~ In "/"%char (list_ascii_of_string top) ->
  ~ In ":"%char (list_ascii_of_string (scope +:+ String "/" path)) ->
  rescope scope (top +:+ String "/" path) = scope +:+ String "/" path
  /\ strip_index ((scope +:+ String "/" path) +:+ String ":" idx)
     = scope +:+ String "/" path
  /\ rescope scope top = scope +:+ "/".
Proof.
  intros Hslash Hcolon. split; [by apply rescope_path|].
  split; [by apply strip_index_colon | by apply rescope_top].
Qed.

Lemma rescope_matches_variable_path_witness :
  rescope "shell" "learner/gcn/w" = "shell/gcn/w"
  /\ strip_index "shell/gcn/w:0" = "shell/gcn/w"
  /\ rescope "shell" "learner" = "shell/".
Proof.
  refine (rescope_matches_variable_path "shell" "learner" "gcn/w" "0" _ _).
  - simpl. intros H. repeat (destruct H as [H|H]; [discriminate H|]). done.
  - simpl. intros H. repeat (destruct H as [H|H]; [discriminate H|]). done.
Defined.

End ShellExtra.

(** ** The full-episode actor: further properties *)

Module ActorMore.
Import Actor ActorFacts.

(** The trace of the loop, turn after turn. *)
Lemma run_loop_from_trace_forever fuel traj_length i trace :
  traj_length <> 0 ->
  run_loop_from fuel traj_length None i trace
  = Running (i + Z.of_nat fuel)
            (trace ++ concat (turn traj_length <$> seqZ i (Z.of_nat fuel))).
Proof.
  intros HL. revert i trace. induction fuel as [|fuel IH]; intros i trace.
  - simpl. by rewrite Z.add_0_r, app_nil_r.
  - rewrite run_loop_from_turn by done. rewrite IH.
    rewrite (seqZ_cons i (Z.of_nat (S fuel))) by lia.
    rewrite fmap_cons. cbn [concat]. rewrite <- app_assoc.
    replace (Z.succ i) with (i + 1) by lia.
    replace (Z.pred (Z.of_nat (S fuel))) with (Z.of_nat fuel) by lia.
    f_equal. lia.
Qed.

Lemma run_loop_from_trace_bounded fuel traj_length n i trace :
  traj_length <> 0 ->
  i <= n < i + Z.of_nat fuel ->
  run_loop_from fuel traj_length (Some n) i trace
  = Returned (trace ++ concat (turn traj_length <$> seqZ i (n - i))).
Proof.
  intros HL. revert i trace.
  induction fuel as [|fuel IH]; intros i trace Hn; [lia|].
  destruct (decide (i = n)) as [->|Hne].
  - rewrite run_loop_from_stop, Z.sub_diag. simpl. by rewrite app_nil_r.
  - rewrite run_loop_from_turn by done. rewrite IH by lia.
    rewrite (seqZ_cons i (n - i)) by lia.
    rewrite fmap_cons. cbn [concat]. rewrite <- app_assoc.
    replace (Z.succ i) with (i + 1) by lia.
    replace (Z.pred (n - i)) with (n - (i + 1)) by lia.
    done.
Qed.

(** A bound that the counter has passed is never met. *)
Lemma run_loop_from_passed fuel traj_length n i trace :
  n < i ->
  run_loop_from fuel traj_length (Some n) i trace
  = run_loop_from fuel traj_length None i trace.
Proof.
  revert i trace. induction fuel as [|fuel IH]; intros i trace Hn; [done|].
  cbn [run_loop_from].
  assert (E : (i =? n) = false) by (apply Z.eqb_neq; lia). rewrite E.
  destruct (0 <? i); [|apply IH; lia].
  destruct (py_mod i traj_length) as [r|e]; [|done].
  destruct (r =? 0); apply IH; lia.
Qed.

(** Without a bound the loop does not return. *)
Lemma run_loop_from_forever_not_returned fuel traj_length i trace t :
  run_loop_from fuel traj_length None i trace <> Returned t.
Proof.
  revert i trace. induction fuel as [|fuel IH]; intros i trace; [done|].
  cbn [run_loop_from]. destruct (0 <? i); [|apply IH].
  destruct (py_mod i traj_length) as [r|e]; [|done].
  destruct (r =? 0); apply IH.
Qed.

Lemma sent_concat_turns traj_length l :
  sent (concat (turn traj_length <$> l))
  = List.filter (send_due traj_length) l.
Proof.
  induction l as [|i l IH]; [done|].
  rewrite fmap_cons. cbn [concat List.filter].
  rewrite sent_app, sent_turn, IH.
  by destruct (send_due traj_length i).
Qed.

Lemma div_succ k L :
  0 <= k -> 1 <= L ->
  (k + 1) / L = k / L + (if (k + 1) mod L =? 0 then 1 else 0).
Proof.
  intros Hk HL.
  pose proof (Z.div_mod k L ltac:(lia)) as Hdm.
  pose proof (Z.mod_pos_bound k L ltac:(lia)) as Hb.
  destruct (decide (k mod L + 1 = L)) as [Hfull|Hless].
  - assert (Hm : (k + 1) mod L = 0).
    { symmetry. apply (Z.mod_unique _ _ (k / L + 1)); lia. }
    rewrite Hm. cbn.
    symmetry. apply (Z.div_unique _ _ _ 0); lia.
  - assert (Hm : (k + 1) mod L = k mod L + 1).
    { symmetry. apply (Z.mod_unique _ _ (k / L)); lia. }
    rewrite Hm. destruct (k mod L + 1 =? 0) eqn:E; [apply Z.eqb_eq in E; lia|].
    rewrite Z.add_0_r.
    symmetry. apply (Z.div_unique _ _ _ (k mod L + 1)); lia.
Qed.

(** Among the steps [0 .. k], experience is due [k / traj_length] times. *)
Lemma count_send_due traj_length (k : nat) :
  1 <= traj_length ->
  length (List.filter (send_due traj_length) (seqZ 0 (Z.of_nat (S k))))
  = Z.to_nat (Z.of_nat k / traj_length).
Proof.
  intros HL. induction k as [|k IH].
  - cbn. by rewrite Zdiv_0_l.
  - rewrite seqZ_S, List.filter_app, length_app, IH.
    cbn [List.filter]. unfold send_due.
    replace (0 + Z.of_nat (S k)) with (Z.of_nat k + 1) by lia.
    replace (Z.of_nat (S k)) with (Z.of_nat k + 1) by lia.
    rewrite (div_succ (Z.of_nat k) traj_length) by lia.
    assert (Hpos : (0 <? Z.of_nat k + 1) = true) by (apply Z.ltb_lt; lia).
    rewrite Hpos. cbn [andb].
    pose proof (Z.div_pos (Z.of_nat k) traj_length ltac:(lia) ltac:(lia)).
    destruct ((Z.of_nat k + 1) mod traj_length =? 0); cbn [length]; lia.
Qed.

End ActorMore.

Module ActorExtra.
Import Actor ActorFacts ActorMore.

(** X15. With a trajectory length other than zero, each turn of
    [Actor.run_loop] is a shell step, an environment step and an addition to
    the trajectory, in this order, followed by the sending of the
    experience when the step number is positive and a multiple of the
    trajectory length; the loop run forever goes through the steps
    0, 1, 2, ... in this way, and with [n_unrolls = n >= 0] it returns after
    the steps below [n]. *)
Theorem run_loop_trace (fuel : nat) (traj_length : Z) :
  traj_length <> 0 ->
  run_loop fuel traj_length None
  = Running (Z.of_nat fuel)
            (concat ((fun i =>
                        [ShellStep i; EnvStep i; TrajAdd i]
                        ++ (if (0 <? i) && (i mod traj_length =? 0)
                            then [SendExperiences i] else []))
                     <$> seqZ 0 (Z.of_nat fuel)))
  /\ forall n, 0 <= n < Z.of_nat fuel ->
       run_loop fuel traj_length (Some n)
       = Returned
           (concat ((fun i =>
                       [ShellStep i; EnvStep i; TrajAdd i]
                       ++ (if (0 <? i) && (i mod traj_length =? 0)
                           then [SendExperiences i] else []))
                    <$> seqZ 0 n)).
Proof.
  intros HL. unfold run_loop. split.
  - by rewrite run_loop_from_trace_forever.
  - intros n Hn. rewrite run_loop_from_trace_bounded by (done || lia).
    by rewrite Z.sub_0_r.
Qed.

Lemma run_loop_trace_witness :
  3 <> 0
  /\ run_loop 10 3 (Some 4)
     = Returned [ShellStep 0; EnvStep 0; TrajAdd 0;
                 ShellStep 1; EnvStep 1; TrajAdd 1;
                 ShellStep 2; EnvStep 2; TrajAdd 2;
                 ShellStep 3; EnvStep 3; TrajAdd 3; SendExperiences 3].
Proof.
  split; [lia|].
  exact (proj2 (run_loop_trace 10 3 ltac:(lia)) 4 ltac:(lia)).
Defined.

(** X16. With a trajectory length of at least one and [n_unrolls = n >= 1],
    [Actor.run_loop] sends experience [(n - 1) / traj_length] times (integer
    division) before it returns; with [n_unrolls = 0] it returns at once,
    before any shell or environment step. *)
Theorem run_loop_number_of_sends (fuel : nat) (traj_length n : Z) :
  1 <= traj_length ->
  1 <= n < Z.of_nat fuel ->
  length (sent (trace_of (run_loop fuel traj_length (Some n))))
  = Z.to_nat ((n - 1) / traj_length)
  /\ run_loop fuel traj_length (Some 0) = Returned [].
Proof.
  intros HL Hn. split.
  - unfold run_loop.
    rewrite run_loop_from_trace_bounded by lia.
    cbn [trace_of app]. rewrite Z.sub_0_r, sent_concat_turns.
    replace n with (Z.of_nat (S (Z.to_nat (n - 1)))) at 1 by lia.
    rewrite count_send_due by done. do 2 f_equal. lia.
  - destruct fuel as [|fuel]; [lia|]. reflexivity.
Qed.

Lemma run_loop_number_of_sends_witness :
  1 <= 3 /\ 1 <= 10 < Z.of_nat 20
  /\ sent (trace_of (run_loop 20 3 (Some 10))) = [3; 6; 9]
  /\ length (sent (trace_of (run_loop 20 3 (Some 10))))
     = Z.to_nat ((10 - 1) / 3).
Proof.
  split; [lia|]. split; [lia|]. split; [reflexivity|].
  exact (proj1 (run_loop_number_of_sends 20 3 10 ltac:(lia) ltac:(lia))).
Defined.

(** X17. With a trajectory length of zero, [Actor.run_loop] raises
    [ZeroDivisionError] at step 1, after the shell step, the environment
    step and the trajectory addition of steps 0 and 1 and before anything
    is sent, unless [n_unrolls] is 0 or 1, in which case it returns before
    the modulo is taken. *)
Theorem run_loop_zero_traj_length (fuel : nat) (n_unrolls : option Z) :
  (2 <= fuel)%nat ->
  (n_unrolls <> Some 0 -> n_unrolls <> Some 1 ->
   run_loop fuel 0 n_unrolls
   = Raised ZeroDivisionError
            [ShellStep 0; EnvStep 0; TrajAdd 0;
             ShellStep 1; EnvStep 1; TrajAdd 1])
  /\ run_loop fuel 0 (Some 0) = Returned []
  /\ run_loop fuel 0 (Some 1) = Returned [ShellStep 0; EnvStep 0; TrajAdd 0].
Proof.
  intros Hfuel. destruct fuel as [|[|fuel]]; [lia | lia |].
  split; [|split; reflexivity].
  intros H0 H1. unfold run_loop. cbn [run_loop_from].
  destruct n_unrolls as [n|]; [|reflexivity].
  assert (E0 : (0 =? n) = false)
    by (apply Z.eqb_neq; intros E; apply H0; f_equal; lia).
  assert (E1 : (0 + 1 =? n) = false)
    by (apply Z.eqb_neq; intros E; apply H1; f_equal; lia).
  by rewrite E0, E1.
Qed.

Lemma run_loop_zero_traj_length_witness :
  (2 <= 5)%nat
  /\ run_loop 5 0 None
     = Raised ZeroDivisionError
              [ShellStep 0; EnvStep 0; TrajAdd 0;
               ShellStep 1; EnvStep 1; TrajAdd 1].
Proof.
  split; [lia|].
  refine (proj1 (run_loop_zero_traj_length 5 None ltac:(lia)) _ _);
    intros H; discriminate H.
Defined.

(** X18. [n_unrolls] is compared with the step counter for equality only:
    a negative [n_unrolls] is never met, and the loop behaves as with
    [n_unrolls = None] and never returns. *)
Theorem run_loop_negative_n_unrolls (fuel : nat) (traj_length n : Z) :
  n < 0 ->
  run_loop fuel traj_length (Some n) = run_loop fuel traj_length None
  /\ forall t, run_loop fuel traj_length (Some n) <> Returned t.
Proof.
  intros Hn.
  assert (Heq : run_loop fuel traj_length (Some n)
                = run_loop fuel traj_length None)
    by (by apply run_loop_from_passed).
  split; [done|]. rewrite Heq. intros t.
  apply run_loop_from_forever_not_returned.
Qed.

Lemma run_loop_negative_n_unrolls_witness :
  -1 < 0
  /\ run_loop 4 2 (Some (-1))
     = Running 4 [ShellStep 0; EnvStep 0; TrajAdd 0;
                  ShellStep 1; EnvStep 1; TrajAdd 1;
                  ShellStep 2; EnvStep 2; TrajAdd 2; SendExperiences 2;
                  ShellStep 3; EnvStep 3; TrajAdd 3]
  /\ run_loop 4 2 (Some (-1)) = run_loop 4 2 None.
Proof.
  split; [lia|]. split; [reflexivity|].
  exact (proj1 (run_loop_negative_n_unrolls 4 2 (-1) ltac:(lia))).
Defined.

End ActorExtra.

(** ** launcher.py *)

Module LauncherMore.
Import Launcher.

(** [c in s] for a one-character string. *)
Lemma contains_char c s :
  PyStr.contains (String c EmptyString) s = true
  <-> In c (list_ascii_of_string s).
Proof.
  induction s as [|d s IH]; simpl.
  - split; [discriminate|tauto].
  - rewrite orb_true_iff, IH.
    destruct (ascii_dec c d) as [->|Hne].
    + split; [tauto|]. intros _. left. by destruct s.
    + split.
      * intros [H|H]; [discriminate|tauto].
      * intros [H|H]; [congruence|tauto].
Qed.

Lemma contains_char_false c s :
  ~ In c (list_ascii_of_string s) ->
  PyStr.contains (String c EmptyString) s = false.
Proof.
  intros H. destruct (PyStr.contains _ s) eqn:E; [|done].
  by apply contains_char in E.
Qed.

Lemma list_ascii_of_string_app a b :
  list_ascii_of_string (a +:+ b)
  = list_ascii_of_string a ++ list_ascii_of_string b.
Proof. induction a as [|c a IH]; [done|]. simpl. by rewrite <- IH. Qed.

(** One more piece than there are separators. *)
Lemma length_split sep s :
  length (PyStr.split sep s)
  = S (count_occ ascii_dec (list_ascii_of_string s) sep).
Proof.
  induction s as [|c s IH]; [done|]. simpl.
  destruct (Ascii.eqb_spec c sep) as [->|Hne].
  - destruct (ascii_dec sep sep); [|done]. simpl. by rewrite IH.
  - destruct (ascii_dec c sep); [done|].
    rewrite <- IH. by destruct (PyStr.split sep s).
Qed.

Lemma string_of_uint_digits d :
  forallb is_digit (list_ascii_of_string (NilEmpty.string_of_uint d)) = true.
Proof. induction d; simpl; auto. Qed.

Lemma digits_no_dash s :
  forallb is_digit (list_ascii_of_string s) = true ->
  ~ In "-"%char (list_ascii_of_string s).
Proof.
  intros H Hin. rewrite forallb_forall in H. apply H in Hin. done.
Qed.

Lemma nilzero_nilempty d :
  d <> Decimal.Nil -> NilZero.string_of_uint d = NilEmpty.string_of_uint d.
Proof. by destruct d. Qed.

Lemma to_uint_digits z :
  0 <= z ->
  exists d, d <> Decimal.Nil /\ Z.to_int z = Decimal.Pos d.
Proof.
  destruct z as [|p|p]; intros Hz; [| |lia].
  - by exists (Decimal.D0 Decimal.Nil).
  - exists (Pos.to_uint p). split; [apply DecimalPos.Unsigned.to_uint_nonnil|done].
Qed.

(** The decimal form of a natural number holds no dash, *)
Lemma py_str_int_no_dash z :
  0 <= z -> ~ In "-"%char (list_ascii_of_string (py_str_int z)).
Proof.
  intros Hz. destruct (to_uint_digits z Hz) as (d & Hd & E).
  unfold py_str_int. rewrite E. simpl. rewrite nilzero_nilempty by done.
  apply digits_no_dash, string_of_uint_digits.
Qed.

(** and [int] reads it back. *)
Lemma py_int_py_str_int z : 0 <= z -> py_int (py_str_int z) = Parsed z.
Proof.
  intros Hz. destruct (to_uint_digits z Hz) as (d & Hd & E).
  pose proof (of_to z) as Hof. rewrite E in Hof. simpl in Hof.
  unfold py_str_int. rewrite E.
  change (NilZero.string_of_int (Decimal.Pos d))
    with (NilZero.string_of_uint d).
  pose proof (NilZero.usu d Hd) as Hu.
  assert (Hs : exists c r, NilZero.string_of_uint d = String c r
                           /\ is_digit c = true).
  { rewrite nilzero_nilempty by done. pose proof (string_of_uint_digits d) as F.
    destruct d; try done; simpl in *; eauto. }
  destruct Hs as (c & r & Hs & Hc). rewrite Hs in *.
  unfold py_int.
  assert (Hb : match String c r with
               | String "+" r0 => r0
               | String "-" r0 => r0
               | _ => String c r
               end = String c r).
  { destruct c as [[] [] [] [] [] [] [] []]; done. }
  rewrite Hb, Hu.
  assert (Hn : match String c r with
               | String "-" _ => true
               | _ => false
               end = false).
  { destruct c as [[] [] [] [] [] [] [] []]; done. }
  by rewrite Hn, Hof.
Qed.

(** The decimal form of a negative number starts with a dash. *)
Lemma py_str_int_negative z :
  z < 0 -> exists r, py_str_int z = String "-" r.
Proof.
  destruct z as [|p|p]; intros Hz; [lia|lia|].
  unfold py_str_int. simpl. eauto.
Qed.

Lemma launch_named (name t : string) :
  ~ In "-"%char (list_ascii_of_string name) ->
  ~ In "-"%char (list_ascii_of_string t) ->
  launch (name +:+ String "-" t)
  = match py_int t with
    | Parsed id => dispatch name (Some id)
    | NotANumber => RaisesValueError "invalid literal for int()"
    | Beyond => OutsideModel
    end.
Proof.
  intros Hn Ht. unfold launch.
  assert (Hc : PyStr.contains "-" (name +:+ String "-" t) = true).
  { apply contains_char. rewrite list_ascii_of_string_app.
    apply in_or_app. right. by left. }
  rewrite Hc, ShellMore.split_app_sep by done.
  by rewrite ShellMore.split_no_sep by done.
Qed.

Lemma launch_plain (name : string) :
  ~ In "-"%char (list_ascii_of_string name) ->
  launch name = dispatch name None.
Proof. intros Hn. unfold launch. by rewrite contains_char_false. Qed.

Lemma split_two sep s a b :
  PyStr.split sep s = [a; b] ->
  s = a +:+ String sep b
  /\ ~ In sep (list_ascii_of_string a) /\ ~ In sep (list_ascii_of_string b).
Proof.
  intros E. pose proof (ShellMore.join_split sep s) as J. rewrite E in J.
  simpl in J. split; [done|].
  pose proof (length_split sep s) as L. rewrite E in L. simpl in L.
  rewrite <- J, list_ascii_of_string_app, count_occ_app in L. simpl in L.
  destruct (ascii_dec sep sep); [|done].
  change ("" +:+ b) with b in L.
  split; apply (count_occ_not_In ascii_dec); lia.
Qed.

End LauncherMore.

Module LauncherExtra.
Import Launcher LauncherMore.

(** X19.  Every process that [run_replay] starts re-enters [main] with one
    word before the separator and with the parent's configuration
    arguments after it; [launch] sends the first one to the load balancer
    and the others, in order, to the replay workers of ids
    [0 .. n_shards - 1]. *)
Theorem run_replay_children_launch
    (sys_executable sys_argv0 : string) (config_args : list string)
    (n_shards : Z) :
  Forall2
    (fun child c =>
       exists name,
         main_args (child_sys_argv child) = ([name], config_args)
         /\ launch name = Runs c)
    (run_replay sys_executable sys_argv0 config_args n_shards)
    (RunReplayLoadbalancer
       :: map (fun replay_id => RunReplayWorker (Some replay_id))
              (seqZ 0 n_shards)).
Proof.
  unfold run_replay. constructor.
  - by exists "replay_loadbalancer".
  - apply Forall2_fmap, Forall_Forall2_diag, Forall_forall.
    intros id Hid. apply elem_of_seqZ in Hid.
    exists ("replay_worker-" +:+ py_str_int id). split; [done|].
    change ("replay_worker-" +:+ py_str_int id)
      with ("replay_worker" +:+ String "-" (py_str_int id)).
    rewrite launch_named.
    + by rewrite py_int_py_str_int by lia.
    + vm_compute. intuition discriminate.
    + apply py_str_int_no_dash. lia.
Qed.

(** X20.  A component name without a dash, followed by a dash and the
    decimal form of a natural number, is dispatched under that name with
    that number as its id. *)
Theorem launch_id_round_trip (component_name : string) (component_id : Z) :
  ~ In "-"%char (list_ascii_of_string component_name) ->
  0 <= component_id ->
  launch (component_name +:+ "-" +:+ py_str_int component_id)
  = dispatch component_name (Some component_id).
Proof.
  intros Hn Hz.
  change (component_name +:+ "-" +:+ py_str_int component_id)
    with (component_name +:+ String "-" (py_str_int component_id)).
  rewrite launch_named; [|done|by apply py_str_int_no_dash].
  by rewrite py_int_py_str_int.
Qed.

Lemma launch_id_round_trip_witness :
  launch ("actor" +:+ "-" +:+ py_str_int 12) = Runs (RunActor (Some 12)).
Proof.
  apply (launch_id_round_trip "actor" 12); [|lia].
  vm_compute. intuition discriminate.
Defined.

(** X21.  A name with two dashes or more cannot be unpacked into a name and
    an id: [launch] raises [ValueError] before any dispatch. *)
Theorem launch_two_dashes_raises (component_name_in : string) :
  (2 <= count_occ ascii_dec (list_ascii_of_string component_name_in) "-"%char)%nat ->
  launch component_name_in = RaisesValueError "too many values to unpack".
Proof.
  intros H. unfold launch.
  assert (Hc : PyStr.contains "-" component_name_in = true).
  { apply contains_char, (count_occ_In ascii_dec). lia. }
  rewrite Hc. pose proof (length_split "-" component_name_in) as L.
  destruct (PyStr.split "-" component_name_in) as [|a [|b [|c l]]];
    simpl in L; try done; lia.
Qed.

Lemma launch_two_dashes_raises_witness :
  launch "replay-worker-0" = RaisesValueError "too many values to unpack".
Proof.
  apply (launch_two_dashes_raises "replay-worker-0"). vm_compute. lia.
Defined.

(** X22.  So no component can be launched with a negative id: the sign of
    the formatted id is a second dash. *)
Theorem launch_negative_id_raises (component_name : string) (component_id : Z) :
  component_id < 0 ->
  launch (component_name +:+ "-" +:+ py_str_int component_id)
  = RaisesValueError "too many values to unpack".
Proof.
  intros Hz. destruct (py_str_int_negative _ Hz) as (r & ->).
  unfold launch.
  assert (Hc : PyStr.contains "-" (component_name +:+ "-" +:+ String "-" r)
               = true).
  { apply contains_char. rewrite list_ascii_of_string_app.
    apply in_or_app. right. by left. }
  rewrite Hc.
  pose proof (length_split "-" (component_name +:+ "-" +:+ String "-" r)) as L.
  rewrite list_ascii_of_string_app, count_occ_app in L. simpl in L.
  destruct (PyStr.split "-" _) as [|a [|b [|c l]]]; simpl in L; try done; lia.
Qed.

Lemma launch_negative_id_raises_witness :
  launch ("actor" +:+ "-" +:+ py_str_int (-1))
  = RaisesValueError "too many values to unpack".
Proof. apply (launch_negative_id_raises "actor" (-1)). lia. Defined.

(** X23.  [run_actor] is reached from exactly two kinds of names:
    [actor], with no id, and [actor-<t>] where [t] holds no dash and [int]
    reads it as the id. *)
Theorem launch_actor_iff (component_name_in : string) (actor_id : option Z) :
  launch component_name_in = Runs (RunActor actor_id)
  <-> (component_name_in = "actor" /\ actor_id = None)
      \/ (exists t id,
            component_name_in = "actor-" +:+ t
            /\ ~ In "-"%char (list_ascii_of_string t)
            /\ py_int t = Parsed id
            /\ actor_id = Some id).
Proof.
  assert (Hd : forall n i, dispatch n i = Runs (RunActor actor_id)
                           -> n = "actor" /\ i = actor_id).
  { intros n i. unfold dispatch.
    repeat match goal with
           | |- context [String.eqb ?a ?b] =>
               destruct (String.eqb_spec a b); try discriminate
           end.
    intros [= ->]. done. }
  split.
  - unfold launch. destruct (PyStr.contains "-" component_name_in) eqn:Hc.
    + destruct (PyStr.split "-" component_name_in)
        as [|a [|b [|c l]]] eqn:Hs; try discriminate.
      apply split_two in Hs as (-> & Ha & Hb).
      destruct (py_int b) as [id| |] eqn:Hp; try discriminate.
      intros H. apply Hd in H as [-> <-]. right. by exists b, id.
    + intros H. apply Hd in H as [-> <-]. by left.
  - intros [[-> ->]|(t & id & -> & Ht & Hp & ->)]; [done|].
    change ("actor-" +:+ t) with ("actor" +:+ String "-" t).
    rewrite launch_named, Hp; [done| |done].
    vm_compute. intuition discriminate.
Qed.

(** X24.  The id is read before the name is looked at: a malformed id
    raises the [ValueError] of [int] whatever the name, known or not, and
    also for the components that take no id. *)
Theorem launch_reads_id_before_dispatch (component_name t : string) :
  ~ In "-"%char (list_ascii_of_string component_name) ->
  ~ In "-"%char (list_ascii_of_string t) ->
  py_int t = NotANumber ->
  launch (component_name +:+ "-" +:+ t)
  = RaisesValueError "invalid literal for int()".
Proof.
  intros Hn Ht Hp.
  change (component_name +:+ "-" +:+ t)
    with (component_name +:+ String "-" t).
  by rewrite launch_named, Hp.
Qed.

Lemma launch_reads_id_before_dispatch_witness :
  launch ("learner" +:+ "-" +:+ "one")
  = RaisesValueError "invalid literal for int()".
Proof.
  apply (launch_reads_id_before_dispatch "learner" "one");
    [vm_compute; intuition discriminate
    |vm_compute; intuition discriminate
    |reflexivity].
Defined.

(** X25.  [main] cuts the command line at its first [--]: what it parses
    holds no [--], and with what it keeps as configuration arguments it
    makes up the whole command line after the program name. *)
Theorem main_args_cut_at_first_separator (sys_argv : list string) :
  ("--" ∉ (main_args sys_argv).1)
  /\ ((drop 1 sys_argv = (main_args sys_argv).1
       /\ (main_args sys_argv).2 = [])
      \/ drop 1 sys_argv
         = (main_args sys_argv).1 ++ "--" :: (main_args sys_argv).2).
Proof.
  unfold main_args. generalize (drop 1 sys_argv) as argv. intros argv.
  destruct (Shell.index_of "--" argv) as [i|] eqn:E; simpl.
  - assert (H : forall l i, Shell.index_of "--" l = Some i ->
                  ("--" ∉ take i l) /\ l = take i l ++ "--" :: drop (S i) l).
    { clear. induction l as [|y l IH]; intros i; simpl; [done|].
      destruct (String.eqb_spec y "--") as [->|Hne].
      - intros [= <-]. simpl. split; [apply not_elem_of_nil|done].
      - destruct (Shell.index_of "--" l) as [j|] eqn:E; [|done].
        simpl. intros [= <-]. destruct (IH j eq_refl) as [Hn Hl]. simpl.
        split.
        + rewrite elem_of_cons. intros [H|H]; [congruence|done].
        + by rewrite <- Hl. }
    destruct (H argv i E) as [Hn Hl]. split; [done|]. by right.
  - split; [|by left]. by apply ShellFacts.index_of_None.
Qed.

End LauncherExtra.

(** ** loggers/tensorplex.py *)

Module TensorplexMore.
Import Tensorplex.

Lemma count_nonneg c s : 0 <= count c s.
Proof. induction s as [|d s IH]; simpl; [lia|]. destruct (Ascii.eqb d c); lia. Qed.

Lemma count_app c a b : count c (a +:+ b) = count c a + count c b.
Proof.
  induction a as [|d a IH]; [done|].
  change (String d a +:+ b) with (String d (a +:+ b)). simpl. rewrite IH. lia.
Qed.

Lemma replace_zero old new s : replace old new 0 s = s.
Proof. by destruct s. Qed.

(** Nothing to replace. *)
Lemma replace_none old new n s : count old s = 0 -> replace old new n s = s.
Proof.
  revert n. induction s as [|c s IH]; intros n H; [done|]. simpl in *.
  pose proof (count_nonneg old s).
  destruct (n =? 0); [done|].
  destruct (Ascii.eqb c old); [lia|]. rewrite IH; [done|lia].
Qed.

(** All negative counts mean the same. *)
Lemma replace_negative old new m m' s :
  m < 0 -> m' < 0 -> replace old new m s = replace old new m' s.
Proof.
  revert m m'. induction s as [|c s IH]; intros m m' Hm Hm'; [done|]. simpl.
  destruct (Z.eqb_spec m 0); [lia|]. destruct (Z.eqb_spec m' 0); [lia|].
  destruct (Ascii.eqb c old).
  - f_equal. apply IH; lia.
  - f_equal. by apply IH.
Qed.

Lemma replace_all_app old new m a b :
  m < 0 ->
  replace old new m (a +:+ b) = replace old new m a +:+ replace old new m b.
Proof.
  intros Hm. induction a as [|c a IH]; [done|].
  change (String c a +:+ b) with (String c (a +:+ b)). simpl.
  destruct (Z.eqb_spec m 0); [lia|].
  destruct (Ascii.eqb c old).
  - rewrite !(replace_negative old new (m - 1) m) by lia. by rewrite IH.
  - by rewrite IH.
Qed.

(** A count that covers a prefix replaces all of it. *)
Lemma replace_app old new n m a b :
  count old a <= n -> m < 0 ->
  replace old new n (a +:+ b)
  = replace old new m a +:+ replace old new (n - count old a) b.
Proof.
  revert n. induction a as [|c a IH]; intros n Hn Hm.
  - simpl. change ("" +:+ b) with b. by rewrite Z.sub_0_r.
  - change (String c a +:+ b) with (String c (a +:+ b)).
    pose proof (count_nonneg old a) as Hc. simpl in *.
    destruct (Z.eqb_spec m 0); [lia|].
    destruct (Ascii.eqb c old) eqn:E.
    + destruct (Z.eqb_spec n 0); [lia|].
      rewrite (IH (n - 1)) by lia.
      rewrite (replace_negative old new (m - 1) m) by lia.
      change (String new ?x +:+ ?y) with (String new (x +:+ y)).
      do 3 f_equal. lia.
    + destruct (Z.eqb_spec n 0) as [->|Hn0].
      * assert (H0 : count old a = 0) by lia.
        rewrite (replace_none old new m a H0), H0, Z.sub_0_r.
        by rewrite replace_zero.
      * rewrite (IH n) by lia.
        change (String c ?x +:+ ?y) with (String c (x +:+ y)).
        do 3 f_equal.
Qed.

Lemma append_assoc (a b c : string) : (a +:+ b) +:+ c = a +:+ b +:+ c.
Proof.
  induction a as [|d a IH]; [done|].
  change (String d a +:+ b) with (String d (a +:+ b)).
  change (String d ?x +:+ ?y) with (String d (x +:+ y)). by rewrite IH.
Qed.

(** The last slash stays, the ones before it go. *)
Lemma scalar_key_last (a w : string) :
  count "/" w = 0 ->
  scalar_key (a +:+ String "/" w)
  = "." +:+ replace "/" "." (-1) a +:+ String "/" w.
Proof.
  intros Hw. unfold scalar_key. f_equal. rewrite count_app.
  change (count "/" (String "/" w)) with (1 + count "/" w). rewrite Hw.
  rewrite (replace_app "/" "." _ (-1)) by lia.
  f_equal. replace (count "/" a + (1 + 0) - 1 - count "/" a) with 0 by lia.
  by rewrite replace_zero.
Qed.

Lemma replace_all_before (a b : string) (sep : ascii) :
  count "/" b = 0 ->
  sep = "/"%char \/ sep = "."%char ->
  replace "/" "." (-1) (a +:+ String sep b)
  = replace "/" "." (-1) a +:+ String "." b.
Proof.
  intros Hb Hsep. rewrite replace_all_app by lia. f_equal.
  destruct Hsep as [-> | ->]; simpl; by rewrite replace_none.
Qed.

Lemma count_replace_all (m : Z) (s : string) :
  m < 0 -> count "/" (replace "/" "." m s) = 0.
Proof.
  revert m. induction s as [|c s IH]; intros m Hm; [done|]. simpl.
  destruct (Z.eqb_spec m 0); [lia|].
  destruct (Ascii.eqb c "/") eqn:E; simpl.
  - rewrite IH by lia. done.
  - rewrite E, IH by lia. done.
Qed.

End TensorplexMore.

Module TensorplexExtra.
Import Tensorplex TensorplexMore.

(** X26.  [Logger.write] keeps the last slash of a key and turns all the
    slashes before it into dots, behind a leading dot, so that one slash
    is left; a key without a slash only gets the leading dot (the count
    handed to [replace] is then [-1], which replaces every occurrence, and
    there is none). *)
Theorem scalar_key_keeps_last_slash (a w : string) :
  count "/" w = 0 ->
  scalar_key (a +:+ "/" +:+ w)
  = "." +:+ replace "/" "." (-1) a +:+ "/" +:+ w
  /\ count "/" (scalar_key (a +:+ "/" +:+ w)) = 1
  /\ scalar_key w = "." +:+ w.
Proof.
  intros Hw. split; [|split].
  - by apply scalar_key_last.
  - change (a +:+ "/" +:+ w) with (a +:+ String "/" w).
    rewrite scalar_key_last by done.
    change ("." +:+ ?x) with (String "." x). cbn [count Ascii.eqb].
    rewrite count_app, count_replace_all by lia.
    change (count "/" (String "/" w)) with (1 + count "/" w). by rewrite Hw.
  - unfold scalar_key. by rewrite replace_none.
Qed.

Lemma scalar_key_keeps_last_slash_witness :
  scalar_key "learner/loss/value" = ".learner.loss/value"
  /\ scalar_key "value" = ".value".
Proof.
  pose proof (scalar_key_keeps_last_slash "learner/loss" "value" eq_refl)
    as (H1 & _ & H2).
  exact (conj H1 H2).
Defined.

(** X27.  The renaming is not one-to-one: a key with a slash before its
    last one and the key with a dot in its place are sent under the same
    name, so that of two such items of [dict_values] only the value of the
    later one reaches the client. *)
Theorem scalars_merges_dotted_keys (a b w : string) (v1 v2 : pyval) :
  count "/" b = 0 ->
  count "/" w = 0 ->
  a +:+ "/" +:+ b +:+ "/" +:+ w <> a +:+ "." +:+ b +:+ "/" +:+ w
  /\ scalar_key (a +:+ "/" +:+ b +:+ "/" +:+ w)
     = scalar_key (a +:+ "." +:+ b +:+ "/" +:+ w)
  /\ scalars [(a +:+ "/" +:+ b +:+ "/" +:+ w, v1);
              (a +:+ "." +:+ b +:+ "/" +:+ w, v2)]
     = [(scalar_key (a +:+ "/" +:+ b +:+ "/" +:+ w), v2)].
Proof.
  intros Hb Hw.
  assert (Hk : forall sep : ascii,
             sep = "/"%char \/ sep = "."%char ->
             scalar_key (a +:+ String sep (b +:+ String "/" w))
             = "." +:+ (replace "/" "." (-1) a +:+ String "." b)
                   +:+ String "/" w).
  { intros sep Hsep.
    change (a +:+ String sep (b +:+ String "/" w))
      with (a +:+ String sep b +:+ String "/" w).
    rewrite <- append_assoc, scalar_key_last by done.
    by rewrite replace_all_before. }
  assert (Heq : scalar_key (a +:+ "/" +:+ b +:+ "/" +:+ w)
                = scalar_key (a +:+ "." +:+ b +:+ "/" +:+ w)).
  { change (scalar_key (a +:+ String "/" (b +:+ String "/" w))
            = scalar_key (a +:+ String "." (b +:+ String "/" w))).
    rewrite !Hk by auto. done. }
  split; [|split; [done|]].
  - clear. induction a as [|c a IH].
    + change (String "/" (b +:+ String "/" w)
              <> String "." (b +:+ String "/" w)). discriminate.
    + change (String c a +:+ ?x) with (String c (a +:+ x)).
      intros [= H]. by apply IH.
  - unfold scalars. cbn [fold_left fst snd PyDict.set].
    by rewrite <- Heq, String.eqb_refl.
Qed.

Lemma scalars_merges_dotted_keys_witness :
  scalars [("actor/0/reward", PInt 1); ("actor.0/reward", PInt 2)]
  = [(".actor.0/reward", PInt 2)].
Proof.
  exact (proj2 (proj2 (scalars_merges_dotted_keys
                         "actor" "0" "reward" (PInt 1) (PInt 2)
                         eq_refl eq_refl))).
Defined.

End TensorplexExtra.

(** ** tmux/create_programs.py *)

Module CreateProgramsMore.
Import CreatePrograms.

Lemma prefix_trans (a b c : string) :
  String.prefix a b = true -> String.prefix b c = true ->
  String.prefix a c = true.
Proof.
  revert b c. induction a as [|x a IH]; intros b c Hab Hbc;
    [by destruct c|].
  destruct b as [|y b]; [done|]. destruct c as [|z c]; [done|].
  simpl in *. destruct (ascii_dec x y) as [->|]; [|done].
  destruct (ascii_dec y z) as [->|]; [|done].
  destruct (ascii_dec z z); [eauto|done].
Qed.

(** Before the first key that matches, nothing is returned. *)
Lemma get_fuzzy_match_app {V : Type} (l1 l2 : list (string * V)) name :
  get_fuzzy_match (l1 ++ l2) name
  = match get_fuzzy_match l1 name with
    | Ok v => Ok v
    | Raise _ => get_fuzzy_match l2 name
    end.
Proof.
  induction l1 as [|[k v] l1 IH]; simpl; [done|].
  by destruct (String.prefix k name).
Qed.

Lemma binders_app service l1 l2 :
  binders service (l1 ++ l2) = binders service l1 ++ binders service l2.
Proof. unfold binders. apply omap_app. Qed.

Lemma binders_connects service (f : string -> list string) procs :
  binders service
    (concat (map (fun proc => map (Connects proc) (f proc)) procs)) = [].
Proof.
  induction procs as [|p procs IH]; simpl; [done|].
  rewrite binders_app, IH, app_nil_r.
  induction (f p) as [|s l IHl]; [done|]. done.
Qed.

Lemma binders_nil service : binders service [] = [].
Proof. done. Qed.

Lemma binders_cons_binds service proc s l :
  binders service (Binds proc s :: l)
  = (if String.eqb s service then [proc] else []) ++ binders service l.
Proof.
  unfold binders. cbn [omap list_omap]. by destruct (String.eqb s service).
Qed.

Lemma binders_cons_connects service proc s l :
  binders service (Connects proc s :: l) = binders service l.
Proof. done. Qed.

End CreateProgramsMore.

Module CreateProgramsExtra.
Import CreatePrograms CreateProgramsMore.

(** X28.  [get_fuzzy_match] answers with the first key, in the order of
    the items, that the name starts with, not with the longest one: an
    item whose key extends an earlier key is never used, and the lookup
    goes as if it were not there. *)
Theorem get_fuzzy_match_shadowed {V : Type}
    (l1 l2 l3 : list (string * V)) (k1 k2 : string) (v1 v2 : V)
    (name : string) :
  String.prefix k1 k2 = true ->
  get_fuzzy_match (l1 ++ (k1, v1) :: l2 ++ (k2, v2) :: l3) name
  = get_fuzzy_match (l1 ++ (k1, v1) :: l2 ++ l3) name.
Proof.
  intros Hp. rewrite !get_fuzzy_match_app.
  destruct (get_fuzzy_match l1 name); [done|]. simpl.
  destruct (String.prefix k1 name) eqn:E1; [done|].
  rewrite !get_fuzzy_match_app.
  destruct (get_fuzzy_match l2 name); [done|]. simpl.
  destruct (String.prefix k2 name) eqn:E2; [|done].
  by rewrite (prefix_trans _ _ _ Hp E2) in E1.
Qed.

Lemma get_fuzzy_match_shadowed_witness :
  get_fuzzy_match [("actor", 1); ("actor-1", 2); ("learner", 3)] "actor-1"
  = Ok 1.
Proof.
  exact (get_fuzzy_match_shadowed [] [] [("learner", 3)] "actor" "actor-1"
                                  1 2 "actor-1" eq_refl).
Defined.

(** X29.  When [setup_network] returns, every service that a process
    connects to is bound by exactly one process, and no service is bound
    twice. *)
Theorem setup_network_wiring (actors : list string)
    (ps replay learner tensorplex : string)
    (tensorboard systemboard irs : option string) (calls : list net_call) :
  setup_network actors ps replay learner tensorplex
                tensorboard systemboard irs = Wired calls ->
  (forall proc service,
     In (Connects proc service) calls ->
     length (binders service calls) = 1%nat)
  /\ (forall service, (length (binders service calls) <= 1)%nat).
Proof.
  destruct actors as [|actor0 actors]; [done|].
  destruct irs as [irs|]; [|done]. intros H.
  set (c1 := concat (map (fun proc => [Connects proc "ps-frontend";
                                       Connects proc "collector-frontend"])
                         (actor0 :: actors))).
  set (c3 := concat (map (fun proc => [Connects proc "tensorplex";
                                       Connects proc "tensorplex-system";
                                       Connects proc "irs-frontend"])
                         ((actor0 :: actors) ++ [ps; replay; learner]))).
  set (tb := match tensorboard with
              | Some proc => [Binds proc "tensorboard"]
              | None => []
              end).
  set (sb := match systemboard with
              | Some proc => [Binds proc "systemboard"]
              | None => []
              end).
  assert (Hc : Wired calls
               = Wired
                   ((c1 ++ [Binds actor0 "spec"; Binds ps "ps-frontend";
                            Binds ps "ps-backend";
                            Connects ps "parameter-publish";
                            Binds replay "collector-frontend";
                            Binds replay "sampler-frontend";
                            Binds replay "collector-backend";
                            Binds replay "sampler-backend";
                            Connects learner "spec";
                            Connects learner "sampler-frontend";
                            Binds learner "parameter-publish";
                            Binds learner "prefetch-queue";
                            Binds tensorplex "tensorplex";
                            Binds tensorplex "tensorplex-system"])
                    ++ [Binds irs "irs-frontend"; Binds irs "irs-backend"]
                    ++ c3 ++ tb ++ sb))
    by (rewrite <- H; reflexivity).
  clear H.
  assert (B1 : forall s, binders s c1 = []).
  { intros s. apply (binders_connects s
                       (fun _ => ["ps-frontend"; "collector-frontend"])). }
  assert (B3 : forall s, binders s c3 = []).
  { intros s. apply (binders_connects s
                       (fun _ => ["tensorplex"; "tensorplex-system";
                                  "irs-frontend"])). }
  assert (C1 : forall p s, In (Connects p s) c1 ->
                 s = "ps-frontend" \/ s = "collector-frontend").
  { intros p s. unfold c1. generalize (actor0 :: actors). intros l.
    induction l as [|q l IH]; simpl; [done|].
    intros [[= _ <-]|[[= _ <-]|H]]; auto. }
  assert (C3 : forall p s, In (Connects p s) c3 ->
                 s = "tensorplex" \/ s = "tensorplex-system"
                 \/ s = "irs-frontend").
  { intros p s. unfold c3.
    generalize ((actor0 :: actors) ++ [ps; replay; learner]). intros l.
    induction l as [|q l IH]; simpl; [done|].
    intros [[= _ <-]|[[= _ <-]|[[= _ <-]|H]]]; auto. }
  assert (Htb : tb = [] \/ exists proc, tb = [Binds proc "tensorboard"])
    by (unfold tb; destruct tensorboard; eauto).
  assert (Hsb : sb = [] \/ exists proc, sb = [Binds proc "systemboard"])
    by (unfold sb; destruct systemboard; eauto).
  clearbody c1 c3 tb sb. injection Hc as ->.
  assert (E : forall s,
             binders s
               ((c1 ++ [Binds actor0 "spec"; Binds ps "ps-frontend";
                        Binds ps "ps-backend";
                        Connects ps "parameter-publish";
                        Binds replay "collector-frontend";
                        Binds replay "sampler-frontend";
                        Binds replay "collector-backend";
                        Binds replay "sampler-backend";
                        Connects learner "spec";
                        Connects learner "sampler-frontend";
                        Binds learner "parameter-publish";
                        Binds learner "prefetch-queue";
                        Binds tensorplex "tensorplex";
                        Binds tensorplex "tensorplex-system"])
                ++ [Binds irs "irs-frontend"; Binds irs "irs-backend"]
                ++ c3 ++ tb ++ sb)
             = binders s ([Binds actor0 "spec"; Binds ps "ps-frontend";
                           Binds ps "ps-backend";
                           Binds replay "collector-frontend";
                           Binds replay "sampler-frontend";
                           Binds replay "collector-backend";
                           Binds replay "sampler-backend";
                           Binds learner "parameter-publish";
                           Binds learner "prefetch-queue";
                           Binds tensorplex "tensorplex";
                           Binds tensorplex "tensorplex-system";
                           Binds irs "irs-frontend";
                           Binds irs "irs-backend"] ++ tb ++ sb)).
  { intros s. rewrite !binders_app, B1, B3.
    repeat (rewrite binders_cons_binds || rewrite binders_cons_connects).
    rewrite !binders_nil, <- ?app_assoc. cbn [app].
    by rewrite <- ?app_assoc. }
  split.
  - intros p s Hin. rewrite E.
    assert (Hs : In s ["ps-frontend"; "collector-frontend";
                       "parameter-publish"; "spec"; "sampler-frontend";
                       "tensorplex"; "tensorplex-system"; "irs-frontend"]).
    { apply in_app_or in Hin as [Hin|Hin].
      - apply in_app_or in Hin as [Hin|Hin].
        + apply C1 in Hin as [->| ->]; simpl; auto.
        + simpl in Hin. simpl.
          repeat (destruct Hin as [Hin|Hin];
                  [try discriminate Hin; injection Hin as _ <-; tauto|]).
          done.
      - cbn [app] in Hin.
        destruct Hin as [Hin|[Hin|Hin]];
          [discriminate Hin|discriminate Hin|].
        apply in_app_or in Hin as [Hin|Hin].
        { apply C3 in Hin as [->|[->| ->]]; simpl; auto 10. }
        apply in_app_or in Hin as [Hin|Hin].
        + destruct Htb as [->|[q ->]]; simpl in Hin; intuition discriminate.
        + destruct Hsb as [->|[q ->]]; simpl in Hin; intuition discriminate. }
    simpl in Hs.
    destruct Htb as [->|[q1 ->]], Hsb as [->|[q2 ->]];
      repeat (destruct Hs as [<-|Hs]; [reflexivity|]); done.
  - intros s. rewrite E.
    destruct Htb as [->|[q1 ->]], Hsb as [->|[q2 ->]];
      rewrite ?binders_app, ?binders_cons_binds, ?binders_nil;
      repeat match goal with
             | |- context [String.eqb ?c s] =>
                 destruct (String.eqb_spec c s) as [<-|?];
                 [vm_compute; lia|]
             end; simpl; lia.
Qed.

Lemma setup_network_wiring_witness :
  length (binders "spec"
            [Connects "actor-0" "ps-frontend";
             Connects "actor-0" "collector-frontend";
             Binds "actor-0" "spec";
             Binds "ps" "ps-frontend";
             Binds "ps" "ps-backend";
             Connects "ps" "parameter-publish";
             Binds "replay" "collector-frontend";
             Binds "replay" "sampler-frontend";
             Binds "replay" "collector-backend";
             Binds "replay" "sampler-backend";
             Connects "learner" "spec";
             Connects "learner" "sampler-frontend";
             Binds "learner" "parameter-publish";
             Binds "learner" "prefetch-queue";
             Binds "tensorplex" "tensorplex";
             Binds "tensorplex" "tensorplex-system";
             Binds "irs" "irs-frontend";
             Binds "irs" "irs-backend";
             Connects "actor-0" "tensorplex";
             Connects "actor-0" "tensorplex-system";
             Connects "actor-0" "irs-frontend";
             Connects "ps" "tensorplex";
             Connects "ps" "tensorplex-system";
             Connects "ps" "irs-frontend";
             Connects "replay" "tensorplex";
             Connects "replay" "tensorplex-system";
             Connects "replay" "irs-frontend";
             Connects "learner" "tensorplex";
             Connects "learner" "tensorplex-system";
             Connects "learner" "irs-frontend";
             Binds "tensorboard" "tensorboard"]) = 1%nat.
Proof.
  refine (proj1 (setup_network_wiring
                   ["actor-0"] "ps" "replay" "learner" "tensorplex"
                   (Some "tensorboard") None (Some "irs") _ eq_refl)
                "learner" "spec" _).
  simpl. tauto.
Defined.


End CreateProgramsExtra.

(** ** env/xor_env.py *)

Module XorEnvMore.
Import XorEnv.

Section Env.
Variable randint : nat -> bool * bool.

Lemma step_before k self action :
  before randint k self ->
  exists self', step randint self action = Ok (answer randint k action, self')
                /\ before randint (S k) self'.
Proof.
  assert (HS : Nat.div2 (S k)
               = if Nat.even k then Nat.div2 k else S (Nat.div2 k)).
  { destruct (Nat.even k) eqn:E.
    - apply Nat.even_spec in E as [m ->].
      by rewrite Nat.div2_succ_double, Nat.div2_double.
    - rewrite <- Nat.negb_odd in E.
      apply negb_false_iff, Nat.odd_spec in E as [m ->].
      replace (2 * m + 1)%nat with (S (2 * m)) by lia.
      rewrite Nat.div2_succ_double.
      replace (S (S (2 * m))) with (2 * S m)%nat by lia.
      by rewrite Nat.div2_double. }
  unfold before, answer, step. rewrite Nat.even_succ, <- Nat.negb_even, HS.
  destruct (Nat.even k); cbn [negb].
  - intros [-> Hd]. unfold reset. rewrite Hd. eexists. by split.
  - intros (-> & -> & Hd). destruct (randint (Nat.div2 k)) as [f0 f1] eqn:Er.
    eexists. split; [done|]. cbn. by rewrite Hd.
Qed.

Lemma steps_before actions : forall k self,
  before randint k self ->
  exists self',
    steps randint self actions
    = Ok (imap (fun i action => answer randint (k + i) action) actions, self').
Proof.
  induction actions as [|a actions IH]; intros k self Hb; simpl.
  - eauto.
  - destruct (step_before k self a Hb) as (self1 & -> & Hb1).
    destruct (IH (S k) self1 Hb1) as (self2 & ->).
    exists self2. rewrite Nat.add_0_r. do 3 f_equal.
    apply imap_ext. intros i x _. simpl. f_equal. lia.
Qed.

End Env.
End XorEnvMore.

Module XorEnvExtra.
Import XorEnv XorEnvMore.

(** X30.  From a new environment, [step] never raises and its calls come
    in pairs: the calls number 0, 2, 4, ... ignore their action, draw the
    features and return [restart]; each call after one of these returns
    [termination] with the same features and the reward 1 when the action
    is the exclusive or of the two features, 0 otherwise, also for an
    action that is neither 0 nor 1. *)
Theorem steps_alternate (randint : nat -> bool * bool) (actions : list Z) :
  exists self',
    steps randint init actions
    = Ok (imap (fun k action =>
                  let f := randint (Nat.div2 k) in
                  if Nat.even k then restart f
                  else termination
                         (if Z.b2z (xorb f.1 f.2) =? action then 1 else 0) f)
               actions,
          self').
Proof.
  destruct (steps_before randint actions 0 init) as (self' & E); [done|].
  by exists self'.
Qed.

End XorEnvExtra.
